(** * Spintax: a shallow embedding of [src/index.ts]

    The library parses templates such as [{Hello|Hi} {world|there}] into an
    ordered list of segments (each segment a list of alternative strings),
    counts and enumerates the expansions, samples random expansions and
    checks brace balance.

    Conventions of the embedding.
    - A JavaScript string is a list of characters ([str]).  Only three
      characters are ever inspected by the code (the two braces and the
      pipe), so the 8-bit [ascii] alphabet stands for the UTF-16 code units.
    - Array indices are [nat]; the depth counters and the [count] option
      are [Z], because the code lets them go below zero (a [count] that is
      not an integer is outside the model).
    - The combination count is a JavaScript number, that is a double: the
      type [number] below holds the values that the counter can reach (the
      non-negative integers that are doubles, [Infinity] and [NaN]) and its
      sum and product round as the doubles do.
    - [text.indexOf] returns [option nat] ([None] for -1).
    - Reading a property of [undefined] is the outcome [TypeError].
    - Recursive functions of the source whose recursion is not structural
      take a [fuel] argument bounding the depth of the call stack.  Running
      out of fuel is reported as [OutOfFuel]; a call that is [OutOfFuel] for
      every amount of fuel is one whose recursion never bottoms out.
    - [Math.random] is an oracle [rnd : nat -> nat] read through a counter
      that is threaded through the sampler. *)

From Stdlib Require Import Ascii String.
From Stdlib Require Import List NArith ZArith Lia Bool Arith.
From Stdlib Require Import QArith.
From Stdlib Require Import SpecFloat.
Import ListNotations.

Local Close Scope Q_scope.
Local Open Scope nat_scope.
Local Open Scope list_scope.

(** ** Strings *)

Abbreviation str := (list ascii) (only parsing).

Definition lbrace : ascii := "{"%char.
Definition rbrace : ascii := "}"%char.
Definition pipe : ascii := "|"%char.

(** Literals of the examples are written ["..."%string] and converted. *)
Definition lit (s : string) : str := list_ascii_of_string s.

(** [s.includes(c)] for a one-character needle. *)
Definition includes (c : ascii) (s : str) : bool := existsb (Ascii.eqb c) s.

Fixpoint indexOf_aux (c : ascii) (s : str) (i : nat) : option nat :=
  match s with
  | [] => None
  | x :: s' => if Ascii.eqb x c then Some i else indexOf_aux c s' (S i)
  end.

(** [text.indexOf(c, from)]; [None] is the source's [-1]. *)
Definition indexOf (c : ascii) (text : str) (from : nat) : option nat :=
  indexOf_aux c (skipn from text) from.

(** [text.slice(a, b)] for [0 <= a]; an empty string when [b <= a]. *)
Definition slice (text : str) (a b : nat) : str := firstn (b - a) (skipn a text).

(** ** The brace scanner *)

(** [splitOptions]: the [for] loop over [content], with the accumulators
    [options], [current] and [depth] of the source. *)
Fixpoint splitOptions_loop (content : str) (options : list str)
    (current : str) (depth : Z) : list str * str :=
  match content with
  | [] => (options, current)
  | char :: content' =>
      if Ascii.eqb char lbrace then
        splitOptions_loop content' options (current ++ [char]) (depth + 1)
      else if Ascii.eqb char rbrace then
        splitOptions_loop content' options (current ++ [char]) (depth - 1)
      else if Ascii.eqb char pipe && (depth =? 0)%Z then
        splitOptions_loop content' (options ++ [current]) [] depth
      else
        splitOptions_loop content' options (current ++ [char]) depth
  end.

Definition splitOptions (content : str) : list str :=
  let '(options, current) := splitOptions_loop content [] [] 0%Z in
  match current with
  | [] => options
  | _ :: _ => options ++ [current]
  end.

(** The inner [while (closeBrace < text.length && depth > 0)] loop of
    [parseSpintax]; [rest] is the text from position [closeBrace] on. *)
Fixpoint scanClose (rest : str) (closeBrace : nat) (depth : Z) : nat * Z :=
  match rest with
  | [] => (closeBrace, depth)
  | ch :: rest' =>
      if (0 <? depth)%Z then
        let depth1 := if Ascii.eqb ch lbrace then (depth + 1)%Z else depth in
        let depth2 := if Ascii.eqb ch rbrace then (depth1 - 1)%Z else depth1 in
        scanClose rest' (S closeBrace) depth2
      else (closeBrace, depth)
  end.

Abbreviation segments_t := (list (list (list ascii))) (only parsing).

(** Outcome of one iteration of the outer [while] loop of [parseSpintax]:
    either the loop goes on with a new state, or it leaves through [break]. *)
Inductive iter_result :=
| Continue (segments : segments_t) (currentIndex : nat)
| Break (segments : segments_t).

(** The body of the outer loop, run in a state with
    [currentIndex < text.length]. *)
Definition parse_iter (text : str) (segments : segments_t) (currentIndex : nat)
    : iter_result :=
  match indexOf lbrace text currentIndex with
  | None => Break (segments ++ [[skipn currentIndex text]])
  | Some openBrace =>
      let segments1 :=
        if currentIndex <? openBrace
        then segments ++ [[slice text currentIndex openBrace]]
        else segments in
      let '(closeBrace1, depth) :=
        scanClose (skipn (openBrace + 1) text) (openBrace + 1) 1%Z in
      let closeBrace := closeBrace1 - 1 in
      if negb (depth =? 0)%Z then
        Continue (segments1 ++ [[slice text openBrace (openBrace + 1)]])
                 (openBrace + 1)
      else
        Continue
          (segments1 ++ [splitOptions (slice text (openBrace + 1) closeBrace)])
          (closeBrace + 1)
  end.

(** The outer loop.  One unit of [fuel] is spent per executed iteration;
    [None] means the fuel did not suffice. *)
Fixpoint parse_loop (fuel : nat) (text : str) (segments : segments_t)
    (currentIndex : nat) : option segments_t :=
  if currentIndex <? length text then
    match fuel with
    | O => None
    | S fuel' =>
        match parse_iter text segments currentIndex with
        | Break segments' => Some segments'
        | Continue segments' currentIndex' =>
            parse_loop fuel' text segments' currentIndex'
        end
    end
  else Some segments.

(** [parseSpintax]: [length text] iterations always suffice
    (lemma [parseSpintax_loop] below), so the default is never used. *)
Definition parseSpintax (text : str) : segments_t :=
  match parse_loop (length text) text [] 0 with
  | Some segments => segments
  | None => []
  end.

(** The runs of the outer loop as a relation that counts the iterations:
    [parse_run text n segments i out] when the loop started in state
    [(segments, i)] ends after exactly [n] iterations with [out]. *)
Inductive parse_run (text : str) : nat -> segments_t -> nat -> segments_t -> Prop :=
| run_exit segments i :
    length text <= i -> parse_run text 0 segments i segments
| run_break segments i segments' :
    i < length text ->
    parse_iter text segments i = Break segments' ->
    parse_run text 1 segments i segments'
| run_continue segments i segments' i' n out :
    i < length text ->
    parse_iter text segments i = Continue segments' i' ->
    parse_run text n segments' i' out ->
    parse_run text (S n) segments i out.

(** ** The validator *)

Fixpoint validate_loop (text : str) (depth : Z) : bool :=
  match text with
  | [] => (depth =? 0)%Z
  | char :: text' =>
      let depth1 := if Ascii.eqb char lbrace then (depth + 1)%Z else depth in
      let depth2 := if Ascii.eqb char rbrace then (depth1 - 1)%Z else depth1 in
      if (depth2 <? 0)%Z then false else validate_loop text' depth2
  end.

Definition validate (text : str) : bool := validate_loop text 0%Z.

(** [extractOptions]: the parsed segments with more than one alternative. *)
Definition extractOptions (text : str) : segments_t :=
  filter (fun s => 1 <? length s) (parseSpintax text).

(** ** Outcomes of the recursive functions *)

(** A call returns a value, throws the [TypeError] of reading a property of
    [undefined], or exhausts its fuel. *)
Inductive outcome (A : Type) : Type :=
| Returns (a : A)
| TypeError
| OutOfFuel.

Arguments Returns {A} a.
Arguments TypeError {A}.
Arguments OutOfFuel {A}.

Definition obind {A B : Type} (m : outcome A) (k : A -> outcome B) : outcome B :=
  match m with
  | Returns a => k a
  | TypeError => TypeError
  | OutOfFuel => OutOfFuel
  end.

Declare Scope outcome_scope.
Delimit Scope outcome_scope with outcome.
Notation "x <- m ;; k" := (obind m (fun x => k))
  (at level 61, m at next level, right associativity) : outcome_scope.
Local Open Scope outcome_scope.

(** A [for (const x of l)] loop whose body updates an accumulator and may
    fail. *)
Fixpoint for_each {A S : Type} (l : list A) (body : S -> A -> outcome S) (s : S)
    : outcome S :=
  match l with
  | [] => Returns s
  | x :: l' => s' <- body s x ;; for_each l' body s'
  end.

(** ** The combinatorial expander and the counter *)

(** [processNestedSpintax], with the expander it calls as a parameter. *)
Definition processNestedSpintax_with
    (expand : segments_t -> outcome (list str)) (text : str) : outcome (list str) :=
  if negb (includes lbrace text) then Returns [text]
  else expand (parseSpintax text).

(** The two inner loops of [generateAllCombinations]: every [processed]
    string followed by every [restCombo], pushed in that order. *)
Definition push_products (results processedOptions restCombinations : list str)
    : list str :=
  results ++
  flat_map (fun processed => map (fun restCombo => processed ++ restCombo)
                                 restCombinations)
           processedOptions.

(** The body of the loop over the options of the first segment. *)
Definition expand_option (expand : segments_t -> outcome (list str))
    (restCombinations : list str) (results : list str) (option : str)
    : outcome (list str) :=
  processedOptions <- processNestedSpintax_with expand option ;;
  Returns (push_products results processedOptions restCombinations).

Fixpoint generateAllCombinations (fuel : nat) (segments : segments_t)
    : outcome (list str) :=
  match fuel with
  | O => OutOfFuel
  | S fuel' =>
      match segments with
      | [] => Returns [[]]
      | first :: rest =>
          restCombinations <- generateAllCombinations fuel' rest ;;
          for_each first
            (expand_option (generateAllCombinations fuel') restCombinations) []
      end
  end.

Definition processNestedSpintax (fuel : nat) (text : str) : outcome (list str) :=
  processNestedSpintax_with (generateAllCombinations fuel) text.

(** ** Numbers

    [countCombinations] computes with JavaScript numbers.  Its accumulators
    start at 0 and 1 and are only ever added and multiplied, so the values
    they can hold are the non-negative integers that are doubles, [Infinity]
    and [NaN]. *)
Inductive number : Type :=
| Fin (n : N)
| Infinity
| NaN.

(** The double nearest to the integer [n], ties to the even significand.
    The 53 leading bits [q] of [n] are kept; the [e] bits [r] below them
    decide the rounding against [half = 2^(e-1)]; a rounded value of
    [2^1024] or more, that is one of more than 1024 bits, is [Infinity].
    An integer below [2^53] has [e = 0] and is kept as it is. *)
Definition round (n : N) : number :=
  let e := (N.log2 n - 52)%N in
  let q := N.shiftr n e in
  let r := N.land n (N.ones e) in
  let half := N.shiftl 1 (e - 1) in
  let q' := if (half <? r)%N || ((r =? half)%N && N.odd q)
            then (q + 1)%N else q in
  let v := N.shiftl q' e in
  if (1024 <=? N.log2 v)%N then Infinity else Fin v.

(** [a + b] *)
Definition nadd (a b : number) : number :=
  match a, b with
  | NaN, _ | _, NaN => NaN
  | Infinity, _ | _, Infinity => Infinity
  | Fin x, Fin y => round (x + y)
  end.

(** [a * b]; [Infinity * 0] is [NaN]. *)
Definition nmul (a b : number) : number :=
  match a, b with
  | NaN, _ | _, NaN => NaN
  | Infinity, Fin 0 | Fin 0, Infinity => NaN
  | Infinity, _ | _, Infinity => Infinity
  | Fin x, Fin y => round (x * y)
  end.

(** [Math.min(a, b)]: [NaN] when either argument is. *)
Definition Math_min (a b : number) : number :=
  match a, b with
  | NaN, _ | _, NaN => NaN
  | Infinity, x | x, Infinity => x
  | Fin x, Fin y => Fin (N.min x y)
  end.

(** [array.slice(0, end)] for a number [end] that is not negative: [NaN]
    is taken as 0 and [Infinity] as the length of the array. *)
Definition slice_to {A : Type} (l : list A) (end_ : number) : list A :=
  match end_ with
  | Fin n => firstn (N.to_nat n) l
  | Infinity => l
  | NaN => []
  end.

(** ** The counter *)

(** The bodies of the inner and of the outer loop of [countCombinations],
    with the recursive call as a parameter. *)
Definition count_option (count_nested : segments_t -> outcome number)
    (segmentTotal : number) (option : str) : outcome number :=
  if includes lbrace option then
    n <- count_nested (parseSpintax option) ;;
    Returns (nadd segmentTotal n)
  else Returns (nadd segmentTotal (Fin 1)).

Definition count_segment (count_nested : segments_t -> outcome number)
    (total : number) (segment : list str) : outcome number :=
  segmentTotal <- for_each segment (count_option count_nested) (Fin 0) ;;
  Returns (nmul total segmentTotal).

Fixpoint countCombinations (fuel : nat) (segments : segments_t)
    : outcome number :=
  match fuel with
  | O => OutOfFuel
  | S fuel' =>
      for_each segments (count_segment (countCombinations fuel')) (Fin 1)
  end.

(** [array.slice(0, end)] for an integer [end]: a negative [end] counts from
    the end of the array. *)
Definition slice0 {A : Type} (l : list A) (end_ : Z) : list A :=
  if (end_ <? 0)%Z then firstn (Z.to_nat (Z.of_nat (length l) + end_)) l
  else firstn (Z.to_nat end_) l.

Definition generateSequentialVariations (fuel : nat) (segments : segments_t)
    (count : Z) : outcome (list str) :=
  all <- generateAllCombinations fuel segments ;;
  Returns (slice0 all count).

(** ** Statistics *)

(** [averageOptionsPerSpin] is the quotient of two integers; the rational
    number stands for the double the source computes from it. *)
Record SpintaxStats := {
  totalCombinations : number;
  spinElements : nat;
  averageOptionsPerSpin : Q
}.

Definition spinElements_of (segments : segments_t) : nat :=
  length (filter (fun s => 1 <? length s) segments).

Definition totalOptions_of (segments : segments_t) : nat :=
  fold_left (fun sum s => sum + length s) segments 0.

Definition quotient (a b : nat) : Q :=
  Qdiv (inject_Z (Z.of_nat a)) (inject_Z (Z.of_nat b)).

Definition analyze (fuel : nat) (text : str) : outcome SpintaxStats :=
  let segments := parseSpintax text in
  let spinElements := spinElements_of segments in
  let totalOptions := totalOptions_of segments in
  total <- countCombinations fuel segments ;;
  Returns {| totalCombinations := total;
             spinElements := spinElements;
             averageOptionsPerSpin :=
               if 0 <? spinElements
               then quotient totalOptions (length segments)
               else inject_Z 0 |}.

(** ** The sampler *)

Fixpoint str_eqb (a b : str) : bool :=
  match a, b with
  | [], [] => true
  | x :: a', y :: b' => Ascii.eqb x y && str_eqb a' b'
  | _, _ => false
  end.

(** [x || d] for a string or [undefined] [x]: the empty string is falsy. *)
Definition or_else (x : option str) (d : str) : str :=
  match x with
  | Some (c :: s) => c :: s
  | Some [] => d
  | None => d
  end.

Section Sampler.

(** The [k]-th value drawn from [Math.random], as a natural number from
    which the index is taken. *)
Variable rnd : nat -> nat.

(** A computation that reads the random source: it takes the number of
    draws made so far and returns it updated. *)
Definition M (A : Type) : Type := nat -> outcome (A * nat).

Definition ret {A : Type} (a : A) : M A := fun k => Returns (a, k).

Definition mbind {A B : Type} (m : M A) (f : A -> M B) : M B :=
  fun k =>
    match m k with
    | Returns (a, k') => f a k'
    | TypeError => TypeError
    | OutOfFuel => OutOfFuel
    end.

Definition lift {A : Type} (o : outcome A) : M A :=
  fun k => match o with
           | Returns a => Returns (a, k)
           | TypeError => TypeError
           | OutOfFuel => OutOfFuel
           end.

Definition throw {A : Type} : M A := fun _ => TypeError.

(** [Math.floor(Math.random() * len)]: some index below [len], and [0] when
    [len] is [0]. *)
Definition randomIndex (len : nat) : M nat :=
  fun k => Returns ((if len =? 0 then 0 else rnd k mod len), S k).

Fixpoint mfor_each {A S : Type} (l : list A) (body : S -> A -> M S) (s : S) : M S :=
  match l with
  | [] => ret s
  | x :: l' => mbind (body s x) (mfor_each l' body)
  end.

(** The state of the [while] loop of [generateRandomVariations]. *)
Record sampler_state := {
  results : list str;
  seen : list str;
  attempts : nat
}.

(** The body of the [for (const segment of segments)] loop: one
    alternative of [segment] is drawn and appended to [variation].
    [segment[randomIndex]] is [undefined] when the segment is empty, and
    [option.includes] then throws.  The recursive call for nested options
    is a parameter. *)
Definition pick_option (nested : segments_t -> M (list str)) (variation : str)
    (segment : list str) : M str :=
  mbind (randomIndex (length segment)) (fun i =>
  match nth_error segment i with
  | None => throw
  | Some option =>
      if includes lbrace option then
        mbind (nested (parseSpintax option)) (fun nestedVariations =>
        ret (variation ++ or_else (nth_error nestedVariations 0) option))
      else ret (variation ++ option)
  end).

(** One attempt: the body of the [while] loop. *)
Definition attempt (nested : segments_t -> M (list str)) (segments : segments_t)
    (st : sampler_state) : M sampler_state :=
  mbind (mfor_each segments (pick_option nested) [])
    (fun variation =>
       if existsb (str_eqb variation) (seen st) then
         ret {| results := results st; seen := seen st;
                attempts := S (attempts st) |}
       else
         ret {| results := results st ++ [variation];
                seen := seen st ++ [variation];
                attempts := S (attempts st) |}).

(** The [while (results.length < count && attempts < maxAttempts)] loop;
    [gas] bounds the number of iterations. *)
Fixpoint sample_loop (gas : nat) (nested : segments_t -> M (list str))
    (segments : segments_t) (count maxAttempts : Z) (st : sampler_state)
    : M sampler_state :=
  if (Z.of_nat (length (results st)) <? count)%Z
     && (Z.of_nat (attempts st) <? maxAttempts)%Z then
    match gas with
    | O => fun _ => OutOfFuel
    | S gas' =>
        mbind (attempt nested segments st)
              (sample_loop gas' nested segments count maxAttempts)
    end
  else ret st.

Fixpoint generateRandomVariations (fuel : nat) (segments : segments_t) (count : Z)
    : M (list str) :=
  match fuel with
  | O => fun _ => OutOfFuel
  | S fuel' =>
      let maxAttempts := (count * 10)%Z in
      mbind
        (sample_loop (Z.to_nat maxAttempts)
           (fun nestedSegments => generateRandomVariations fuel' nestedSegments 1%Z)
           segments count maxAttempts
           {| results := []; seen := []; attempts := 0 |})
        (fun st => ret (results st))
  end.

(** ** Public entry points *)

Definition spin (fuel : nat) (text : str) : M str :=
  let segments := parseSpintax text in
  mbind (generateRandomVariations fuel segments 1%Z) (fun variations =>
  ret (or_else (nth_error variations 0) text)).

Inductive Mode := random | all | sequential.

(** [GenerateOptions]: both fields are optional in the source. *)
Record GenerateOptions := {
  count : option Z;
  mode : option Mode
}.

(** [SpintaxResult]; [generatedCount] is the field that the source adds to
    the copied statistics. *)
Record SpintaxResult := {
  variations : list str;
  stats : SpintaxStats;
  generatedCount : nat
}.

Definition generate (fuel : nat) (text : str) (options : GenerateOptions)
    : M SpintaxResult :=
  let count := match count options with Some c => c | None => 10%Z end in
  let mode := match mode options with Some m => m | None => random end in
  let segments := parseSpintax text in
  mbind (lift (analyze fuel text)) (fun stats =>
  mbind
    (match mode with
     | all =>
         let maxAll := Math_min (totalCombinations stats) (Fin 1000) in
         lift (allCombinations <- generateAllCombinations fuel segments ;;
               Returns (slice_to allCombinations maxAll))
     | sequential =>
         lift (generateSequentialVariations fuel segments (Z.min count 1000))
     | random =>
         generateRandomVariations fuel segments (Z.min count 100)
     end)
    (fun variations =>
       ret {| variations := variations;
              stats := stats;
              generatedCount := length variations |})).

End Sampler.

(** ** Brace depth (specification side) *)

(** The change of the depth counter caused by one character. *)
Definition delta (ch : ascii) : Z :=
  if Ascii.eqb ch lbrace then 1%Z
  else if Ascii.eqb ch rbrace then (-1)%Z else 0%Z.

(** The value of a depth counter started at zero after reading [text]
    (increment on an opening brace, decrement on a closing one). *)
Fixpoint depth_of (text : str) : Z :=
  match text with
  | [] => 0%Z
  | ch :: text' => (delta ch + depth_of text')%Z
  end.

(** Exactly balanced braces: the running depth is never negative at any
    prefix and is zero at the end. *)
Definition balanced (text : str) : Prop :=
  (forall n, (0 <= depth_of (firstn n text))%Z) /\ depth_of text = 0%Z.

(** The depth counter, started at [d] on the text [rest] that follows an
    opening brace, stays positive up to the end of the string: the brace has
    no matching closing brace. *)
Fixpoint stays_open (rest : str) (d : Z) : bool :=
  (0 <? d)%Z &&
  match rest with
  | [] => true
  | ch :: rest' => stays_open rest' (d + delta ch)
  end.

(** Position [p] of [text] holds an opening brace without a matching
    closing brace before the end of the string. *)
Definition unmatched_open (text : str) (p : nat) : bool :=
  match nth_error text p with
  | Some ch => Ascii.eqb ch lbrace && stays_open (skipn (S p) text) 1%Z
  | None => false
  end.

(** The states that the outer loop of [parseSpintax] passes through. *)
Inductive reached (text : str) : segments_t -> nat -> Prop :=
| reached_start : reached text [] 0
| reached_step segments i segments' i' :
    reached text segments i ->
    i < length text ->
    parse_iter text segments i = Continue segments' i' ->
    reached text segments' i'.

(** The segments after the literal text [pre] that precedes a brace has
    been pushed: nothing is pushed for an empty [pre]. *)
Definition with_literal (segments : segments_t) (pre : str) : segments_t :=
  match pre with
  | [] => segments
  | _ :: _ => segments ++ [[pre]]
  end.

(** The three ways through the body of the outer loop, read on the text
    [skipn i text] that lies after the cursor. *)
Inductive iter_view (text : str) (segments : segments_t) (i : nat)
    : iter_result -> Prop :=
| view_tail :
    includes lbrace (skipn i text) = false ->
    iter_view text segments i (Break (segments ++ [[skipn i text]]))
| view_unmatched pre post :
    skipn i text = pre ++ lbrace :: post ->
    includes lbrace pre = false ->
    stays_open post 1%Z = true ->
    iter_view text segments i
      (Continue (with_literal segments pre ++ [[[lbrace]]]) (i + length pre + 1))
| view_group pre content post :
    skipn i text = pre ++ lbrace :: content ++ rbrace :: post ->
    includes lbrace pre = false ->
    validate content = true ->
    iter_view text segments i
      (Continue (with_literal segments pre ++ [splitOptions content])
                (i + length pre + length content + 2)).

(** Every opening brace of [text] has a matching closing brace. *)
Definition all_matched (text : str) : bool :=
  forallb (fun p => negb (unmatched_open text p)) (seq 0 (length text)).

(** An option that the expander, the counter or the sampler will parse
    again (one that contains an opening brace) is balanced and shorter than
    [bound]. *)
Definition nested_ok (bound : nat) (option : str) : Prop :=
  includes lbrace option = true ->
  validate option = true /\ length option < bound.

Definition good_segments (bound : nat) (segments : segments_t) : Prop :=
  Forall (Forall (nested_ok bound)) segments.

(** ** Source order (specification side) *)

(** The number of segments with more than one alternative. *)
Fixpoint count_spin (segments : segments_t) : nat :=
  match segments with
  | [] => 0
  | seg :: rest => (if 1 <? length seg then 1 else 0) + count_spin rest
  end.

(** [keeps_spin segments out]: [out] lists, in the same order and
    unchanged, exactly the segments with more than one alternative. *)
Inductive keeps_spin : segments_t -> segments_t -> Prop :=
| keeps_nil : keeps_spin [] []
| keeps_take seg rest out :
    1 < length seg -> keeps_spin rest out ->
    keeps_spin (seg :: rest) (seg :: out)
| keeps_drop seg rest out :
    length seg <= 1 -> keeps_spin rest out ->
    keeps_spin (seg :: rest) out.

(** The content of a group written from its alternatives: every
    alternative of [opts] followed by a pipe, then the text [last] after the
    final top-level pipe, which is an alternative only when not empty. *)
Definition content_of (opts : list str) (last : str) : str :=
  concat (map (fun o => o ++ [pipe]) opts) ++ last.

Definition options_of (opts : list str) (last : str) : list str :=
  match last with
  | [] => opts
  | _ :: _ => opts ++ [last]
  end.

(** A piece of the source text and the segment parsed from it: literal
    text is its own single alternative, and a braced group yields the
    alternatives of its content in the order they are written. *)
Inductive piece_of : str -> list str -> Prop :=
| piece_literal s : piece_of s [s]
| piece_group opts last :
    piece_of (lbrace :: content_of opts last ++ [rbrace]) (options_of opts last).

(** The total alternative count across all segments. *)
Definition total_alternatives (segments : segments_t) : nat :=
  list_sum (map (@length str) segments).

(** The average as the specification words it: the total alternative count
    over the number of segments, and [0] exactly when there is no
    segment. *)
Definition specified_average (segments : segments_t) : Q :=
  match segments with
  | [] => inject_Z 0
  | _ :: _ => quotient (total_alternatives segments) (length segments)
  end.

(** ** Canonical order (specification side) *)

(** No option contains an opening brace: nothing is nested. *)
Definition flat (segments : segments_t) : bool :=
  forallb (forallb (fun o => negb (includes lbrace o))) segments.

(** The combinations of a template without nesting in canonical order: the
    current segment is the outer loop and the rest of the template the inner
    loop, so that the rightmost segment varies fastest. *)
Fixpoint canonical (segments : segments_t) : list str :=
  match segments with
  | [] => [[]]
  | first :: rest =>
      flat_map (fun option => map (fun restCombo => option ++ restCombo)
                                  (canonical rest))
               first
  end.

(** Templates on which the sampler can always pick: no alternative set is
    empty, at every level of nesting (which also rules out the literal
    segment of an unmatched opening brace, whose nesting never ends). *)
Inductive pickable : segments_t -> Prop :=
| pickable_intro segments :
    (forall seg, In seg segments -> seg <> []) ->
    (forall seg o, In seg segments -> In o seg -> includes lbrace o = true ->
       pickable (parseSpintax o)) ->
    pickable segments.

(** Templates on which the sampler agrees with the expander: no alternative
    set is empty and no nested option can expand to the empty string, at
    every level of nesting. *)
Inductive samplable : segments_t -> Prop :=
| samplable_intro segments :
    (forall seg, In seg segments -> seg <> []) ->
    (forall seg o, In seg segments -> In o seg -> includes lbrace o = true ->
       forall fuel l, generateAllCombinations fuel (parseSpintax o) = Returns l ->
                      ~ In [] l) ->
    (forall seg o, In seg segments -> In o seg -> includes lbrace o = true ->
       samplable (parseSpintax o)) ->
    samplable segments.

(** [piece] is one of the strings that the expander makes of some
    alternative of [segment]. *)
Definition piece_ok (segment : list str) (piece : str) : Prop :=
  exists fuel o processed,
    In o segment /\
    processNestedSpintax fuel o = Returns processed /\
    In piece processed.

(** ** Joining alternatives (specification side) *)

(** The alternatives written one after the other with a pipe in between. *)
Fixpoint join_pipe (opts : list str) : str :=
  match opts with
  | [] => []
  | [o] => o
  | o :: rest => o ++ pipe :: join_pipe rest
  end.

(** No pipe of [o] lies at depth zero when the depth counter enters [o] at
    depth [d]: [splitOptions] finds nothing to split inside [o]. *)
Fixpoint no_top_pipe (o : str) (d : Z) : bool :=
  match o with
  | [] => true
  | ch :: o' =>
      if Ascii.eqb ch pipe && (d =? 0)%Z then false
      else no_top_pipe o' (d + delta ch)
  end.

(** An alternative that [splitOptions] hands back whole: its braces add up
    to depth zero and none of its pipes is at depth zero. *)
Definition whole_option (o : str) : bool :=
  no_top_pipe o 0%Z && (depth_of o =? 0)%Z.

(** The product of the numbers of alternatives of the segments. *)
Definition product_of_sizes (segments : segments_t) : nat :=
  fold_right (fun seg acc => length seg * acc) 1 segments.

(** ** The exact count (specification side)

    The sums and products of [countCombinations] taken in the natural
    numbers, where nothing is rounded: the bodies of the two loops and the
    recursion are those of the counter. *)
Definition exact_option (exact_nested : segments_t -> outcome nat)
    (segmentTotal : nat) (option : str) : outcome nat :=
  if includes lbrace option then
    n <- exact_nested (parseSpintax option) ;;
    Returns (segmentTotal + n)
  else Returns (segmentTotal + 1).

Definition exact_segment (exact_nested : segments_t -> outcome nat)
    (total : nat) (segment : list str) : outcome nat :=
  segmentTotal <- for_each segment (exact_option exact_nested) 0 ;;
  Returns (total * segmentTotal).

Fixpoint exactCombinations (fuel : nat) (segments : segments_t) : outcome nat :=
  match fuel with
  | O => OutOfFuel
  | S fuel' => for_each segments (exact_segment (exactCombinations fuel')) 1
  end.

(** A balanced text on which the counter overflows: the alternatives [x]
    and 1024 groups [{a|b}] followed by the empty group. *)
Definition overflow_text : str :=
  lit "{x|" ++ concat (repeat (lit "{a|b}") 1024) ++ lit "{}}".

(** The integers up to [2^53]: every one of them is a double, and sums and
    products that stay among them are not rounded. *)
Definition safe_integer (n : nat) : bool := (N.of_nat n <=? 2 ^ 53)%N.

(** The doubles of IEEE 754 (53 bits of precision, exponents up to 1024)
    as the Standard Library specifies them, for comparison with [number]. *)
Definition double_of (x : number) : spec_float :=
  match x with
  | Fin n => binary_normalize 53 1024 (Z.of_N n) 0 false
  | Infinity => S754_infinity false
  | NaN => S754_nan
  end.

(** ** Checking templates (specification side) *)

Definition is_nil {A : Type} (l : list A) : bool :=
  match l with
  | [] => true
  | _ :: _ => false
  end.

(** A check of [pickable] down to [fuel] levels of nesting. *)
Fixpoint pickableb (fuel : nat) (segments : segments_t) : bool :=
  match fuel with
  | O => false
  | S fuel' =>
      forallb
        (fun seg =>
           negb (is_nil seg) &&
           forallb (fun o => negb (includes lbrace o)
                             || pickableb fuel' (parseSpintax o)) seg)
        segments
  end.

(** A check of [samplable] down to [fuel] levels of nesting. *)
Fixpoint samplableb (fuel : nat) (segments : segments_t) : bool :=
  match fuel with
  | O => false
  | S fuel' =>
      forallb
        (fun seg =>
           negb (is_nil seg) &&
           forallb
             (fun o =>
                negb (includes lbrace o)
                || (match generateAllCombinations fuel' (parseSpintax o) with
                    | Returns l => negb (existsb is_nil l)
                    | _ => false
                    end
                    && samplableb fuel' (parseSpintax o)))
             seg)
        segments
  end.

(** * Properties *)

(** ** Examples *)

Example parse_ex1 :
  parseSpintax (lit "{Hello|Hi} world {1|2|3}") =
  [[lit "Hello"; lit "Hi"]; [lit " world "]; [lit "1"; lit "2"; lit "3"]].
Proof. reflexivity. Qed.

Example parse_ex2 :
  parseSpintax (lit "{A|B {1|2}}") = [[lit "A"; lit "B {1|2}"]].
Proof. reflexivity. Qed.

Example parse_ex3 : parseSpintax (lit "{a") = [[lit "{"]; [lit "a"]].
Proof. reflexivity. Qed.

Example parse_ex4 : parseSpintax (lit "{}") = [[]].
Proof. reflexivity. Qed.

Example parse_ex5 : parseSpintax (lit "{|}") = [[lit ""]].
Proof. reflexivity. Qed.

Example parse_ex6 : parseSpintax (lit "a}{b|c|}{{d}") =
  [[lit "a}"]; [lit "b"; lit "c"]; [lit "{"]; [lit "d"]].
Proof. reflexivity. Qed.

Example validate_ex :
  validate (lit "{Hello|Hi}") = true /\ validate (lit "{Hello|Hi") = false /\
  validate (lit "Hello}") = false /\ validate (lit "{{A|B}") = false.
Proof. repeat split; reflexivity. Qed.

Example extract_ex :
  extractOptions (lit "{Hello|Hi} world {1|2|3}") =
  [[lit "Hello"; lit "Hi"]; [lit "1"; lit "2"; lit "3"]].
Proof. reflexivity. Qed.

Example genall_ex1 :
  generateAllCombinations 5 (parseSpintax (lit "{A|B|C} {1|2|3}")) =
  Returns [lit "A 1"; lit "A 2"; lit "A 3"; lit "B 1"; lit "B 2"; lit "B 3";
           lit "C 1"; lit "C 2"; lit "C 3"].
Proof. reflexivity. Qed.

Example genall_ex2 :
  generateAllCombinations 5 (parseSpintax (lit "{A|B {1|2}}")) =
  Returns [lit "A"; lit "B 1"; lit "B 2"].
Proof. reflexivity. Qed.

Example count_ex :
  countCombinations 5 (parseSpintax (lit "{A|B {1|2}}")) = Returns (Fin 3) /\
  countCombinations 5 (parseSpintax (lit "{A|B} {1|2|3}")) = Returns (Fin 6).
Proof. split; vm_compute; reflexivity. Qed.

Example sequential_ex : forall rnd,
  generate rnd 5 (lit "{A|B|C} {1|2|3}")
    {| count := Some 5%Z; mode := Some sequential |} 0
  = Returns ({| variations := [lit "A 1"; lit "A 2"; lit "A 3"; lit "B 1"; lit "B 2"];
                stats := {| totalCombinations := Fin 9; spinElements := 2;
                            averageOptionsPerSpin := quotient 7 3 |};
                generatedCount := 5 |}, 0).
Proof. intros; vm_compute; reflexivity. Qed.

Example spin_plain_ex : forall rnd k,
  spin rnd 3 (lit "Hello world") k = Returns (lit "Hello world", S k).
Proof. intros; reflexivity. Qed.

(** ** Brace depth: lemmas *)

Lemma two_step_delta (ch : ascii) (d : Z) :
  (if Ascii.eqb ch rbrace
   then ((if Ascii.eqb ch lbrace then d + 1 else d) - 1)%Z
   else (if Ascii.eqb ch lbrace then (d + 1)%Z else d)) = (d + delta ch)%Z.
Proof.
  unfold delta.
  destruct (Ascii.eqb ch lbrace) eqn:El.
  - apply Ascii.eqb_eq in El; subst ch. simpl. lia.
  - destruct (Ascii.eqb ch rbrace); lia.
Qed.

Lemma depth_of_app (a b : str) :
  depth_of (a ++ b) = (depth_of a + depth_of b)%Z.
Proof. induction a as [|ch a IH]; simpl; [reflexivity | rewrite IH; lia]. Qed.

Lemma validate_loop_step (ch : ascii) (text : str) (d : Z) :
  validate_loop (ch :: text) d =
  if (d + delta ch <? 0)%Z then false else validate_loop text (d + delta ch).
Proof. simpl. rewrite two_step_delta. reflexivity. Qed.

(** The loop of [validate] started at a non-negative depth [d] accepts
    exactly the texts whose running depth stays non-negative and ends at
    zero. *)
Lemma validate_loop_spec (text : str) :
  forall d, (0 <= d)%Z ->
  validate_loop text d = true <->
  (forall n, (0 <= d + depth_of (firstn n text))%Z) /\ (d + depth_of text = 0)%Z.
Proof.
  induction text as [|ch text IH]; intros d Hd.
  - simpl. rewrite Z.eqb_eq. split.
    + intros ->. split; [intros n; rewrite firstn_nil; simpl|]; lia.
    + intros [_ H]. lia.
  - rewrite validate_loop_step.
    destruct (d + delta ch <? 0)%Z eqn:Eneg.
    + apply Z.ltb_lt in Eneg. split; [discriminate|].
      intros [H _]. specialize (H 1). simpl in H. lia.
    + apply Z.ltb_ge in Eneg. rewrite (IH _ Eneg). split.
      * intros [H1 H2]. split.
        -- intros [|n]; simpl; [lia|]. specialize (H1 n). lia.
        -- simpl. lia.
      * intros [H1 H2]. split.
        -- intros n. specialize (H1 (S n)). simpl in H1. lia.
        -- simpl in H2. lia.
Qed.

(** C6. [validate text] is [true] if and only if the braces of [text] are
    exactly balanced: the running depth counter (plus one on an opening
    brace, minus one on a closing brace) is never negative at any prefix of
    [text] and is zero at its end. *)
Theorem C6_validate_iff_balanced (text : str) :
  validate text = true <-> balanced text.
Proof.
  unfold validate, balanced.
  rewrite (validate_loop_spec text 0%Z) by lia.
  simpl. tauto.
Qed.

(** ** The scanner: searching and slicing *)

Lemma includes_cons (c x : ascii) (s : str) :
  includes c (x :: s) = Ascii.eqb c x || includes c s.
Proof. reflexivity. Qed.

Lemma includes_app (c : ascii) (a b : str) :
  includes c (a ++ b) = includes c a || includes c b.
Proof. unfold includes. apply existsb_app. Qed.

Lemma indexOf_aux_some (c : ascii) (s : str) :
  forall i k, indexOf_aux c s i = Some k ->
  exists pre post, s = pre ++ c :: post /\ k = i + length pre /\
                   includes c pre = false.
Proof.
  induction s as [|x s IH]; intros i k H; simpl in H; [discriminate|].
  destruct (Ascii.eqb x c) eqn:E.
  - apply Ascii.eqb_eq in E. subst x. injection H as <-.
    exists [], s. simpl. repeat split. lia.
  - destruct (IH _ _ H) as (pre & post & -> & -> & Hpre).
    exists (x :: pre), post.
    split; [reflexivity|]. split; [simpl; lia|].
    rewrite includes_cons, Hpre, Ascii.eqb_sym, E. reflexivity.
Qed.

Lemma indexOf_aux_none (c : ascii) (s : str) :
  forall i, indexOf_aux c s i = None -> includes c s = false.
Proof.
  induction s as [|x s IH]; intros i H; simpl in H; [reflexivity|].
  destruct (Ascii.eqb x c) eqn:E; [discriminate|].
  rewrite includes_cons, (IH _ H), Ascii.eqb_sym, E. reflexivity.
Qed.

(** What [indexOf] finds, in terms of the text after the cursor. *)
Lemma indexOf_split (c : ascii) (text : str) (i ob : nat) :
  indexOf c text i = Some ob ->
  exists pre post,
    skipn i text = pre ++ c :: post /\ ob = i + length pre /\
    includes c pre = false /\ ob < length text /\
    slice text i ob = pre /\ skipn (ob + 1) text = post /\
    slice text ob (ob + 1) = [c] /\ nth_error text ob = Some c.
Proof.
  unfold indexOf. intros H.
  destruct (indexOf_aux_some _ _ _ _ H) as (pre & post & Hs & -> & Hpre).
  exists pre, post.
  assert (Hlen : length (skipn i text) = length pre + S (length post)).
  { rewrite Hs, length_app. reflexivity. }
  rewrite length_skipn in Hlen.
  assert (Hskip : skipn (i + length pre) text = c :: post).
  { rewrite Nat.add_comm, <- skipn_skipn, Hs, skipn_app, skipn_all, Nat.sub_diag.
    reflexivity. }
  repeat split; try assumption; try lia.
  - unfold slice. replace (i + length pre - i) with (length pre) by lia.
    rewrite Hs, firstn_app, firstn_all, Nat.sub_diag. simpl.
    apply app_nil_r.
  - replace (i + length pre + 1) with (1 + (i + length pre)) by lia.
    rewrite <- skipn_skipn, Hskip. reflexivity.
  - unfold slice. rewrite Hskip.
    replace (i + length pre + 1 - (i + length pre)) with 1 by lia. reflexivity.
  - rewrite <- (firstn_skipn (i + length pre) text) at 1.
    rewrite nth_error_app2; rewrite length_firstn; [|lia].
    replace (i + length pre - Nat.min (i + length pre) (length text)) with 0 by lia.
    rewrite Hskip. reflexivity.
Qed.

Lemma indexOf_none (c : ascii) (text : str) (i : nat) :
  indexOf c text i = None -> includes c (skipn i text) = false.
Proof. apply indexOf_aux_none. Qed.

Lemma delta_lbrace : delta lbrace = 1%Z.
Proof. reflexivity. Qed.

Lemma delta_rbrace : delta rbrace = (-1)%Z.
Proof. reflexivity. Qed.

Lemma delta_range (ch : ascii) : (-1 <= delta ch <= 1)%Z.
Proof.
  unfold delta. destruct (Ascii.eqb ch lbrace), (Ascii.eqb ch rbrace); lia.
Qed.

Lemma delta_neg (ch : ascii) : (delta ch < 0)%Z -> ch = rbrace.
Proof.
  unfold delta. destruct (Ascii.eqb ch lbrace); [lia|].
  destruct (Ascii.eqb ch rbrace) eqn:E; [|lia].
  intros _. now apply Ascii.eqb_eq.
Qed.

Lemma delta_pos (ch : ascii) : (0 < delta ch)%Z -> ch = lbrace.
Proof.
  unfold delta. destruct (Ascii.eqb ch lbrace) eqn:E.
  - intros _. now apply Ascii.eqb_eq.
  - destruct (Ascii.eqb ch rbrace); lia.
Qed.

Lemma scanClose_step (ch : ascii) (rest : str) (cb : nat) (d : Z) :
  scanClose (ch :: rest) cb d =
  if (0 <? d)%Z then scanClose rest (S cb) (d + delta ch) else (cb, d).
Proof. simpl. rewrite two_step_delta. reflexivity. Qed.

Lemma scanClose_zero (rest : str) (cb : nat) : scanClose rest cb 0%Z = (cb, 0%Z).
Proof. destruct rest; reflexivity. Qed.

(** The inner scan runs to the end of the string with a positive depth
    exactly when the brace has no match. *)
Lemma scanClose_open (rest : str) :
  forall cb d, stays_open rest d = true ->
  scanClose rest cb d = (cb + length rest, (d + depth_of rest)%Z) /\
  (0 < d + depth_of rest)%Z.
Proof.
  induction rest as [|ch rest IH]; intros cb d H; simpl in H;
    apply andb_prop in H; destruct H as [Hd H]; apply Z.ltb_lt in Hd.
  - simpl. rewrite Nat.add_0_r, Z.add_0_r. auto.
  - rewrite scanClose_step.
    destruct (0 <? d)%Z eqn:E; [|apply Z.ltb_ge in E; lia].
    destruct (IH (S cb) _ H) as [-> Hpos]. simpl.
    split; [f_equal; lia | lia].
Qed.

(** Otherwise it stops on the matching closing brace, and the content in
    between is balanced. *)
Lemma scanClose_closed (rest : str) :
  forall cb d, (0 < d)%Z -> stays_open rest d = false ->
  exists content post,
    rest = content ++ rbrace :: post /\
    scanClose rest cb d = (cb + length content + 1, 0%Z) /\
    validate_loop content (d - 1) = true.
Proof.
  induction rest as [|ch rest IH]; intros cb d Hd H; simpl in H.
  - apply Z.ltb_lt in Hd. rewrite Hd in H. discriminate.
  - pose proof Hd as Hd'. apply Z.ltb_lt in Hd'. rewrite Hd' in H. simpl in H.
    rewrite scanClose_step, Hd'.
    destruct (Z_lt_le_dec 0 (d + delta ch)) as [Hpos | Hneg].
    + destruct (IH (S cb) _ Hpos H) as (content & post & -> & Hscan & Hval).
      exists (ch :: content), post. repeat split.
      * rewrite Hscan. simpl. f_equal. lia.
      * rewrite validate_loop_step.
        destruct (d - 1 + delta ch <? 0)%Z eqn:E; [apply Z.ltb_lt in E; lia|].
        replace (d - 1 + delta ch)%Z with (d + delta ch - 1)%Z by lia.
        exact Hval.
    + pose proof (delta_range ch) as Hr.
      assert (Hch : ch = rbrace) by (apply delta_neg; lia).
      assert (Hd1 : d = 1%Z) by lia.
      subst ch d. exists [], rest. repeat split.
      rewrite delta_rbrace. simpl. rewrite scanClose_zero. f_equal. lia.
Qed.

Lemma firstn_slice_length (text : str) (a b : nat) :
  length (slice text a b) <= b - a.
Proof. unfold slice. rewrite length_firstn. lia. Qed.

(** ** The scanner: one iteration *)

Lemma parse_iter_view (text : str) (segments : segments_t) (i : nat) :
  iter_view text segments i (parse_iter text segments i).
Proof.
  unfold parse_iter.
  destruct (indexOf lbrace text i) as [ob|] eqn:Eidx.
  2:{ apply view_tail. now apply indexOf_none. }
  destruct (indexOf_split _ _ _ _ Eidx)
    as (pre & post & Hs & Hob & Hpre & Hlt & Hslice & Hpost & Hone & _).
  assert (Hlit : (if i <? ob then segments ++ [[slice text i ob]] else segments)
                 = with_literal segments pre).
  { rewrite Hslice. destruct pre as [|c pre]; simpl in Hob.
    - replace ob with i by lia. rewrite Nat.ltb_irrefl. reflexivity.
    - destruct (i <? ob) eqn:E; [reflexivity|]. apply Nat.ltb_ge in E. lia. }
  rewrite Hlit, Hpost, Hone.
  destruct (stays_open post 1%Z) eqn:Eopen.
  - destruct (scanClose_open post (ob + 1) 1%Z Eopen) as [-> Hpos].
    destruct (1 + depth_of post =? 0)%Z eqn:E0; [apply Z.eqb_eq in E0; lia|].
    simpl. subst ob. now apply view_unmatched with (post := post).
  - destruct (scanClose_closed post (ob + 1) 1%Z ltac:(lia) Eopen)
      as (content & post' & -> & -> & Hval).
    simpl.
    replace (slice text (ob + 1) (ob + 1 + length content + 1 - 1)) with content.
    + replace (ob + 1 + length content + 1 - 1 + 1)
        with (i + length pre + length content + 2) by lia.
      now apply view_group with (post := post').
    + unfold slice. rewrite Hpost.
      replace (ob + 1 + length content + 1 - 1 - (ob + 1)) with (length content)
        by lia.
      rewrite firstn_app, firstn_all, Nat.sub_diag. simpl.
      now rewrite app_nil_r.
Qed.

(** Every iteration that does not leave the loop moves the cursor forward,
    and never past the end of the text. *)
Lemma parse_iter_progress (text : str) (segments : segments_t) (i : nat) :
  match parse_iter text segments i with
  | Continue _ i' => i < i' <= length text
  | Break _ => True
  end.
Proof.
  destruct (parse_iter_view text segments i) as [H | pre post Hs _ _ | pre content post Hs _ _];
    [exact I | |];
    apply (f_equal (@length ascii)) in Hs;
    rewrite length_skipn in Hs; repeat (rewrite length_app in Hs; simpl in Hs); lia.
Qed.

(** ** The scanner: the whole loop *)

Lemma parse_loop_run (text : str) :
  forall fuel segments i, length text - i <= fuel ->
  exists n out, parse_run text n segments i out /\ n <= length text - i /\
                parse_loop fuel text segments i = Some out.
Proof.
  induction fuel as [|fuel IH]; intros segments i Hfuel.
  - exists 0, segments. simpl.
    destruct (i <? length text) eqn:E; [apply Nat.ltb_lt in E; lia|].
    repeat split; [constructor|]; lia.
  - simpl. destruct (i <? length text) eqn:E.
    + apply Nat.ltb_lt in E.
      pose proof (parse_iter_progress text segments i) as Hp.
      destruct (parse_iter text segments i) as [segments' i'|segments'] eqn:Eit.
      * destruct (IH segments' i' ltac:(lia)) as (n & out & Hrun & Hn & Hloop).
        exists (S n), out. repeat split; [|lia|exact Hloop].
        eapply run_continue; eauto.
      * exists 1, segments'. repeat split; [|lia].
        now apply run_break.
    + apply Nat.ltb_ge in E. exists 0, segments.
      repeat split; [now constructor | lia].
Qed.

(** [length text] units of fuel suffice: the default of [parseSpintax] is
    dead code. *)
Lemma parseSpintax_loop (text : str) :
  parse_loop (length text) text [] 0 = Some (parseSpintax text).
Proof.
  unfold parseSpintax.
  destruct (parse_loop_run text (length text) [] 0 ltac:(lia))
    as (n & out & _ & _ & ->).
  reflexivity.
Qed.

Lemma parseSpintax_run (text : str) :
  exists n, n <= length text /\ parse_run text n [] 0 (parseSpintax text).
Proof.
  destruct (parse_loop_run text (length text) [] 0 ltac:(lia))
    as (n & out & Hrun & Hn & Hloop).
  rewrite parseSpintax_loop in Hloop. injection Hloop as <-.
  exists n. split; [lia | exact Hrun].
Qed.

(** C10. [parseSpintax] terminates on every input: an iteration of its
    scanning loop either leaves the loop or moves the cursor strictly
    forward, staying within the text (by the literal prefix plus the matched
    group, or by the literal prefix plus the one character of an unmatched
    opening brace, as [iter_view] spells out), and the loop started on
    [text] ends with the result of [parseSpintax] after at most
    [length text] iterations. *)
Theorem C10_parseSpintax_terminates (text : str) :
  (forall segments i,
     iter_view text segments i (parse_iter text segments i) /\
     match parse_iter text segments i with
     | Continue _ i' => i < i' <= length text
     | Break _ => True
     end) /\
  (exists n, n <= length text /\ parse_run text n [] 0 (parseSpintax text)) /\
  parse_loop (length text) text [] 0 = Some (parseSpintax text).
Proof.
  split; [|split].
  - intros. split; [apply parse_iter_view | apply parse_iter_progress].
  - apply parseSpintax_run.
  - apply parseSpintax_loop.
Qed.

Lemma with_literal_app (segments : segments_t) (pre : str) :
  exists lits, with_literal segments pre = segments ++ lits /\
               (lits = [] \/ lits = [[pre]]) .
Proof.
  destruct pre as [|c pre]; simpl.
  - exists []. rewrite app_nil_r. auto.
  - exists [[c :: pre]]. auto.
Qed.

(** The loop only ever pushes segments. *)
Lemma parse_run_grows (text : str) (n : nat) (segments : segments_t) (i : nat)
    (out : segments_t) :
  parse_run text n segments i out -> exists added, out = segments ++ added.
Proof.
  induction 1 as [segments i _ | segments i segments' _ Hit
                 | segments i segments' i' n out _ Hit _ IH].
  - exists []. now rewrite app_nil_r.
  - pose proof (parse_iter_view text segments i) as V. rewrite Hit in V.
    inversion V; subst. eauto.
  - destruct IH as [added ->].
    pose proof (parse_iter_view text segments i) as V. rewrite Hit in V.
    inversion V as [| pre post _ _ _ Heq | pre content post _ _ _ Heq]; subst;
      destruct (with_literal_app segments pre) as (lits & -> & _);
      rewrite <- !app_assoc; eauto.
Qed.

(** From every state it passes through, the loop goes on to the result of
    [parseSpintax]. *)
Lemma reached_run (text : str) (segments : segments_t) (i : nat) :
  reached text segments i ->
  exists n, parse_run text n segments i (parseSpintax text).
Proof.
  induction 1 as [| segments i segments' i' _ IH Hlt Hit].
  - destruct (parseSpintax_run text) as (n & _ & Hrun). eauto.
  - destruct IH as [n Hrun].
    inversion Hrun as [? ? Hge | ? ? ? _ Hbr | ? ? s1 i1 m ? _ Hco Hrest]; subst.
    + lia.
    + congruence.
    + rewrite Hit in Hco. injection Hco as <- <-. eauto.
Qed.

Lemma reached_segments_in (text : str) (segments : segments_t) (i : nat) :
  reached text segments i -> incl segments (parseSpintax text).
Proof.
  intros H. destruct (reached_run _ _ _ H) as [n Hrun].
  destruct (parse_run_grows _ _ _ _ _ Hrun) as [added ->].
  apply incl_appl, incl_refl.
Qed.

(** ** Unmatched opening braces *)

Lemma depth_of_cons (ch : ascii) (text : str) :
  depth_of (ch :: text) = (delta ch + depth_of text)%Z.
Proof. reflexivity. Qed.

Lemma depth_of_nil : depth_of [] = 0%Z.
Proof. reflexivity. Qed.

Lemma stays_open_pos (rest : str) (d : Z) :
  stays_open rest d = true -> (0 < d)%Z.
Proof.
  destruct rest; simpl; intros H; apply andb_prop in H; destruct H as [H _];
    now apply Z.ltb_lt.
Qed.

Lemma stays_open_app (a b : str) :
  forall d, stays_open (a ++ b) d = true -> (0 < d + depth_of a)%Z.
Proof.
  induction a as [|ch a IH]; intros d H.
  - apply stays_open_pos in H. simpl. lia.
  - simpl in H. apply andb_prop in H. destruct H as [_ H].
    specialize (IH _ H). simpl. lia.
Qed.

(** A brace inside balanced text has its match inside that text. *)
Lemma balanced_inner_closed (a b rest : str) :
  validate (a ++ lbrace :: b) = true ->
  stays_open (b ++ rest) 1%Z = false.
Proof.
  intros Hval. apply (validate_loop_spec _ 0%Z ltac:(lia)) in Hval.
  destruct Hval as [Hpre Htot].
  destruct (stays_open (b ++ rest) 1%Z) eqn:E; [|reflexivity].
  apply stays_open_app in E.
  specialize (Hpre (length a)).
  rewrite firstn_app, firstn_all, Nat.sub_diag in Hpre. simpl in Hpre.
  rewrite app_nil_r in Hpre.
  rewrite depth_of_app, depth_of_cons, delta_lbrace in Htot.
  lia.
Qed.

Lemma balanced_group_closed (content post : str) :
  validate content = true ->
  stays_open (content ++ rbrace :: post) 1%Z = false.
Proof.
  intros Hval. apply (validate_loop_spec _ 0%Z ltac:(lia)) in Hval.
  destruct Hval as [_ Htot].
  destruct (stays_open (content ++ rbrace :: post) 1%Z) eqn:E; [|reflexivity].
  replace (content ++ rbrace :: post) with ((content ++ [rbrace]) ++ post) in E
    by (rewrite <- app_assoc; reflexivity).
  apply stays_open_app in E.
  rewrite depth_of_app, depth_of_cons, depth_of_nil, delta_rbrace in E. lia.
Qed.

Lemma includes_nth_error (c : ascii) (s : str) (q : nat) :
  nth_error s q = Some c -> includes c s = true.
Proof.
  intros H. apply nth_error_In in H. unfold includes.
  apply existsb_exists. exists c. split; [exact H | apply Ascii.eqb_refl].
Qed.

(** Where an unmatched opening brace at offset [q] can lie with respect to
    the first opening brace of [s]. *)
Lemma open_after_unmatched (s pre post : str) (q : nat) :
  s = pre ++ lbrace :: post ->
  includes lbrace pre = false ->
  nth_error s q = Some lbrace ->
  q = length pre \/ length pre + 1 <= q.
Proof.
  intros -> Hpre Hq.
  destruct (Nat.lt_ge_cases q (length pre)) as [Hlt | Hge]; [|lia].
  rewrite nth_error_app1 in Hq by exact Hlt.
  apply includes_nth_error in Hq. congruence.
Qed.

Lemma open_after_group (s pre content post : str) (q : nat) :
  s = pre ++ lbrace :: content ++ rbrace :: post ->
  includes lbrace pre = false ->
  validate content = true ->
  nth_error s q = Some lbrace ->
  stays_open (skipn (S q) s) 1%Z = true ->
  length pre + length content + 2 <= q.
Proof.
  intros -> Hpre Hval Hq Hopen.
  destruct (open_after_unmatched _ _ _ _ eq_refl Hpre Hq) as [-> | Hge].
  - exfalso.
    replace (S (length pre)) with (length (pre ++ [lbrace])) in Hopen
      by (rewrite length_app; simpl; lia).
    replace (pre ++ lbrace :: content ++ rbrace :: post)
      with ((pre ++ [lbrace]) ++ content ++ rbrace :: post) in Hopen
      by (rewrite <- app_assoc; reflexivity).
    rewrite skipn_app, skipn_all, Nat.sub_diag in Hopen. simpl in Hopen.
    rewrite balanced_group_closed in Hopen by exact Hval. discriminate.
  - destruct (Nat.lt_ge_cases q (length pre + length content + 2)) as [Hlt | ?];
      [exfalso | assumption].
    set (j := q - (length pre + 1)).
    assert (Hsplit : pre ++ lbrace :: content ++ rbrace :: post
                     = (pre ++ [lbrace]) ++ content ++ rbrace :: post)
      by (rewrite <- app_assoc; reflexivity).
    rewrite Hsplit in Hq, Hopen.
    assert (Hl : length (pre ++ [lbrace]) = length pre + 1)
      by (rewrite length_app; reflexivity).
    rewrite nth_error_app2 in Hq by lia.
    rewrite Hl in Hq. fold j in Hq.
    destruct (Nat.eq_dec j (length content)) as [Hj | Hj].
    + rewrite nth_error_app2 in Hq by lia.
      rewrite Hj, Nat.sub_diag in Hq. simpl in Hq. discriminate.
    + assert (Hjlt : j < length content) by (subst j; lia).
      rewrite nth_error_app1 in Hq by exact Hjlt.
      apply nth_error_split in Hq. destruct Hq as (a & b & Hc & Ha).
      rewrite skipn_app, Hl in Hopen.
      rewrite (skipn_all2 (pre ++ [lbrace])) in Hopen by lia.
      replace (S q - (length pre + 1)) with (S j) in Hopen by (subst j; lia).
      rewrite app_nil_l in Hopen.
      rewrite Hc in Hopen, Hval.
      replace ((a ++ lbrace :: b) ++ rbrace :: post)
        with ((a ++ [lbrace]) ++ b ++ rbrace :: post) in Hopen
        by (rewrite <- !app_assoc; reflexivity).
      replace (S j) with (length (a ++ [lbrace])) in Hopen
        by (rewrite length_app; simpl; lia).
      rewrite skipn_app, skipn_all, Nat.sub_diag in Hopen. simpl in Hopen.
      rewrite (balanced_inner_closed a b (rbrace :: post) Hval) in Hopen.
      discriminate.
Qed.

Lemma unmatched_open_inv (text : str) (p : nat) :
  unmatched_open text p = true ->
  nth_error text p = Some lbrace /\ stays_open (skipn (S p) text) 1%Z = true /\
  p < length text.
Proof.
  unfold unmatched_open. intros H.
  destruct (nth_error text p) as [ch|] eqn:E; [|discriminate].
  apply andb_prop in H. destruct H as [Hch Hopen].
  apply Ascii.eqb_eq in Hch. subst ch.
  repeat split; [assumption|]. apply nth_error_Some. congruence.
Qed.

(** The loop arrives at every unmatched opening brace: some iteration finds
    it with [indexOf] and takes the malformed-brace branch. *)
Lemma unmatched_open_reached (text : str) (p : nat) :
  unmatched_open text p = true ->
  forall k segments i,
    reached text segments i -> i <= p -> p - i < k ->
    exists segments0 i0,
      reached text segments0 i0 /\ i0 <= p /\
      includes lbrace (slice text i0 p) = false /\
      parse_iter text segments0 i0 =
      Continue (with_literal segments0 (slice text i0 p) ++ [[[lbrace]]]) (p + 1).
Proof.
  intros Hun. destruct (unmatched_open_inv _ _ Hun) as (Hp & Hopen & Hlen).
  induction k as [|k IH]; intros segments i Hreach Hip Hk; [lia|].
  assert (Hq : nth_error (skipn i text) (p - i) = Some lbrace).
  { rewrite nth_error_skipn. replace (i + (p - i)) with p by lia. exact Hp. }
  assert (Hopen' : stays_open (skipn (S (p - i)) (skipn i text)) 1%Z = true).
  { rewrite skipn_skipn. replace (S (p - i) + i) with (S p) by lia. exact Hopen. }
  pose proof (parse_iter_view text segments i) as V.
  inversion V as [Htail | pre post Hs Hpre Hpost Heq
                 | pre content post Hs Hpre Hval Heq].
  - apply includes_nth_error in Hq. congruence.
  - destruct (open_after_unmatched _ _ _ _ Hs Hpre Hq) as [Hat | Hafter].
    + exists segments, i.
      assert (Hslice : slice text i p = pre).
      { unfold slice. rewrite Hs, Hat, firstn_app, firstn_all, Nat.sub_diag.
        simpl. apply app_nil_r. }
      rewrite Hslice. repeat split; try assumption.
      rewrite <- Heq. f_equal. lia.
    + apply (IH (with_literal segments pre ++ [[[lbrace]]]) (i + length pre + 1));
        [|lia|lia].
      apply reached_step with (segments := segments) (i := i);
        [assumption | lia | now symmetry].
  - pose proof (open_after_group _ _ _ _ _ Hs Hpre Hval Hq Hopen') as Hafter.
    apply (IH (with_literal segments pre ++ [splitOptions content])
              (i + length pre + length content + 2)); [|lia|lia].
    apply reached_step with (segments := segments) (i := i);
      [assumption | lia | now symmetry].
Qed.

Lemma unmatched_open_iteration (text : str) (p : nat) :
  unmatched_open text p = true ->
  exists segments i,
    reached text segments i /\ i <= p /\
    includes lbrace (slice text i p) = false /\
    parse_iter text segments i =
    Continue (with_literal segments (slice text i p) ++ [[[lbrace]]]) (p + 1) /\
    (exists n,
       parse_run text n
         (with_literal segments (slice text i p) ++ [[[lbrace]]]) (p + 1)
         (parseSpintax text)) /\
    In [[lbrace]] (parseSpintax text).
Proof.
  intros Hun.
  destruct (unmatched_open_inv _ _ Hun) as (_ & _ & Hlen).
  destruct (unmatched_open_reached text p Hun (S p) [] 0 (reached_start text)
              ltac:(lia) ltac:(lia))
    as (segments & i & Hreach & Hip & Hpre & Hit).
  exists segments, i. repeat split; try assumption.
  - apply reached_run.
    apply reached_step with (segments := segments) (i := i); [assumption|lia|assumption].
  - apply (reached_segments_in text
             (with_literal segments (slice text i p) ++ [[[lbrace]]]) (p + 1)).
    + apply reached_step with (segments := segments) (i := i);
        [assumption|lia|assumption].
    + apply in_or_app. right. left. reflexivity.
Qed.

(** An unmatched opening brace leaves the one-character segment in the
    parse. *)
Lemma unmatched_open_segment (text : str) (p : nat) :
  unmatched_open text p = true -> In [[lbrace]] (parseSpintax text).
Proof.
  intros Hun.
  destruct (unmatched_open_iteration text p Hun) as (? & ? & _ & _ & _ & _ & _ & H).
  exact H.
Qed.

(** C8. Whenever position [p] of [text] holds an opening brace with no
    matching closing brace before the end of the string, the scanning loop
    of [parseSpintax] reaches an iteration, at some cursor [i <= p] with no
    other opening brace in between, that pushes the brace as the
    one-character literal segment (after the literal text before it, if
    any), sets the cursor to [p + 1], exactly one position past the brace,
    and goes on from that state to the result of [parseSpintax], which
    therefore contains that segment.  No step can fail: the loop returns
    for every input. *)
Theorem C8_unmatched_brace_is_literal (text : str) (p : nat) :
  unmatched_open text p = true ->
  parse_loop (length text) text [] 0 = Some (parseSpintax text) /\
  exists segments i,
    reached text segments i /\ i <= p /\
    includes lbrace (slice text i p) = false /\
    parse_iter text segments i =
    Continue (with_literal segments (slice text i p) ++ [[[lbrace]]]) (p + 1) /\
    (exists n,
       parse_run text n
         (with_literal segments (slice text i p) ++ [[[lbrace]]]) (p + 1)
         (parseSpintax text)) /\
    In [[lbrace]] (parseSpintax text).
Proof.
  intros Hun. split; [apply parseSpintax_loop|].
  now apply unmatched_open_iteration.
Qed.

Lemma C8_witness :
  unmatched_open (lit "a{b{c}") 1 = true /\
  parse_loop 6 (lit "a{b{c}") [] 0 = Some (parseSpintax (lit "a{b{c}")) /\
  exists segments i,
    reached (lit "a{b{c}") segments i /\ i <= 1 /\
    includes lbrace (slice (lit "a{b{c}") i 1) = false /\
    parse_iter (lit "a{b{c}") segments i =
    Continue (with_literal segments (slice (lit "a{b{c}") i 1) ++ [[[lbrace]]])
             (1 + 1) /\
    (exists n,
       parse_run (lit "a{b{c}") n
         (with_literal segments (slice (lit "a{b{c}") i 1) ++ [[[lbrace]]])
         (1 + 1) (parseSpintax (lit "a{b{c}"))) /\
    In [[lbrace]] (parseSpintax (lit "a{b{c}")).
Proof.
  split; [reflexivity|].
  apply (C8_unmatched_brace_is_literal (lit "a{b{c}") 1). reflexivity.
Defined.

(** ** Splitting a balanced group *)

Lemma splitOptions_loop_valid (n : nat) (content : str) :
  forall options current depth,
    (forall rest, validate_loop (current ++ rest) 0%Z = validate_loop rest depth) ->
    (0 <= depth)%Z ->
    validate_loop content depth = true ->
    Forall (fun o => validate o = true /\ length o <= n) options ->
    length current + length content <= n ->
    let '(options', current') := splitOptions_loop content options current depth in
    Forall (fun o => validate o = true /\ length o <= n) options' /\
    validate current' = true /\ length current' <= n.
Proof.
  induction content as [|ch content IH]; intros options current depth J Hd Hv Ho Hl.
  - simpl. repeat split; [assumption | | simpl in Hl; lia].
    unfold validate. rewrite <- (app_nil_r current), J. exact Hv.
  - rewrite validate_loop_step in Hv.
    destruct (depth + delta ch <? 0)%Z eqn:Eneg; [discriminate|].
    apply Z.ltb_ge in Eneg.
    assert (J' : forall rest, validate_loop ((current ++ [ch]) ++ rest) 0%Z
                              = validate_loop rest (depth + delta ch)).
    { intros rest. rewrite <- app_assoc. simpl. rewrite J, validate_loop_step.
      destruct (depth + delta ch <? 0)%Z eqn:E; [apply Z.ltb_lt in E; lia|].
      reflexivity. }
    assert (Hl' : length (current ++ [ch]) + length content <= n).
    { rewrite length_app. simpl in *. lia. }
    simpl. unfold delta in Hv, Eneg, J'.
    destruct (Ascii.eqb ch lbrace) eqn:El.
    { apply IH; try assumption. }
    destruct (Ascii.eqb ch rbrace) eqn:Er.
    { replace (depth - 1)%Z with (depth + -1)%Z by lia.
      apply IH; try assumption. }
    rewrite Z.add_0_r in Hv, J'.
    destruct (Ascii.eqb ch pipe && (depth =? 0)%Z) eqn:Ep.
    + apply andb_prop in Ep. destruct Ep as [_ E0]. apply Z.eqb_eq in E0.
      subst depth. apply IH; try assumption.
      * intros rest. reflexivity.
      * apply Forall_app. split; [assumption|]. constructor; [|constructor].
        split; [|simpl in Hl; lia].
        unfold validate. rewrite <- (app_nil_r current), J. reflexivity.
      * simpl in *. lia.
    + apply IH; try assumption.
Qed.

(** The options of a balanced group are balanced and no longer than the
    group's content. *)
Lemma splitOptions_valid (content : str) :
  validate content = true ->
  Forall (fun o => validate o = true /\ length o <= length content)
         (splitOptions content).
Proof.
  intros Hv. unfold splitOptions.
  pose proof (splitOptions_loop_valid (length content) content [] [] 0%Z
                (fun rest => eq_refl) ltac:(lia) Hv (Forall_nil _) ltac:(simpl; lia))
    as H.
  destruct (splitOptions_loop content [] [] 0%Z) as [options current].
  destruct H as (Ho & Hc & Hl).
  destruct current as [|c current]; [assumption|].
  apply Forall_app. split; [assumption|]. constructor; [|constructor]. auto.
Qed.

(** ** What the parser hands to the consumers *)

Lemma all_matched_spec (text : str) :
  all_matched text = true <-> forall p, unmatched_open text p = false.
Proof.
  unfold all_matched. rewrite forallb_forall. split.
  - intros H p. destruct (Nat.lt_ge_cases p (length text)) as [Hlt | Hge].
    + specialize (H p). rewrite in_seq in H.
      apply negb_true_iff, H. lia.
    + unfold unmatched_open.
      apply nth_error_None in Hge. now rewrite Hge.
  - intros H p _. now rewrite H.
Qed.

(** Balanced text has no unmatched opening brace. *)
Lemma validate_all_matched (text : str) :
  validate text = true -> all_matched text = true.
Proof.
  intros Hv. apply all_matched_spec. intros p.
  destruct (unmatched_open text p) eqn:E; [|reflexivity].
  destruct (unmatched_open_inv _ _ E) as (Hp & Hopen & _).
  rewrite <- (firstn_skipn_middle _ _ Hp) in Hv.
  pose proof (balanced_inner_closed _ _ [] Hv) as Hc.
  rewrite app_nil_r in Hc. congruence.
Qed.

Lemma with_literal_good (bound : nat) (segments : segments_t) (pre : str) :
  includes lbrace pre = false ->
  good_segments bound segments ->
  good_segments bound (with_literal segments pre).
Proof.
  intros Hpre Hg. destruct pre as [|c pre]; [assumption|].
  apply Forall_app. split; [assumption|].
  constructor; [|constructor]. constructor; [|constructor].
  intros H. congruence.
Qed.

Lemma parse_run_good (text : str) :
  all_matched text = true ->
  forall n segments i out,
    parse_run text n segments i out ->
    good_segments (length text) segments ->
    good_segments (length text) out.
Proof.
  intros Hall. rewrite all_matched_spec in Hall.
  induction 1 as [segments i _ | segments i segments' _ Hit
                 | segments i segments' i' n out _ Hit _ IH]; intros Hg.
  - assumption.
  - pose proof (parse_iter_view text segments i) as V. rewrite Hit in V.
    inversion V as [Htail | |]; subst.
    apply Forall_app. split; [assumption|].
    constructor; [|constructor]. constructor; [|constructor].
    intros H. congruence.
  - apply IH.
    pose proof (parse_iter_view text segments i) as V. rewrite Hit in V.
    inversion V as [| pre post Hs Hpre Hopen Heq
                   | pre content post Hs Hpre Hval Heq]; subst.
    + exfalso.
      assert (Hun : unmatched_open text (i + length pre) = true).
      { assert (Hnth : nth_error text (i + length pre) = Some lbrace).
        { rewrite <- nth_error_skipn, Hs, nth_error_app2, Nat.sub_diag by lia.
          reflexivity. }
        unfold unmatched_open. rewrite Hnth.
        change (Ascii.eqb lbrace lbrace) with true.
        rewrite andb_true_l.
        replace (S (i + length pre)) with (S (length pre) + i) by lia.
        rewrite <- skipn_skipn, Hs.
        replace (pre ++ lbrace :: post) with ((pre ++ [lbrace]) ++ post)
          by (rewrite <- app_assoc; reflexivity).
        replace (S (length pre)) with (length (pre ++ [lbrace]))
          by (rewrite length_app; simpl; lia).
        rewrite skipn_app, skipn_all, Nat.sub_diag. exact Hopen. }
      rewrite Hall in Hun. discriminate.
    + apply Forall_app. split; [now apply with_literal_good|].
      constructor; [|constructor].
      apply (f_equal (@length ascii)) in Hs.
      rewrite length_skipn in Hs.
      repeat (rewrite length_app in Hs; simpl in Hs).
      eapply Forall_impl; [|apply (splitOptions_valid content Hval)].
      intros o [Hv Hl] _. split; [assumption | lia].
Qed.

(** On a text without unmatched opening braces, every option that contains
    a brace is balanced and strictly shorter than the text. *)
Lemma parseSpintax_good (text : str) :
  all_matched text = true -> good_segments (length text) (parseSpintax text).
Proof.
  intros Hall. destruct (parseSpintax_run text) as (n & _ & Hrun).
  apply (parse_run_good text Hall _ _ _ _ Hrun). constructor.
Qed.

(** ** The expander: fuel *)

Lemma obind_returns {A B : Type} (m : outcome A) (k : A -> outcome B) (b : B) :
  obind m k = Returns b -> exists a, m = Returns a /\ k a = Returns b.
Proof. destruct m; simpl; intros H; try discriminate. eauto. Qed.

Lemma for_each_mono {A S : Type} (l : list A) (body1 body2 : S -> A -> outcome S) :
  (forall s x s', In x l -> body1 s x = Returns s' -> body2 s x = Returns s') ->
  forall s r, for_each l body1 s = Returns r -> for_each l body2 s = Returns r.
Proof.
  induction l as [|x l IH]; intros Hb s r H; simpl in *; [assumption|].
  apply obind_returns in H. destruct H as (s' & H1 & H2).
  rewrite (Hb _ _ _ (or_introl eq_refl) H1). simpl.
  apply IH; [|assumption]. intros. apply Hb; auto.
Qed.

Lemma processNested_mono (g1 g2 : segments_t -> outcome (list str)) (o : str)
    (l : list str) :
  (forall segs r, g1 segs = Returns r -> g2 segs = Returns r) ->
  processNestedSpintax_with g1 o = Returns l ->
  processNestedSpintax_with g2 o = Returns l.
Proof.
  unfold processNestedSpintax_with. intros Hg.
  destruct (negb (includes lbrace o)); [auto | apply Hg].
Qed.

(** More fuel does not change a result. *)
Lemma generateAllCombinations_mono :
  forall fuel segments l,
    generateAllCombinations fuel segments = Returns l ->
    forall fuel', fuel <= fuel' ->
    generateAllCombinations fuel' segments = Returns l.
Proof.
  induction fuel as [|fuel IH]; intros segments l H fuel' Hle; [discriminate|].
  destruct fuel' as [|fuel']; [lia|].
  assert (Hle' : fuel <= fuel') by lia.
  destruct segments as [|first rest]; [exact H|].
  simpl in *.
  apply obind_returns in H. destruct H as (restC & Hrest & Hfor).
  rewrite (IH _ _ Hrest _ Hle'). simpl.
  revert Hfor. apply for_each_mono.
  intros results o s' _ Hb. unfold expand_option in *.
  apply obind_returns in Hb. destruct Hb as (processed & Hp & Hr).
  rewrite (processNested_mono _ (generateAllCombinations fuel') _ _
             (fun segs r Hs => IH segs r Hs fuel' Hle') Hp).
  exact Hr.
Qed.

Lemma for_each_no_TypeError {A S : Type} (l : list A) (body : S -> A -> outcome S) :
  (forall s x, body s x <> TypeError) ->
  forall s, for_each l body s <> TypeError.
Proof.
  intros Hb. induction l as [|x l IH]; intros s; simpl; [discriminate|].
  specialize (Hb s x). destruct (body s x); simpl; [apply IH | congruence | discriminate].
Qed.

(** The expander has no failure of its own: it returns or runs out of
    fuel. *)
Lemma generateAllCombinations_no_TypeError :
  forall fuel segments, generateAllCombinations fuel segments <> TypeError.
Proof.
  induction fuel as [|fuel IH]; intros segments; simpl; [discriminate|].
  destruct segments as [|first rest]; [discriminate|].
  specialize (IH rest) as Hrest.
  destruct (generateAllCombinations fuel rest) as [restC| |]; simpl;
    [|congruence|discriminate].
  apply for_each_no_TypeError. intros results o.
  unfold expand_option, processNestedSpintax_with.
  destruct (negb (includes lbrace o)); simpl; [discriminate|].
  specialize (IH (parseSpintax o)).
  destruct (generateAllCombinations fuel (parseSpintax o)); simpl;
    [discriminate | congruence | discriminate].
Qed.

Lemma push_products_length (results processed restC : list str) :
  length (push_products results processed restC)
  = length results + length processed * length restC.
Proof.
  unfold push_products. rewrite length_app. f_equal.
  induction processed as [|p processed IH]; [reflexivity|].
  cbn [flat_map]. rewrite length_app, length_map, IH. reflexivity.
Qed.

(** The loop over the options of one segment returns as soon as every
    nested option can be expanded. *)
Lemma expand_option_mono (f f' : nat) (restC results : list str) (o : str)
    (l : list str) :
  f <= f' ->
  expand_option (generateAllCombinations f) restC results o = Returns l ->
  expand_option (generateAllCombinations f') restC results o = Returns l.
Proof.
  intros Hle Hb. unfold expand_option in *.
  apply obind_returns in Hb. destruct Hb as (processed & Hp & Hr).
  rewrite (processNested_mono (generateAllCombinations f) _ _ _
             (fun segs r Hs => generateAllCombinations_mono _ _ _ Hs _ Hle) Hp).
  exact Hr.
Qed.

Lemma expand_options_return (first : list str) :
  (forall o, In o first -> includes lbrace o = true ->
             exists f l, generateAllCombinations f (parseSpintax o) = Returns l) ->
  exists f, forall restC results, exists l,
    for_each first (expand_option (generateAllCombinations f) restC) results
    = Returns l.
Proof.
  induction first as [|o first IH]; intros Hopt.
  - exists 0. intros. simpl. eauto.
  - destruct IH as [f1 Hf1]; [intros; apply Hopt; simpl; auto|].
    assert (Ho : exists f2, forall restC results, exists l,
                 expand_option (generateAllCombinations f2) restC results o
                 = Returns l).
    { unfold expand_option, processNestedSpintax_with.
      destruct (includes lbrace o) eqn:E; simpl; [|exists 0; eauto].
      destruct (Hopt o (or_introl eq_refl) E) as (f2 & l & Hl).
      exists f2. intros. rewrite Hl. simpl. eauto. }
    destruct Ho as (f2 & Hf2).
    exists (Nat.max f1 f2). intros restC results. simpl.
    destruct (Hf2 restC results) as [lo Hlo].
    rewrite (expand_option_mono f2 _ _ _ _ _ (Nat.le_max_r f1 f2) Hlo). simpl.
    destruct (Hf1 restC lo) as [l Hl].
    exists l. revert Hl. apply for_each_mono.
    intros s x s' _. apply expand_option_mono, Nat.le_max_l.
Qed.

Lemma expand_segments_return (segments : segments_t) :
  (forall seg o, In seg segments -> In o seg -> includes lbrace o = true ->
                 exists f l, generateAllCombinations f (parseSpintax o) = Returns l) ->
  exists f l, generateAllCombinations f segments = Returns l.
Proof.
  induction segments as [|first rest IH]; intros Hopt.
  - exists 1, [[]]. reflexivity.
  - destruct IH as (fr & restC & Hrest); [intros; eapply Hopt; simpl; eauto|].
    destruct (expand_options_return first) as [ff Hff];
      [intros; eapply Hopt; simpl; eauto|].
    destruct (Hff restC []) as [l Hl].
    exists (S (Nat.max fr ff)), l. simpl.
    rewrite (generateAllCombinations_mono _ _ _ Hrest _ (Nat.le_max_l fr ff)).
    simpl. revert Hl. apply for_each_mono.
    intros s x s' _. apply expand_option_mono, Nat.le_max_r.
Qed.

(** The expansion of a balanced option returns. *)
Lemma expand_balanced :
  forall n o, length o < n -> validate o = true ->
  exists f l, generateAllCombinations f (parseSpintax o) = Returns l.
Proof.
  induction n as [|n IH]; intros o Hlen Hval; [lia|].
  apply expand_segments_return. intros seg o' Hseg Ho' Hinc.
  pose proof (parseSpintax_good o (validate_all_matched o Hval)) as Hg.
  unfold good_segments in Hg. rewrite Forall_forall in Hg.
  specialize (Hg seg Hseg). rewrite Forall_forall in Hg.
  destruct (Hg o' Ho' Hinc) as [Hv Hl].
  apply IH; [lia | assumption].
Qed.

(** The expander returns on the parse of every text without unmatched
    opening braces. *)
Lemma expand_all_matched (text : str) :
  all_matched text = true ->
  exists f l, generateAllCombinations f (parseSpintax text) = Returns l.
Proof.
  intros Hall. apply expand_segments_return. intros seg o Hseg Ho Hinc.
  pose proof (parseSpintax_good text Hall) as Hg.
  unfold good_segments in Hg. rewrite Forall_forall in Hg.
  specialize (Hg seg Hseg). rewrite Forall_forall in Hg.
  destruct (Hg o Ho Hinc) as [Hv Hl].
  apply (expand_balanced (S (length o))); [lia | assumption].
Qed.

(** ** Numbers: lemmas *)

(** Integers up to [2^53] are doubles. *)
Lemma round_safe (n : N) : (n <= 2 ^ 53)%N -> round n = Fin n.
Proof.
  intros Hn. apply N.lt_eq_cases in Hn. destruct Hn as [Hn | ->].
  2: { vm_compute. reflexivity. }
  assert (Hlog : (N.log2 n <= 52)%N).
  { destruct (N.eq_dec n 0) as [-> | Hz]; [discriminate|].
    apply N.lt_succ_r. apply N.log2_lt_pow2; [lia|]. exact Hn. }
  assert (He : (N.log2 n - 52 = 0)%N) by now apply N.sub_0_le.
  unfold round. rewrite He.
  change (0 - 1)%N with 0%N. change (N.ones 0) with 0%N.
  rewrite N.shiftr_0_r, N.land_0_r, !N.shiftl_0_r.
  change ((1 <? 0)%N || (0 =? 1)%N && N.odd n) with false. cbv iota.
  assert (Hlt : (N.log2 n < 1024)%N) by lia.
  apply N.leb_gt in Hlt. rewrite Hlt. reflexivity.
Qed.

(** [round] on both sides of a tie, and at the largest double. *)
Example round_ex :
  round (2 ^ 53 + 1) = Fin (2 ^ 53) /\
  round (2 ^ 53 + 3) = Fin (2 ^ 53 + 4) /\
  round (2 ^ 54 + 5) = Fin (2 ^ 54 + 4) /\
  round (2 ^ 54 + 6) = Fin (2 ^ 54 + 8) /\
  round (2 ^ 1024 - 2 ^ 970 - 1) = Fin (2 ^ 1024 - 2 ^ 971) /\
  round (2 ^ 1024 - 2 ^ 970) = Infinity.
Proof. repeat (apply conj); vm_compute; reflexivity. Qed.

Lemma safe_integer_le (m n : nat) :
  m <= n -> safe_integer n = true -> safe_integer m = true.
Proof.
  unfold safe_integer. intros Hle H. apply N.leb_le in H. apply N.leb_le.
  eapply N.le_trans; [|exact H]. lia.
Qed.

Lemma nadd_safe (a b : nat) :
  safe_integer (a + b) = true ->
  nadd (Fin (N.of_nat a)) (Fin (N.of_nat b)) = Fin (N.of_nat (a + b)).
Proof.
  unfold safe_integer. intros H. apply N.leb_le in H.
  rewrite Nat2N.inj_add in *. unfold nadd. now apply round_safe.
Qed.

Lemma nmul_Fin (x y : N) : nmul (Fin x) (Fin y) = round (x * y).
Proof. destruct x, y; reflexivity. Qed.

Lemma nmul_safe (a b : nat) :
  safe_integer (a * b) = true ->
  nmul (Fin (N.of_nat a)) (Fin (N.of_nat b)) = Fin (N.of_nat (a * b)).
Proof.
  unfold safe_integer. intros H. apply N.leb_le in H.
  rewrite Nat2N.inj_mul in *. rewrite nmul_Fin. now apply round_safe.
Qed.

(** A product with a factor 0 is 0, or [NaN] when the other factor is not
    finite, and stays so under further products. *)
Lemma nmul_zero_r (x : number) : nmul x (Fin 0) = Fin 0 \/ nmul x (Fin 0) = NaN.
Proof.
  destruct x as [n| |]; [left|right|right]; try reflexivity.
  rewrite nmul_Fin, N.mul_0_r. reflexivity.
Qed.

Lemma nmul_zero_l (x y : number) :
  x = Fin 0 \/ x = NaN -> nmul x y = Fin 0 \/ nmul x y = NaN.
Proof.
  intros [-> | ->]; [|right; reflexivity].
  destruct y as [n| |]; [left|right|right]; reflexivity.
Qed.

(** The sums and products of [number] are those of the doubles.  The last
    double below [2^53] times 3 is rounded; [2^53 + 1] is not a double;
    the largest power of two doubles to [Infinity], which times 0 is
    [NaN]. *)
Example number_agrees_with_double :
  double_of (nmul (Fin 9007199254740991) (Fin 3))
  = SFmul 53 1024 (double_of (Fin 9007199254740991)) (double_of (Fin 3)) /\
  double_of (nadd (Fin 9007199254740992) (Fin 1))
  = SFadd 53 1024 (double_of (Fin 9007199254740992)) (double_of (Fin 1)) /\
  double_of (nadd (Fin 9007199254740992) (Fin 3))
  = SFadd 53 1024 (double_of (Fin 9007199254740992)) (double_of (Fin 3)) /\
  double_of (nmul (Fin 5559060566555523) (Fin 3))
  = SFmul 53 1024 (double_of (Fin 5559060566555523)) (double_of (Fin 3)) /\
  double_of (nmul (Fin (2 ^ 1023)) (Fin 2))
  = SFmul 53 1024 (double_of (Fin (2 ^ 1023))) (double_of (Fin 2)) /\
  double_of (nadd (Fin (2 ^ 1023)) (Fin (2 ^ 1023)))
  = SFadd 53 1024 (double_of (Fin (2 ^ 1023))) (double_of (Fin (2 ^ 1023))) /\
  double_of (nmul Infinity (Fin 0))
  = SFmul 53 1024 (double_of Infinity) (double_of (Fin 0)) /\
  double_of (nmul Infinity (Fin 2))
  = SFmul 53 1024 (double_of Infinity) (double_of (Fin 2)) /\
  double_of (nadd Infinity (Fin 1))
  = SFadd 53 1024 (double_of Infinity) (double_of (Fin 1)).
Proof. repeat (apply conj); vm_compute; reflexivity. Qed.

(** Thirty-four segments of three alternatives: the product [3^34] is odd
    and above [2^53], and the counter returns the double next to it. *)
Example count_rounds :
  countCombinations 2 (repeat [lit "a"; lit "b"; lit "c"] 34)
  = Returns (Fin 16677181699666568) /\
  (3 ^ 34 = 16677181699666569)%N.
Proof. split; vm_compute; reflexivity. Qed.

(** 1024 segments of two alternatives followed by an empty segment: the
    running product reaches [2^1024], which is [Infinity], and the last
    factor 0 makes it [NaN]. *)
Example count_overflows :
  countCombinations 2 (repeat [lit "a"; lit "b"] 1024 ++ [[]]) = Returns NaN.
Proof. vm_compute; reflexivity. Qed.

(** ** The exact count against the expander *)

Lemma count_options_via (f g : nat) (restC : list str) (first : list str) :
  (forall segs l, generateAllCombinations g segs = Returns l ->
                  exactCombinations f segs = Returns (length l)) ->
  forall results acc l,
    for_each first (expand_option (generateAllCombinations g) restC) results
    = Returns l ->
    exists m,
      for_each first (exact_option (exactCombinations f)) acc = Returns (acc + m) /\
      length l = length results + m * length restC.
Proof.
  intros Hrec. induction first as [|o first IH]; intros results acc l H; simpl in H.
  - injection H as <-. exists 0. simpl. split; [f_equal|]; lia.
  - apply obind_returns in H. destruct H as (results' & Hopt & Hrest).
    unfold expand_option in Hopt.
    apply obind_returns in Hopt. destruct Hopt as (processed & Hp & Hpush).
    injection Hpush as <-.
    assert (Hstep : exact_option (exactCombinations f) acc o
                    = Returns (acc + length processed)).
    { unfold processNestedSpintax_with in Hp. unfold exact_option.
      destruct (includes lbrace o); simpl in Hp.
      - rewrite (Hrec _ _ Hp). reflexivity.
      - injection Hp as <-. reflexivity. }
    destruct (IH _ (acc + length processed) _ Hrest) as (m & Hm & Hlen).
    exists (length processed + m). simpl. rewrite Hstep. simpl.
    rewrite Hm. split; [f_equal; lia|].
    rewrite Hlen, push_products_length. lia.
Qed.

Lemma count_segments_via (f : nat) :
  (forall segs l, generateAllCombinations f segs = Returns l ->
                  exactCombinations f segs = Returns (length l)) ->
  forall segments g l total,
    g <= f ->
    generateAllCombinations (S g) segments = Returns l ->
    for_each segments (exact_segment (exactCombinations f)) total
    = Returns (total * length l).
Proof.
  intros Hrec. induction segments as [|first rest IH]; intros g l total Hg H.
  - injection H as <-. simpl. f_equal. lia.
  - simpl in H. apply obind_returns in H. destruct H as (restC & Hrest & Hfor).
    destruct g as [|g']; [discriminate|].
    assert (Hrec' : forall segs r,
               generateAllCombinations (S g') segs = Returns r ->
               exactCombinations f segs = Returns (length r)).
    { intros segs r Hr. apply Hrec.
      apply (generateAllCombinations_mono _ _ _ Hr). exact Hg. }
    destruct (count_options_via f (S g') restC first Hrec' [] 0 l Hfor)
      as (m & Hm & Hlen).
    simpl. unfold exact_segment at 1. rewrite Hm. simpl.
    rewrite (IH g' restC (total * m) ltac:(lia) Hrest).
    f_equal. rewrite Hlen. simpl. lia.
Qed.

(** Whenever the expander returns a list, the exact count, run with the
    same fuel, returns the length of that list. *)
Lemma count_of_expansion :
  forall fuel segments l,
    generateAllCombinations fuel segments = Returns l ->
    exactCombinations fuel segments = Returns (length l).
Proof.
  induction fuel as [|fuel IH]; intros segments l H; [discriminate|].
  simpl. rewrite (count_segments_via fuel IH segments fuel l 1 (le_n _) H).
  f_equal. lia.
Qed.

(** ** The counter against the exact count *)

(** Two loops over the same list whose bodies keep a relation between the
    accumulators: when the first returns, so does the second. *)
Lemma for_each_related {A S T : Type} (R : S -> T -> Prop) (l : list A)
    (body1 : S -> A -> outcome S) (body2 : T -> A -> outcome T) :
  (forall x s t s', In x l -> R s t -> body1 s x = Returns s' ->
     exists t', body2 t x = Returns t' /\ R s' t') ->
  forall s t s', R s t -> for_each l body1 s = Returns s' ->
    exists t', for_each l body2 t = Returns t' /\ R s' t'.
Proof.
  induction l as [|x l IH]; intros Hb s t s' HR H; simpl in *.
  - injection H as <-. eauto.
  - apply obind_returns in H. destruct H as (s1 & H1 & H2).
    destruct (Hb x s t s1 (or_introl eq_refl) HR H1) as (t1 & Ht1 & HR1).
    rewrite Ht1. simpl.
    apply (IH (fun y u v u' Hy => Hb y u v u' (or_intror Hy)) s1 t1 s' HR1 H2).
Qed.

(** The exact sum of a segment counts at least one for every alternative
    whose nested count is positive. *)
Lemma exact_options_lower (exact_nested : segments_t -> outcome nat) (seg : list str) :
  (forall o n, In o seg -> includes lbrace o = true ->
               exact_nested (parseSpintax o) = Returns n -> 1 <= n) ->
  forall acc r,
    for_each seg (exact_option exact_nested) acc = Returns r ->
    acc + length seg <= r.
Proof.
  induction seg as [|o seg IH]; intros Hpos acc r H; simpl in H.
  - injection H as <-. simpl. lia.
  - apply obind_returns in H. destruct H as (acc' & Ho & Hrest).
    assert (Hacc : acc + 1 <= acc').
    { unfold exact_option in Ho. destruct (includes lbrace o) eqn:Einc.
      - apply obind_returns in Ho. destruct Ho as (n & Hn & Hret).
        injection Hret as <-.
        pose proof (Hpos o n (or_introl eq_refl) Einc Hn). lia.
      - injection Ho as <-. lia. }
    assert (Hr : acc' + length seg <= r).
    { apply IH; [|exact Hrest]. intros o' n Ho'. apply Hpos. now right. }
    simpl. lia.
Qed.

(** The counter returns whenever the exact count does.  On a template with
    no empty alternative set at any level, the exact count is positive,
    and the counter returns it as long as it is at most [2^53]. *)
Lemma count_of_exact :
  forall fuel segments n,
    exactCombinations fuel segments = Returns n ->
    exists v,
      countCombinations fuel segments = Returns v /\
      (pickable segments ->
       1 <= n /\ (safe_integer n = true -> v = Fin (N.of_nat n))).
Proof.
  induction fuel as [|fuel IH]; intros segments n H; [discriminate|].
  simpl in H. simpl.
  apply (for_each_related
           (fun s t => pickable segments ->
                       1 <= s /\ (safe_integer s = true -> t = Fin (N.of_nat s)))
           segments
           (exact_segment (exactCombinations fuel))
           (count_segment (countCombinations fuel))) with (s := 1);
    [| intros _; split; [lia | reflexivity] | exact H].
  intros seg s t s' Hseg HR Hs.
  unfold exact_segment in Hs. apply obind_returns in Hs.
  destruct Hs as (m & Hm & Hret). injection Hret as <-.
  destruct (for_each_related
              (fun a ta => pickable segments ->
                           safe_integer a = true -> ta = Fin (N.of_nat a))
              seg
              (exact_option (exactCombinations fuel))
              (count_option (countCombinations fuel))) with (s := 0) (t := Fin 0)
              (s' := m)
    as (tm & Htm & HRm); [| intros _ _; reflexivity | exact Hm |].
  - intros o a ta a' Ho HRa Ha.
    unfold exact_option in Ha. unfold count_option.
    destruct (includes lbrace o) eqn:Einc.
    + apply obind_returns in Ha. destruct Ha as (k & Hk & Hret).
      injection Hret as <-.
      destruct (IH _ _ Hk) as (v & Hv & Hexact).
      rewrite Hv. simpl. eexists; split; [reflexivity|].
      intros Hp Hsafe. inversion Hp as [? Hne Hnest].
      destruct (Hexact (Hnest seg o Hseg Ho Einc)) as [_ Hvk].
      rewrite (HRa Hp (safe_integer_le a (a + k) ltac:(lia) Hsafe)).
      rewrite (Hvk (safe_integer_le k (a + k) ltac:(lia) Hsafe)).
      now apply nadd_safe.
    + injection Ha as <-. eexists; split; [reflexivity|].
      intros Hp Hsafe.
      rewrite (HRa Hp (safe_integer_le a (a + 1) ltac:(lia) Hsafe)).
      now apply (nadd_safe a 1).
  - unfold count_segment. rewrite Htm. simpl.
    eexists; split; [reflexivity|].
    intros Hp. destruct (HR Hp) as [Hpos Hst].
    inversion Hp as [? Hne Hnest].
    assert (Hmpos : 1 <= m).
    { assert (Hlow : 0 + length seg <= m).
      { apply (exact_options_lower (exactCombinations fuel) seg); [|exact Hm].
        intros o k Ho Einc Hk. destruct (IH _ _ Hk) as (v & _ & Hexact).
        now destruct (Hexact (Hnest seg o Hseg Ho Einc)). }
      specialize (Hne seg Hseg). destruct seg; [congruence|]. simpl in Hlow. lia. }
    split; [nia|].
    intros Hsafe.
    rewrite (Hst (safe_integer_le s (s * m) ltac:(nia) Hsafe)).
    rewrite (HRm Hp (safe_integer_le m (s * m) ltac:(nia) Hsafe)).
    now apply nmul_safe.
Qed.

Lemma pickableb_sound :
  forall fuel segments, pickableb fuel segments = true -> pickable segments.
Proof.
  induction fuel as [|fuel IH]; intros segments H; [discriminate|].
  simpl in H. rewrite forallb_forall in H.
  constructor.
  - intros seg Hseg ->. specialize (H _ Hseg). discriminate.
  - intros seg o Hseg Ho Hinc. specialize (H _ Hseg).
    apply andb_prop in H. destruct H as [_ H].
    rewrite forallb_forall in H. specialize (H _ Ho).
    rewrite Hinc in H. simpl in H. now apply IH.
Qed.

(** A template without empty alternative sets has no literal segment of
    an unmatched opening brace, whose nesting would never end. *)
Lemma pickable_no_lone_brace (segments : segments_t) :
  pickable segments -> ~ In [[lbrace]] segments.
Proof.
  induction 1 as [segments _ _ IH]. intros Hin.
  apply (IH [[lbrace]] [lbrace] Hin (or_introl eq_refl) eq_refl).
  left. reflexivity.
Qed.

Lemma pickable_all_matched (text : str) :
  pickable (parseSpintax text) -> all_matched text = true.
Proof.
  intros Hp. apply all_matched_spec. intros p.
  destruct (unmatched_open text p) eqn:Hun; [|reflexivity].
  exfalso. apply (pickable_no_lone_brace _ Hp).
  now apply (unmatched_open_segment text p).
Qed.

(** Counting and expansion on a text without unmatched opening braces:
    with enough fuel the expander and the counter return, the exact count
    is the length of the expansion, and so is the counter's result when no
    alternative set is empty and the length is at most [2^53]. *)
Lemma count_matches_expansion (text : str) :
  all_matched text = true ->
  exists fuel0 l,
    forall fuel, fuel0 <= fuel ->
      generateAllCombinations fuel (parseSpintax text) = Returns l /\
      exactCombinations fuel (parseSpintax text) = Returns (length l) /\
      exists v,
        countCombinations fuel (parseSpintax text) = Returns v /\
        (pickable (parseSpintax text) -> safe_integer (length l) = true ->
         v = Fin (N.of_nat (length l))).
Proof.
  intros Hall. destruct (expand_all_matched text Hall) as (fuel0 & l & Hl).
  exists fuel0, l. intros fuel Hle.
  pose proof (generateAllCombinations_mono _ _ _ Hl _ Hle) as H.
  pose proof (count_of_expansion _ _ _ H) as He.
  destruct (count_of_exact _ _ _ He) as (v & Hv & Hexact).
  split; [exact H|]. split; [exact He|].
  exists v. split; [exact Hv|]. intros Hp. now apply Hexact.
Qed.

Lemma empty_template (fuel : nat) :
  generateAllCombinations (S fuel) [] = Returns [[]] /\
  countCombinations (S fuel) [] = Returns (Fin 1).
Proof. split; reflexivity. Qed.

(** ** Unmatched braces never bottom out *)

Lemma for_each_diverges {A S : Type} (l : list A) (body : S -> A -> outcome S)
    (x0 : A) :
  (forall s x, body s x <> TypeError) ->
  In x0 l ->
  (forall s, body s x0 = OutOfFuel) ->
  forall s, for_each l body s = OutOfFuel.
Proof.
  intros Hne Hin Hdiv. induction l as [|x l IH]; intros s; [contradiction|].
  simpl. destruct Hin as [-> | Hin].
  - rewrite Hdiv. reflexivity.
  - specialize (Hne s x). destruct (body s x); simpl; [now apply IH | congruence | reflexivity].
Qed.

Lemma parse_lone_brace : parseSpintax [lbrace] = [[[lbrace]]].
Proof. reflexivity. Qed.

Lemma expand_unmatched_diverges :
  forall fuel segments, In [[lbrace]] segments ->
  generateAllCombinations fuel segments = OutOfFuel.
Proof.
  induction fuel as [|fuel IH]; intros segments Hin; [reflexivity|].
  destruct segments as [|first rest]; [contradiction|].
  simpl.
  pose proof (generateAllCombinations_no_TypeError fuel rest) as Hne.
  destruct (generateAllCombinations fuel rest) as [restC| |] eqn:Erest;
    simpl; [|congruence|reflexivity].
  destruct Hin as [-> | Hin]; [|rewrite (IH rest Hin) in Erest; discriminate].
  simpl. unfold expand_option, processNestedSpintax_with. simpl.
  rewrite parse_lone_brace, IH; [reflexivity | now left].
Qed.

Lemma countCombinations_no_TypeError :
  forall fuel segments, countCombinations fuel segments <> TypeError.
Proof.
  induction fuel as [|fuel IH]; intros segments; simpl; [discriminate|].
  apply for_each_no_TypeError. intros total segment. unfold count_segment.
  assert (H : for_each segment (count_option (countCombinations fuel)) (Fin 0) <> TypeError).
  { apply for_each_no_TypeError. intros st o. unfold count_option.
    destruct (includes lbrace o); [|discriminate].
    specialize (IH (parseSpintax o)).
    destruct (countCombinations fuel (parseSpintax o)); simpl;
      [discriminate | congruence | discriminate]. }
  destruct (for_each segment (count_option (countCombinations fuel)) (Fin 0)); simpl;
    [discriminate | congruence | discriminate].
Qed.

Lemma count_unmatched_diverges :
  forall fuel segments, In [[lbrace]] segments ->
  countCombinations fuel segments = OutOfFuel.
Proof.
  induction fuel as [|fuel IH]; intros segments Hin; [reflexivity|].
  simpl. apply for_each_diverges with (x0 := [[lbrace]]); [|assumption|].
  - intros total segment Habs.
    apply (countCombinations_no_TypeError (S fuel) [segment]).
    simpl. unfold count_segment in *.
    destruct (for_each segment (count_option (countCombinations fuel)) (Fin 0));
      simpl in *; congruence.
  - intros total. unfold count_segment. simpl. unfold count_option. simpl.
    rewrite parse_lone_brace, IH; [reflexivity | now left].
Qed.

(** On a text with an unmatched opening brace neither the expander nor the
    counter returns, whatever the fuel. *)
Lemma unmatched_never_returns (text : str) (p : nat) :
  unmatched_open text p = true ->
  forall fuel,
    generateAllCombinations fuel (parseSpintax text) = OutOfFuel /\
    countCombinations fuel (parseSpintax text) = OutOfFuel.
Proof.
  intros Hun fuel. pose proof (unmatched_open_segment text p Hun) as Hin.
  split; [now apply expand_unmatched_diverges | now apply count_unmatched_diverges].
Qed.

(** C1. The consistency of counting and expansion breaks on the lone
    opening brace: [parseSpintax] turns it into the literal segment
    [["{"]], the expander and the counter both parse that literal again,
    and neither returns for any amount of fuel, so no count and no list
    exist to be compared.  (On texts without unmatched opening braces
    both return: [count_matches_expansion].) *)
Theorem C1_lone_brace_never_returns (fuel : nat) :
  parseSpintax (lit "{") = [[lit "{"]] /\
  generateAllCombinations fuel (parseSpintax (lit "{")) = OutOfFuel /\
  countCombinations fuel (parseSpintax (lit "{")) = OutOfFuel.
Proof.
  split; [reflexivity|].
  apply (unmatched_never_returns (lit "{") 0). reflexivity.
Qed.

(** ** Source order *)

Lemma splitOptions_loop_join (content : str) :
  forall options current depth,
    let '(options', current') := splitOptions_loop content options current depth in
    content_of options' current' = content_of options current ++ content.
Proof.
  unfold content_of.
  induction content as [|ch content IH]; intros options current depth; simpl.
  - now rewrite app_nil_r.
  - assert (Hkeep : forall d,
      let '(options', current') :=
        splitOptions_loop content options (current ++ [ch]) d in
      concat (map (fun o => o ++ [pipe]) options') ++ current'
      = (concat (map (fun o => o ++ [pipe]) options) ++ current) ++ ch :: content).
    { intros d. specialize (IH options (current ++ [ch]) d).
      destruct (splitOptions_loop content options (current ++ [ch]) d).
      rewrite IH, <- !app_assoc. reflexivity. }
    destruct (Ascii.eqb ch lbrace); [apply Hkeep|].
    destruct (Ascii.eqb ch rbrace); [apply Hkeep|].
    destruct (Ascii.eqb ch pipe) eqn:Ep; simpl; [|apply Hkeep].
    destruct (depth =? 0)%Z; [|apply Hkeep].
    apply Ascii.eqb_eq in Ep. subst ch.
    specialize (IH (options ++ [current]) [] depth).
    destruct (splitOptions_loop content (options ++ [current]) [] depth).
    rewrite IH, map_app, concat_app. simpl.
    rewrite !app_nil_r, <- !app_assoc. reflexivity.
Qed.

(** The alternatives returned by [splitOptions] are the pipe-separated
    pieces of the content, in the order they are written. *)
Lemma splitOptions_join (content : str) :
  exists opts last,
    content = content_of opts last /\ splitOptions content = options_of opts last.
Proof.
  pose proof (splitOptions_loop_join content [] [] 0%Z) as H.
  unfold splitOptions.
  destruct (splitOptions_loop content [] [] 0%Z) as [opts last].
  exists opts, last. split; [symmetry; exact H | reflexivity].
Qed.

Lemma firstn_add_skipn {A : Type} (l : list A) :
  forall i k, firstn (i + k) l = firstn i l ++ firstn k (skipn i l).
Proof.
  induction l as [|x l IH]; intros [|i] k; simpl;
    try reflexivity; try (now rewrite firstn_nil).
  now rewrite IH.
Qed.

Lemma with_literal_pieces (pieces : list str) (segments : segments_t) (pre : str) :
  Forall2 piece_of pieces segments ->
  exists pieces',
    concat pieces' = concat pieces ++ pre /\
    Forall2 piece_of pieces' (with_literal segments pre).
Proof.
  intros H. destruct pre as [|c pre]; simpl.
  - exists pieces. now rewrite app_nil_r.
  - exists (pieces ++ [c :: pre]). split.
    + rewrite concat_app. simpl. now rewrite app_nil_r.
    + apply Forall2_app; [assumption|]. repeat constructor.
Qed.

(** The segments cover the text, piece by piece, from left to right. *)
Lemma parse_run_pieces (text : str) :
  forall n segments i out,
    parse_run text n segments i out ->
    (exists pieces, concat pieces = firstn i text /\
                    Forall2 piece_of pieces segments) ->
    exists pieces, concat pieces = text /\ Forall2 piece_of pieces out.
Proof.
  induction 1 as [segments i Hge | segments i segments' _ Hit
                 | segments i segments' i' n out _ Hit _ IH];
    intros (pieces & Hcat & Hall).
  - exists pieces. split; [|assumption].
    rewrite Hcat. now apply firstn_all2.
  - pose proof (parse_iter_view text segments i) as V. rewrite Hit in V.
    inversion V as [Htail | |]; subst.
    exists (pieces ++ [skipn i text]). split.
    + rewrite concat_app, Hcat. simpl. rewrite app_nil_r. apply firstn_skipn.
    + apply Forall2_app; [assumption|]. repeat constructor.
  - apply IH.
    pose proof (parse_iter_view text segments i) as V. rewrite Hit in V.
    inversion V as [| pre post Hs Hpre Hopen Heq
                   | pre content post Hs Hpre Hval Heq]; subst;
      destruct (with_literal_pieces pieces segments pre Hall)
        as (pieces' & Hcat' & Hall').
    + exists (pieces' ++ [[lbrace]]). split.
      * rewrite concat_app, Hcat', Hcat. simpl.
        rewrite <- Nat.add_assoc, firstn_add_skipn, Hs.
        replace (pre ++ lbrace :: post) with ((pre ++ [lbrace]) ++ post)
          by (rewrite <- app_assoc; reflexivity).
        replace (length pre + 1) with (length (pre ++ [lbrace]))
          by (rewrite length_app; reflexivity).
        rewrite firstn_app, firstn_all, Nat.sub_diag. simpl.
        rewrite !app_nil_r, <- app_assoc. reflexivity.
      * apply Forall2_app; [assumption|]. repeat constructor.
    + destruct (splitOptions_join content) as (opts & last & Hc & Ho).
      exists (pieces' ++ [lbrace :: content ++ [rbrace]]). split.
      * rewrite concat_app, Hcat', Hcat. simpl.
        replace (i + length pre + length content + 2)
          with (i + length ((pre ++ lbrace :: content ++ [rbrace])))
          by (rewrite !length_app; simpl; rewrite length_app; simpl; lia).
        rewrite firstn_add_skipn, Hs.
        replace (pre ++ lbrace :: content ++ rbrace :: post)
          with ((pre ++ lbrace :: content ++ [rbrace]) ++ post)
          by (rewrite <- !app_assoc; simpl; rewrite <- app_assoc; reflexivity).
        rewrite firstn_app, firstn_all, Nat.sub_diag. simpl.
        rewrite !app_nil_r, <- app_assoc. reflexivity.
      * apply Forall2_app; [assumption|].
        constructor; [|constructor].
        rewrite Ho. rewrite Hc at 1. constructor.
Qed.

Lemma parseSpintax_pieces (text : str) :
  exists pieces, concat pieces = text /\
                 Forall2 piece_of pieces (parseSpintax text).
Proof.
  destruct (parseSpintax_run text) as (n & _ & Hrun).
  apply (parse_run_pieces text _ _ _ _ Hrun).
  exists []. split; constructor.
Qed.

Lemma filter_keeps_spin (segments : segments_t) :
  keeps_spin segments (filter (fun s => 1 <? length s) segments).
Proof.
  induction segments as [|seg rest IH]; simpl; [constructor|].
  destruct (1 <? length seg) eqn:E.
  - apply keeps_take; [now apply Nat.ltb_lt | assumption].
  - apply keeps_drop; [apply Nat.ltb_ge in E; lia | assumption].
Qed.

Lemma filter_count_spin (segments : segments_t) :
  length (filter (fun s => 1 <? length s) segments) = count_spin segments.
Proof.
  induction segments as [|seg rest IH]; simpl; [reflexivity|].
  destruct (1 <? length seg); simpl; now rewrite IH.
Qed.

(** C9. [extractOptions text] lists, in the order of the parse and
    unchanged, exactly the parsed segments with more than one alternative
    (segments with a single alternative, or none, are omitted), so it has as
    many entries as there are such segments; and the parsed segments follow
    the source from left to right: the text is the concatenation of pieces,
    one per segment, a literal piece being its segment's only alternative
    and a braced piece listing its alternatives in the order written. *)
Theorem C9_extractOptions_spin_segments_in_order (text : str) :
  keeps_spin (parseSpintax text) (extractOptions text) /\
  length (extractOptions text) = count_spin (parseSpintax text) /\
  exists pieces, concat pieces = text /\
                 Forall2 piece_of pieces (parseSpintax text).
Proof.
  unfold extractOptions. split; [apply filter_keeps_spin|].
  split; [apply filter_count_spin | apply parseSpintax_pieces].
Qed.

(** ** Statistics *)

Lemma totalOptions_of_sum (segments : segments_t) :
  totalOptions_of segments = total_alternatives segments.
Proof.
  unfold totalOptions_of, total_alternatives.
  assert (H : forall acc, fold_left (fun sum s => sum + length s) segments acc
                          = acc + list_sum (map (@length str) segments)).
  { induction segments as [|seg rest IH]; intros acc; simpl; [lia|].
    rewrite IH. lia. }
  apply (H 0).
Qed.

(** What [analyze] reports whenever it returns. *)
Lemma analyze_returns (fuel : nat) (text : str) (st : SpintaxStats) :
  analyze fuel text = Returns st ->
  countCombinations fuel (parseSpintax text) = Returns (totalCombinations st) /\
  spinElements st = count_spin (parseSpintax text) /\
  averageOptionsPerSpin st =
    (if 0 <? count_spin (parseSpintax text)
     then quotient (total_alternatives (parseSpintax text))
                   (length (parseSpintax text))
     else inject_Z 0).
Proof.
  unfold analyze. intros H.
  apply obind_returns in H. destruct H as (total & Hc & Hst).
  injection Hst as <-. simpl.
  unfold spinElements_of.
  rewrite filter_count_spin, totalOptions_of_sum. auto.
Qed.

Lemma analyze_all_matched (text : str) :
  all_matched text = true ->
  exists fuel0 l,
    forall fuel, fuel0 <= fuel ->
      generateAllCombinations fuel (parseSpintax text) = Returns l /\
      exists st, analyze fuel text = Returns st /\
                 (pickable (parseSpintax text) ->
                  safe_integer (length l) = true ->
                  totalCombinations st = Fin (N.of_nat (length l))).
Proof.
  intros Hall.
  destruct (count_matches_expansion text Hall) as (fuel0 & l & H).
  exists fuel0, l. intros fuel Hle.
  destruct (H fuel Hle) as (Hg & _ & v & Hc & Hv).
  split; [exact Hg|].
  unfold analyze. rewrite Hc. simpl. eauto.
Qed.

(** C4 (as amended). On every text without unmatched opening braces
    [analyze] returns, and its [averageOptionsPerSpin] is the total number
    of alternatives across all segments divided by the number of segments
    when at least one segment has more than one alternative, and [0]
    otherwise: the guard tests the number of spin elements, not the number
    of segments. *)
Theorem C4_average_guarded_by_spin_elements (text : str) :
  all_matched text = true ->
  exists fuel0,
    forall fuel, fuel0 <= fuel ->
      exists st,
        analyze fuel text = Returns st /\
        spinElements st = count_spin (parseSpintax text) /\
        averageOptionsPerSpin st =
          (if 0 <? count_spin (parseSpintax text)
           then quotient (total_alternatives (parseSpintax text))
                         (length (parseSpintax text))
           else inject_Z 0).
Proof.
  intros Hall. destruct (analyze_all_matched text Hall) as (fuel0 & l & H).
  exists fuel0. intros fuel Hle.
  destruct (H fuel Hle) as (_ & st & Hst & _).
  exists st. split; [exact Hst|].
  destruct (analyze_returns _ _ _ Hst) as (_ & Hs & Ha). auto.
Qed.

Lemma C4_witness :
  all_matched (lit "{A|B} {1|2|3}") = true /\
  exists fuel0,
    forall fuel, fuel0 <= fuel ->
      exists st,
        analyze fuel (lit "{A|B} {1|2|3}") = Returns st /\
        spinElements st = count_spin (parseSpintax (lit "{A|B} {1|2|3}")) /\
        averageOptionsPerSpin st =
          (if 0 <? count_spin (parseSpintax (lit "{A|B} {1|2|3}"))
           then quotient (total_alternatives (parseSpintax (lit "{A|B} {1|2|3}")))
                         (length (parseSpintax (lit "{A|B} {1|2|3}")))
           else inject_Z 0).
Proof.
  split; [reflexivity|].
  apply (C4_average_guarded_by_spin_elements (lit "{A|B} {1|2|3}")).
  reflexivity.
Defined.

(** C4 as the specification states it fails on plain text: ["abc"] parses
    to one literal segment, so the specified average is 1/1, but [analyze]
    reports [0] because no segment has more than one alternative. *)
Lemma C4_counterexample :
  parseSpintax (lit "abc") = [[lit "abc"]] /\
  exists st,
    analyze 1 (lit "abc") = Returns st /\
    Qeq (averageOptionsPerSpin st) (inject_Z 0) /\
    Qeq (specified_average (parseSpintax (lit "abc"))) (inject_Z 1) /\
    ~ Qeq (averageOptionsPerSpin st) (specified_average (parseSpintax (lit "abc"))).
Proof.
  split; [reflexivity|].
  eexists. split; [reflexivity|].
  split; [reflexivity|]. split; [reflexivity|].
  vm_compute. discriminate.
Qed.

(** ** [generate] in the modes [all] and [sequential] *)

Lemma slice0_nonneg {A : Type} (l : list A) (n : Z) :
  (0 <= n)%Z -> slice0 l n = firstn (Z.to_nat n) l.
Proof.
  intros Hn. unfold slice0.
  destruct (n <? 0)%Z eqn:E; [apply Z.ltb_lt in E; lia | reflexivity].
Qed.

Lemma slice0_negative {A : Type} (l : list A) (n : Z) :
  (n < 0)%Z -> slice0 l n = firstn (length l - Z.to_nat (- n)) l.
Proof.
  intros Hn. unfold slice0.
  destruct (n <? 0)%Z eqn:E; [|apply Z.ltb_ge in E; lia].
  f_equal. lia.
Qed.

Lemma firstn_min_length {A : Type} (l : list A) (n : nat) :
  firstn (Nat.min (length l) n) l = firstn n l.
Proof.
  destruct (Nat.le_ge_cases (length l) n) as [H | H].
  - rewrite Nat.min_l by exact H.
    rewrite firstn_all, firstn_all2; [reflexivity | exact H].
  - now rewrite Nat.min_r.
Qed.

Lemma NoDup_firstn {A : Type} (l : list A) (n : nat) :
  NoDup l -> NoDup (firstn n l).
Proof.
  intros H. rewrite <- (firstn_skipn n l) in H.
  now apply NoDup_app_remove_r in H.
Qed.

(** What [generate] returns in mode [all], in terms of the expansion. *)
Lemma generate_all_returns (rnd : nat -> nat) (fuel : nat) (text : str)
    (c : option Z) (k : nat) (allc : list str) (st : SpintaxStats) :
  generateAllCombinations fuel (parseSpintax text) = Returns allc ->
  analyze fuel text = Returns st ->
  generate rnd fuel text {| count := c; mode := Some all |} k
  = Returns ({| variations :=
                  slice_to allc (Math_min (totalCombinations st) (Fin 1000));
                stats := st;
                generatedCount :=
                  length (slice_to allc
                            (Math_min (totalCombinations st) (Fin 1000))) |}, k).
Proof.
  intros Hg Hst. unfold generate, mbind, lift, ret.
  cbn [count mode]. rewrite Hst, Hg. reflexivity.
Qed.

Lemma slice_to_length_cap {A : Type} (l : list A) :
  slice_to l (Math_min (Fin (N.of_nat (length l))) (Fin 1000)) = firstn 1000 l.
Proof.
  cbn [Math_min slice_to].
  replace (N.to_nat (N.min (N.of_nat (length l)) 1000))
    with (Nat.min (length l) 1000) by lia.
  apply firstn_min_length.
Qed.

Lemma slice_to_bound {A : Type} (l : list A) (x : number) :
  length (slice_to l (Math_min x (Fin 1000))) <= 1000.
Proof.
  destruct x as [n| |]; cbn [Math_min slice_to].
  - rewrite length_firstn. lia.
  - rewrite length_firstn.
    change (N.to_nat 1000) with 1000. lia.
  - simpl. lia.
Qed.

(** Mode [all] on a text without unmatched opening braces and without
    empty alternative sets, whose expansion has at most [2^53] entries:
    the variations are the first 1000 entries of the expansion, in its
    order, duplicates included; they are free of duplicates whenever the
    expansion is. *)
Lemma all_mode_prefix (text : str) :
  all_matched text = true ->
  pickable (parseSpintax text) ->
  exists fuel0 allc,
    forall rnd fuel c k, fuel0 <= fuel ->
      generateAllCombinations fuel (parseSpintax text) = Returns allc /\
      (safe_integer (length allc) = true ->
       exists res,
         generate rnd fuel text {| count := c; mode := Some all |} k
         = Returns (res, k) /\
         totalCombinations (stats res) = Fin (N.of_nat (length allc)) /\
         variations res = firstn 1000 allc /\
         (length allc <= 1000 -> variations res = allc) /\
         (NoDup allc -> NoDup (variations res))).
Proof.
  intros Hall Hp. destruct (analyze_all_matched text Hall) as (fuel0 & allc & H).
  exists fuel0, allc. intros rnd fuel c k Hle.
  destruct (H fuel Hle) as (Hg & st & Hst & Htot).
  split; [exact Hg|]. intros Hsafe.
  eexists. split; [apply (generate_all_returns rnd fuel text c k allc st Hg Hst)|].
  cbn [variations stats]. rewrite (Htot Hp Hsafe), slice_to_length_cap.
  repeat split.
  - intros Hlen. now apply firstn_all2.
  - apply NoDup_firstn.
Qed.

(** C5. Mode [all] does not give a duplicate-free list holding the
    expansion up to the cap.  On the group [{a|a}], which repeats an
    alternative, [generate] returns both copies and reports two
    combinations.  On [overflow_text], whose second alternative holds 1024
    two-way groups and an empty group, the running product of the counter
    reaches [Infinity] and then [NaN]; the cap [Math.min(NaN, 1000)] is
    [NaN], the slice is empty, and [generate] returns no variation although
    the expansion is the one string [x]. *)
Theorem C5_all_mode_repeats_and_drops :
  (forall rnd fuel c k,
     generate rnd (2 + fuel) (lit "{a|a}") {| count := c; mode := Some all |} k
     = Returns ({| variations := [lit "a"; lit "a"];
                   stats := {| totalCombinations := Fin 2; spinElements := 1;
                               averageOptionsPerSpin := quotient 2 1 |};
                   generatedCount := 2 |}, k)) /\
  ~ NoDup [lit "a"; lit "a"] /\
  validate overflow_text = true /\
  (forall fuel,
     generateAllCombinations (1028 + fuel) (parseSpintax overflow_text)
     = Returns [lit "x"]) /\
  (forall rnd fuel c k,
     generate rnd (1028 + fuel) overflow_text {| count := c; mode := Some all |} k
     = Returns ({| variations := [];
                   stats := {| totalCombinations := NaN; spinElements := 1;
                               averageOptionsPerSpin := quotient 2 1 |};
                   generatedCount := 0 |}, k)).
Proof.
  split; [intros; vm_compute; reflexivity|].
  split; [intros H; inversion H as [|x l Hin _]; apply Hin; now left|].
  split; [vm_compute; reflexivity|].
  split; intros; vm_compute; reflexivity.
Qed.

(** Mode [sequential] with a count that is not negative, on a text without
    unmatched opening braces: the first [min(count, 1000)] entries of the
    expansion. *)
Lemma sequential_prefix (text : str) (n : Z) :
  all_matched text = true -> (0 <= n)%Z ->
  exists fuel0 allc,
    forall rnd fuel k, fuel0 <= fuel ->
      generateAllCombinations fuel (parseSpintax text) = Returns allc /\
      exists res,
        generate rnd fuel text {| count := Some n; mode := Some sequential |} k
        = Returns (res, k) /\
        variations res = firstn (Z.to_nat (Z.min n 1000)) allc.
Proof.
  intros Hall Hn. destruct (analyze_all_matched text Hall) as (fuel0 & allc & H).
  exists fuel0, allc. intros rnd fuel k Hle.
  destruct (H fuel Hle) as (Hg & st & Hst & Htot).
  split; [exact Hg|].
  unfold generate, generateSequentialVariations, mbind, lift, ret. simpl.
  rewrite Hst, Hg. simpl. eexists. split; [reflexivity|]. simpl.
  apply slice0_nonneg. lia.
Qed.

Lemma analyze_lone_brace (fuel : nat) : analyze fuel (lit "{") = OutOfFuel.
Proof.
  unfold analyze.
  rewrite (count_unmatched_diverges fuel (parseSpintax (lit "{"))); [reflexivity|].
  now left.
Qed.

Lemma generate_lone_brace (rnd : nat -> nat) (fuel : nat)
    (options : GenerateOptions) (k : nat) :
  generate rnd fuel (lit "{") options k = OutOfFuel.
Proof.
  unfold generate, mbind, lift. rewrite analyze_lone_brace. reflexivity.
Qed.

(** C7. The property (mode [sequential] returns the first
    [min(count, 1000)] entries of the expansion, for every text and every
    count) breaks in two places.  A negative count reaches
    [slice(0, count)], which then drops entries from the end instead of
    returning none: with count [-1] the template [{A|B}] yields ["A"], while
    the first [min(-1, 1000)] entries of the expansion are no entries.  And
    on the lone opening brace [generate] never returns, whatever the fuel
    and the count.  (For a count that is not negative and a text without
    unmatched opening braces the property holds: [sequential_prefix], and
    [expand_flat] gives the canonical order.) *)
Theorem C7_sequential_failing_inputs (rnd : nat -> nat) (k : nat) :
  (generateAllCombinations 3 (parseSpintax (lit "{A|B}"))
   = Returns [lit "A"; lit "B"] /\
   (exists res,
      generate rnd 3 (lit "{A|B}")
        {| count := Some (-1)%Z; mode := Some sequential |} k = Returns (res, k) /\
      variations res = [lit "A"]) /\
   firstn (Z.to_nat (Z.min (-1) 1000)) [lit "A"; lit "B"] = []) /\
  (forall fuel n,
     generate rnd fuel (lit "{") {| count := Some n; mode := Some sequential |} k
     = OutOfFuel).
Proof.
  split; [|intros; apply generate_lone_brace].
  split; [reflexivity|]. split; [|reflexivity].
  eexists. split; reflexivity.
Qed.

(** ** The sampler on degenerate templates *)

Lemma randomIndex_one (rnd : nat -> nat) (k : nat) :
  randomIndex rnd 1 k = Returns (0, S k).
Proof. unfold randomIndex. simpl Nat.eqb. cbv iota. now rewrite Nat.mod_1_r. Qed.

Lemma randomIndex_zero (rnd : nat -> nat) (k : nat) :
  randomIndex rnd 0 k = Returns (0, S k).
Proof. reflexivity. Qed.

Lemma sample_loop_step (rnd : nat -> nat) (gas : nat)
    (nested : list (list str) -> M (list str)) (segments : segments_t)
    (count maxAttempts : Z) (st : sampler_state) :
  sample_loop rnd (S gas) nested segments count maxAttempts st =
  if (Z.of_nat (length (results st)) <? count)%Z
     && (Z.of_nat (attempts st) <? maxAttempts)%Z
  then mbind (attempt rnd nested segments st)
             (sample_loop rnd gas nested segments count maxAttempts)
  else ret st.
Proof. reflexivity. Qed.

Lemma generateRandomVariations_step (rnd : nat -> nat) (fuel : nat)
    (segments : segments_t) (count : Z) :
  generateRandomVariations rnd (S fuel) segments count =
  mbind
    (sample_loop rnd (Z.to_nat (count * 10))
       (fun nestedSegments => generateRandomVariations rnd fuel nestedSegments 1%Z)
       segments count (count * 10)%Z
       {| results := []; seen := []; attempts := 0 |})
    (fun st => ret (results st)).
Proof. reflexivity. Qed.

(** Sampling the literal segment of an unmatched brace parses that brace
    again, without end. *)
Lemma sampler_lone_brace (rnd : nat -> nat) :
  forall fuel k, generateRandomVariations rnd fuel [[[lbrace]]] 1%Z k = OutOfFuel.
Proof.
  induction fuel as [|fuel IH]; intros k; [reflexivity|].
  rewrite generateRandomVariations_step.
  change (Z.to_nat (1 * 10)) with 10.
  rewrite sample_loop_step.
  unfold mbind at 1. cbn [results attempts length Z.of_nat Z.ltb Z.compare Z.mul
                          Pos.mul Pos.compare Pos.compare_cont andb].
  unfold mbind at 1. unfold attempt at 1. unfold mbind at 1.
  cbn [mfor_each]. unfold mbind at 1. unfold pick_option at 1.
  unfold mbind at 1. cbn [length].
  rewrite randomIndex_one.
  cbn [nth_error]. change (includes lbrace [lbrace]) with true. cbv iota.
  unfold mbind at 1. rewrite parse_lone_brace, IH. reflexivity.
Qed.

(** Sampling an empty alternative set reads [segment[0]] of an empty array
    and calls a method of the [undefined] it gets. *)
Lemma sampler_empty_segment (rnd : nat -> nat) (fuel : nat) (k : nat) :
  generateRandomVariations rnd (S fuel) [[]] 1%Z k = TypeError.
Proof.
  rewrite generateRandomVariations_step.
  change (Z.to_nat (1 * 10)) with 10.
  rewrite sample_loop_step.
  reflexivity.
Qed.

(** A single segment whose only alternative is the empty string: the one
    attempt produces the empty string. *)
Lemma sampler_empty_option (rnd : nat -> nat) (fuel : nat) (k : nat) :
  generateRandomVariations rnd (S fuel) [[[]]] 1%Z k = Returns ([[]], S k).
Proof.
  rewrite generateRandomVariations_step.
  change (Z.to_nat (1 * 10)) with 10.
  rewrite sample_loop_step.
  unfold mbind at 1. cbn [results attempts length Z.of_nat Z.ltb Z.compare Z.mul
                          Pos.mul Pos.compare Pos.compare_cont andb].
  unfold mbind at 1. unfold attempt at 1. unfold mbind at 1.
  cbn [mfor_each]. unfold mbind at 1. unfold pick_option at 1.
  unfold mbind at 1. cbn [length].
  rewrite randomIndex_one.
  reflexivity.
Qed.

(** With a count that is not positive the loop body never runs. *)
Lemma sampler_nonpositive (rnd : nat -> nat) (fuel : nat) (segments : segments_t)
    (count : Z) (k : nat) :
  (count <= 0)%Z ->
  generateRandomVariations rnd (S fuel) segments count k = Returns ([], k).
Proof.
  intros Hc. rewrite generateRandomVariations_step.
  unfold mbind.
  assert (H : forall gas,
    sample_loop rnd gas
      (fun nestedSegments => generateRandomVariations rnd fuel nestedSegments 1%Z)
      segments count (count * 10)%Z
      {| results := []; seen := []; attempts := 0 |} k
    = Returns ({| results := []; seen := []; attempts := 0 |}, k)).
  { intros gas.
    assert (E : (Z.of_nat (length (@nil str)) <? count)%Z = false)
      by (apply Z.ltb_ge; simpl; lia).
    destruct gas; simpl; simpl in E; rewrite E; reflexivity. }
  rewrite H. reflexivity.
Qed.

(** C2. The result of [spin] is not always a member of the expansion:
    [spin] falls back to its argument whenever the sampled variation is the
    empty string, because [variations[0] || text] treats the empty string
    like a missing one.  The balanced, non-empty template [{|}] has the
    single expansion [""], and [spin] returns the template itself, braces
    included, for every random source.  ([spin_optional_word] is the same
    failure on an optional word, [spin_empty_group] the [TypeError] on the
    balanced template [{}]; [spin_sound] is the membership that does
    hold.) *)
Theorem C2_spin_returns_template_on_empty_variation (rnd : nat -> nat)
    (fuel k : nat) :
  validate (lit "{|}") = true /\
  parseSpintax (lit "{|}") = [[lit ""]] /\
  generateAllCombinations (S (S fuel)) (parseSpintax (lit "{|}"))
  = Returns [lit ""] /\
  spin rnd (S fuel) (lit "{|}") k = Returns (lit "{|}", S k) /\
  ~ In (lit "{|}") [lit ""].
Proof.
  split; [reflexivity|]. split; [reflexivity|]. split; [reflexivity|].
  split.
  - unfold spin, mbind.
    change (parseSpintax (lit "{|}")) with [[@nil ascii]].
    rewrite sampler_empty_option. reflexivity.
  - intros [H | []]. discriminate.
Qed.

Lemma spin_lone_brace (rnd : nat -> nat) (fuel k : nat) :
  spin rnd fuel (lit "{") k = OutOfFuel.
Proof.
  unfold spin, mbind.
  change (parseSpintax (lit "{")) with [[[lbrace]]].
  now rewrite sampler_lone_brace.
Qed.

Lemma spin_empty_group (rnd : nat -> nat) (fuel k : nat) :
  spin rnd (S fuel) (lit "{}") k = TypeError.
Proof.
  unfold spin, mbind.
  change (parseSpintax (lit "{}")) with [@nil (list ascii)].
  now rewrite sampler_empty_segment.
Qed.

Lemma generate_empty_group (rnd : nat -> nat) (fuel k : nat) :
  generate rnd (S fuel) (lit "{}") {| count := None; mode := None |} k = TypeError.
Proof. vm_compute. reflexivity. Qed.

(** C3. Public operations do fail.  On the lone opening brace the parser
    emits the literal segment [["{"]], and the sampler, the counter and the
    expander each parse that literal again as if it were nested spintax:
    [spin], [analyze] and [generate] never return, whatever the fuel (in
    the source: unbounded recursion, a [RangeError]).  On the empty group
    [{}] the sampler reads index [0] of an empty alternative set and calls
    [includes] on [undefined]: [spin] and [generate] throw a [TypeError] in
    their first attempt. *)
Theorem C3_public_operations_fail (rnd : nat -> nat) (k : nat) :
  (parseSpintax (lit "{") = [[lit "{"]] /\
   (forall fuel, spin rnd fuel (lit "{") k = OutOfFuel) /\
   (forall fuel, analyze fuel (lit "{") = OutOfFuel) /\
   (forall fuel options, generate rnd fuel (lit "{") options k = OutOfFuel)) /\
  (parseSpintax (lit "{}") = [[]] /\
   (forall fuel, generateRandomVariations rnd (S fuel) [[]] 1%Z k = TypeError) /\
   (forall fuel, spin rnd (S fuel) (lit "{}") k = TypeError) /\
   (forall fuel,
      generate rnd (S fuel) (lit "{}") {| count := None; mode := None |} k
      = TypeError)).
Proof.
  split; (split; [reflexivity|]).
  - split; [intros; apply spin_lone_brace|].
    split; [intros; apply analyze_lone_brace|].
    intros; apply generate_lone_brace.
  - split; [intros; apply sampler_empty_segment|].
    split; [intros; apply spin_empty_group|].
    intros; apply generate_empty_group.
Qed.

(** ** Canonical order of the expansion *)

Lemma expand_flat_options (expand : list (list str) -> outcome (list str))
    (restC : list str) (first : list str) :
  forallb (fun o => negb (includes lbrace o)) first = true ->
  forall results,
    for_each first (expand_option expand restC) results
    = Returns (results ++
               flat_map (fun option => map (fun restCombo => option ++ restCombo) restC)
                        first).
Proof.
  induction first as [|o first IH]; intros Hflat results; simpl.
  - now rewrite app_nil_r.
  - simpl in Hflat. apply andb_prop in Hflat. destruct Hflat as [Ho Hfirst].
    unfold expand_option at 1, processNestedSpintax_with. rewrite Ho. simpl.
    rewrite (IH Hfirst). unfold push_products. simpl.
    rewrite app_nil_r, <- app_assoc. reflexivity.
Qed.

(** Without nesting the expander returns the combinations in canonical
    order, the rightmost segment varying fastest. *)
Lemma expand_flat (segments : segments_t) :
  flat segments = true ->
  forall fuel, length segments < fuel ->
  generateAllCombinations fuel segments = Returns (canonical segments).
Proof.
  induction segments as [|first rest IH]; intros Hflat fuel Hfuel;
    (destruct fuel as [|fuel]; [lia|]); [reflexivity|].
  simpl in Hflat. apply andb_prop in Hflat. destruct Hflat as [Hfirst Hrest].
  simpl. rewrite (IH Hrest fuel) by (simpl in Hfuel; lia). simpl.
  now rewrite expand_flat_options.
Qed.

(** ** The sampler: attempt budget *)

Lemma str_eqb_eq (a b : str) : str_eqb a b = true <-> a = b.
Proof.
  revert b. induction a as [|x a IH]; intros [|y b]; simpl;
    try (split; [discriminate | discriminate]); [tauto|].
  rewrite andb_true_iff, Ascii.eqb_eq, IH. split.
  - intros [-> ->]. reflexivity.
  - intros H. injection H as -> ->. auto.
Qed.

Lemma seen_has (v : str) (seen : list str) :
  existsb (str_eqb v) seen = true <-> In v seen.
Proof.
  rewrite existsb_exists. split.
  - intros (x & Hin & Heq). apply str_eqb_eq in Heq. now subst.
  - intros Hin. exists v. split; [assumption | now apply str_eqb_eq].
Qed.

Lemma mbind_returns {A B : Type} (m : M A) (f : A -> M B) (k k' : nat) (b : B) :
  mbind m f k = Returns (b, k') ->
  exists a k1, m k = Returns (a, k1) /\ f a k1 = Returns (b, k').
Proof.
  unfold mbind. destruct (m k) as [[a k1]| |]; try discriminate. eauto.
Qed.

(** One attempt that returns has counted itself and has either discarded
    its variation as already seen or pushed it. *)
Lemma attempt_returns (rnd : nat -> nat) (nested : list (list str) -> M (list str))
    (segments : segments_t) (st st' : sampler_state) (k k' : nat) :
  attempt rnd nested segments st k = Returns (st', k') ->
  exists variation,
    mfor_each segments (pick_option rnd nested) [] k = Returns (variation, k') /\
    attempts st' = S (attempts st) /\
    (In variation (seen st) /\
     results st' = results st /\ seen st' = seen st
     \/
     ~ In variation (seen st) /\
     results st' = results st ++ [variation] /\
     seen st' = seen st ++ [variation]).
Proof.
  unfold attempt. intros H.
  apply mbind_returns in H. destruct H as (variation & k1 & Hfor & H).
  exists variation.
  destruct (existsb (str_eqb variation) (seen st)) eqn:E;
    unfold ret in H; injection H as <- <-; simpl.
  - apply seen_has in E.
    split; [assumption|]. split; [reflexivity|]. left. auto.
  - assert (Hnot : ~ In variation (seen st)).
    { intros Hin. apply seen_has in Hin. congruence. }
    split; [assumption|]. split; [reflexivity|]. right. auto.
Qed.

(** The loop stays within its budget: it never makes more than
    [maxAttempts] attempts nor collects more than [count] results, and its
    results are pairwise distinct. *)
Lemma sample_loop_budget (rnd : nat -> nat)
    (nested : list (list str) -> M (list str)) (segments : segments_t)
    (count maxAttempts : Z) :
  forall gas st k st' k',
    sample_loop rnd gas nested segments count maxAttempts st k = Returns (st', k') ->
    seen st = results st -> NoDup (results st) ->
    (Z.of_nat (attempts st') <= Z.max (Z.of_nat (attempts st)) maxAttempts)%Z /\
    (Z.of_nat (length (results st'))
     <= Z.max (Z.of_nat (length (results st))) count)%Z /\
    seen st' = results st' /\ NoDup (results st').
Proof.
  induction gas as [|gas IH]; intros st k st' k' H Hseen Hnd.
  - simpl in H.
    destruct ((Z.of_nat (length (results st)) <? count)%Z
              && (Z.of_nat (attempts st) <? maxAttempts)%Z); [discriminate|].
    unfold ret in H. injection H as <- <-. repeat split; auto; lia.
  - rewrite sample_loop_step in H.
    destruct ((Z.of_nat (length (results st)) <? count)%Z
              && (Z.of_nat (attempts st) <? maxAttempts)%Z) eqn:Econd.
    + apply andb_prop in Econd. destruct Econd as [Ec Ea].
      apply Z.ltb_lt in Ec. apply Z.ltb_lt in Ea.
      apply mbind_returns in H. destruct H as (st1 & k1 & Hatt & Hloop).
      destruct (attempt_returns _ _ _ _ _ _ _ Hatt) as (v & _ & Hcnt & Hres).
      assert (Hinv : seen st1 = results st1 /\ NoDup (results st1) /\
                     length (results st1) <= S (length (results st))).
      { destruct Hres as [(_ & Hr & Hs) | (Hv & Hr & Hs)].
        - rewrite Hr, Hs. repeat split; auto.
        - rewrite Hr, Hs, Hseen. repeat split.
          + apply NoDup_app; [assumption | repeat constructor; auto |].
            intros x Hx [<- | []]. apply Hv. now rewrite Hseen.
          + rewrite length_app. simpl. lia. }
      destruct Hinv as (Hseen1 & Hnd1 & Hlen1).
      destruct (IH _ _ _ _ Hloop Hseen1 Hnd1) as (Ha' & Hr' & Hs' & Hn').
      repeat split; auto; lia.
    + unfold ret in H. injection H as <- <-. repeat split; auto; lia.
Qed.

(** The gas given to the loop is never what stops it: the loop can only
    fail to return because an attempt does. *)
Lemma sample_loop_gas (rnd : nat -> nat)
    (nested : list (list str) -> M (list str)) (segments : segments_t)
    (count maxAttempts : Z) :
  forall gas st k,
    Z.to_nat (maxAttempts - Z.of_nat (attempts st)) <= gas ->
    sample_loop rnd gas nested segments count maxAttempts st k = OutOfFuel ->
    exists st1 k1, attempt rnd nested segments st1 k1 = OutOfFuel.
Proof.
  induction gas as [|gas IH]; intros st k Hgas H.
  - simpl in H.
    destruct ((Z.of_nat (length (results st)) <? count)%Z
              && (Z.of_nat (attempts st) <? maxAttempts)%Z) eqn:Econd;
      [|discriminate].
    apply andb_prop in Econd. destruct Econd as [_ Ea].
    apply Z.ltb_lt in Ea. lia.
  - rewrite sample_loop_step in H.
    destruct ((Z.of_nat (length (results st)) <? count)%Z
              && (Z.of_nat (attempts st) <? maxAttempts)%Z); [|discriminate].
    unfold mbind in H.
    destruct (attempt rnd nested segments st k) as [[st1 k1]| |] eqn:Hatt;
      [|discriminate|eauto].
    destruct (attempt_returns _ _ _ _ _ _ _ Hatt) as (v & _ & Hcnt & _).
    apply (IH st1 k1); [rewrite Hcnt; lia | exact H].
Qed.

(** The sampler returns at most [count] pairwise distinct strings. *)
Lemma sampler_budget (rnd : nat -> nat) (fuel : nat) (segments : segments_t)
    (count : Z) (k k' : nat) (rs : list str) :
  generateRandomVariations rnd fuel segments count k = Returns (rs, k') ->
  (Z.of_nat (length rs) <= Z.max 0 count)%Z /\ NoDup rs.
Proof.
  destruct fuel as [|fuel]; [discriminate|].
  rewrite generateRandomVariations_step. intros H.
  apply mbind_returns in H. destruct H as (st & k1 & Hloop & Hret).
  unfold ret in Hret. injection Hret as <- <-.
  destruct (sample_loop_budget _ _ _ _ _ _ _ _ _ _ Hloop eq_refl (NoDup_nil _))
    as (_ & Hr & _ & Hnd).
  simpl in Hr. auto.
Qed.

(** ** The sampler against the expander *)

Lemma generateAllCombinations_deterministic (f1 f2 : nat) (segments : segments_t)
    (l1 l2 : list str) :
  generateAllCombinations f1 segments = Returns l1 ->
  generateAllCombinations f2 segments = Returns l2 ->
  l1 = l2.
Proof.
  intros H1 H2.
  pose proof (generateAllCombinations_mono _ _ _ H1 _ (Nat.le_max_l f1 f2)) as E1.
  pose proof (generateAllCombinations_mono _ _ _ H2 _ (Nat.le_max_r f1 f2)) as E2.
  congruence.
Qed.

Lemma processNestedSpintax_deterministic (f1 f2 : nat) (o : str)
    (l1 l2 : list str) :
  processNestedSpintax f1 o = Returns l1 ->
  processNestedSpintax f2 o = Returns l2 ->
  l1 = l2.
Proof.
  unfold processNestedSpintax, processNestedSpintax_with.
  destruct (negb (includes lbrace o)); [congruence|].
  apply generateAllCombinations_deterministic.
Qed.

(** What the loop over the options of the first segment pushes. *)
Lemma expand_options_member (fuel : nat) (restC : list str) (first : list str) :
  forall results l,
    for_each first (expand_option (generateAllCombinations fuel) restC) results
    = Returns l ->
    (forall x, In x results -> In x l) /\
    (forall o, In o first ->
       exists processed,
         processNestedSpintax fuel o = Returns processed /\
         forall piece r, In piece processed -> In r restC -> In (piece ++ r) l).
Proof.
  induction first as [|o first IH]; intros results l H; simpl in H.
  - injection H as <-. split; [auto | intros o []].
  - apply obind_returns in H. destruct H as (results' & Hopt & Hrest).
    unfold expand_option in Hopt.
    apply obind_returns in Hopt. destruct Hopt as (processed & Hp & Hpush).
    injection Hpush as <-.
    destruct (IH _ _ Hrest) as (Hkeep & Hmem).
    split.
    + intros x Hx. apply Hkeep. unfold push_products.
      apply in_or_app. now left.
    + intros o' [<- | Hin]; [|now apply Hmem].
      exists processed. split; [exact Hp|].
      intros piece r Hpiece Hr. apply Hkeep. unfold push_products.
      apply in_or_app. right. apply in_flat_map. exists piece.
      split; [assumption|]. apply in_map_iff. eauto.
Qed.

(** A string put together from one expanded alternative per segment is a
    member of the expansion. *)
Lemma expansion_member :
  forall segments fuel allc pieces,
    generateAllCombinations fuel segments = Returns allc ->
    Forall2 piece_ok segments pieces ->
    In (concat pieces) allc.
Proof.
  induction segments as [|first rest IH]; intros fuel allc pieces H Hp;
    (destruct fuel as [|fuel]; [discriminate|]).
  - injection H as <-. inversion Hp; subst. now left.
  - inversion Hp as [|? piece ? pieces' (f0 & o & processed & Ho & Hproc & Hpiece)
                      Hrest]; subst.
    simpl in H. apply obind_returns in H. destruct H as (restC & Hr & Hfor).
    destruct (expand_options_member _ _ _ _ _ Hfor) as (_ & Hmem).
    destruct (Hmem o Ho) as (processed' & Hproc' & Hin).
    rewrite (processNestedSpintax_deterministic _ _ _ _ _ Hproc Hproc') in Hpiece.
    simpl. apply Hin; [assumption|]. now apply (IH fuel).
Qed.

(** When the expander returns, it has expanded every alternative. *)
Lemma expansion_options_return :
  forall segments fuel allc,
    generateAllCombinations fuel segments = Returns allc ->
    forall seg o, In seg segments -> In o seg ->
    exists f0 processed, processNestedSpintax f0 o = Returns processed.
Proof.
  induction segments as [|first rest IH]; intros fuel allc H seg o Hseg Ho;
    [contradiction|].
  destruct fuel as [|fuel]; [discriminate|].
  simpl in H. apply obind_returns in H. destruct H as (restC & Hr & Hfor).
  destruct Hseg as [<- | Hseg].
  - destruct (expand_options_member _ _ _ _ _ Hfor) as (_ & Hmem).
    destruct (Hmem o Ho) as (processed & Hp & _). eauto.
  - now apply (IH fuel restC Hr seg o).
Qed.

(** Asked for one variation, the sampler returns exactly one. *)
Lemma sampler_one (rnd : nat -> nat) (fuel : nat) (segments : segments_t)
    (k k' : nat) (rs : list str) :
  generateRandomVariations rnd (S fuel) segments 1%Z k = Returns (rs, k') ->
  exists variation,
    rs = [variation] /\
    mfor_each segments
      (pick_option rnd (fun nestedSegments =>
                          generateRandomVariations rnd fuel nestedSegments 1%Z))
      [] k = Returns (variation, k').
Proof.
  rewrite generateRandomVariations_step.
  change (Z.to_nat (1 * 10)) with 10.
  rewrite sample_loop_step. intros H.
  apply mbind_returns in H. destruct H as (st & k1 & Hloop & Hret).
  unfold ret in Hret. injection Hret as <- <-.
  cbn [results attempts length Z.of_nat Z.ltb Z.compare Z.mul
       Pos.mul Pos.compare Pos.compare_cont andb] in Hloop.
  apply mbind_returns in Hloop. destruct Hloop as (st1 & k2 & Hatt & Hloop).
  destruct (attempt_returns _ _ _ _ _ _ _ Hatt) as (v & Hfor & _ & Hres).
  destruct Hres as [([] & _) | (_ & Hr & _)].
  simpl in Hr.
  rewrite sample_loop_step, Hr in Hloop. simpl in Hloop.
  unfold ret in Hloop. injection Hloop as <- <-.
  exists v. rewrite Hr. auto.
Qed.

Lemma or_else_nonempty (s d : str) : s <> [] -> or_else (Some s) d = s.
Proof. destruct s; [congruence | reflexivity]. Qed.

(** On a samplable template every string the sampler returns is a member of
    the expansion. *)
Lemma sampler_sound (rnd : nat -> nat) :
  forall fuel segments,
    samplable segments ->
    forall count k rs k',
      generateRandomVariations rnd fuel segments count k = Returns (rs, k') ->
      forall fuel' allc,
        generateAllCombinations fuel' segments = Returns allc ->
        incl rs allc.
Proof.
  induction fuel as [|fuel IH]; intros segments Hs count k rs k' H fuel' allc Hall;
    [discriminate|].
  (* every variation built by the inner loop is made of expanded pieces *)
  assert (Hpieces : forall segs, incl segs segments ->
            forall v k1 v' k2,
              mfor_each segs
                (pick_option rnd (fun nestedSegments =>
                   generateRandomVariations rnd fuel nestedSegments 1%Z))
                v k1 = Returns (v', k2) ->
              exists pieces, v' = v ++ concat pieces /\ Forall2 piece_ok segs pieces).
  { induction segs as [|seg segs IHs]; intros Hincl v k1 v' k2 Hfor.
    - simpl in Hfor. unfold ret in Hfor. injection Hfor as <- <-.
      exists []. split; [now rewrite app_nil_r | constructor].
    - simpl in Hfor.
      apply mbind_returns in Hfor. destruct Hfor as (v1 & k3 & Hpick & Hfor).
      destruct (IHs (fun x Hx => Hincl x (or_intror Hx)) _ _ _ _ Hfor)
        as (pieces & -> & Hp).
      assert (Hseg : In seg segments) by (apply Hincl; now left).
      unfold pick_option in Hpick.
      apply mbind_returns in Hpick. destruct Hpick as (i & k4 & _ & Hpick).
      destruct (nth_error seg i) as [o|] eqn:Enth; [|discriminate].
      assert (Ho : In o seg) by (eapply nth_error_In; eauto).
      assert (Hpiece : exists piece, v1 = v ++ piece /\ piece_ok seg piece).
      { destruct (includes lbrace o) eqn:Einc.
        - apply mbind_returns in Hpick.
          destruct Hpick as (nv & k5 & Hnested & Hret).
          unfold ret in Hret. injection Hret as <- <-.
          destruct (expansion_options_return _ _ _ Hall seg o Hseg Ho)
            as (f0 & processed & Hproc).
          pose proof Hproc as Hproc'.
          unfold processNestedSpintax, processNestedSpintax_with in Hproc'.
          rewrite Einc in Hproc'. simpl in Hproc'.
          inversion Hs as [? _ Hne Hsub]; subst.
          destruct fuel as [|fuel0]; [discriminate|].
          destruct (sampler_one _ _ _ _ _ _ Hnested) as (s & -> & _).
          assert (Hin : In s processed).
          { apply (IH _ (Hsub seg o Hseg Ho Einc) _ _ _ _ Hnested _ _ Hproc').
            now left. }
          assert (Hnonempty : s <> []).
          { intros ->. apply (Hne seg o Hseg Ho Einc _ _ Hproc' Hin). }
          exists s. simpl nth_error. rewrite (or_else_nonempty _ _ Hnonempty).
          split; [reflexivity|]. exists f0, o, processed. auto.
        - unfold ret in Hpick. injection Hpick as <- <-.
          exists o. split; [reflexivity|]. exists 0, o, [o].
          repeat split; [assumption | | now left].
          unfold processNestedSpintax, processNestedSpintax_with.
          now rewrite Einc. }
      destruct Hpiece as (piece & -> & Hok).
      exists (piece :: pieces). split; [simpl; now rewrite <- app_assoc|].
      now constructor. }
  (* the loop keeps that invariant *)
  assert (Hloop : forall gas st k1 st' k2,
            sample_loop rnd gas
              (fun nestedSegments => generateRandomVariations rnd fuel nestedSegments 1%Z)
              segments count (count * 10)%Z st k1 = Returns (st', k2) ->
            incl (results st) allc -> incl (results st') allc).
  { induction gas as [|gas IHg]; intros st k1 st' k2 Hl Hincl.
    - simpl in Hl.
      destruct ((Z.of_nat (length (results st)) <? count)%Z
                && (Z.of_nat (attempts st) <? count * 10)%Z); [discriminate|].
      unfold ret in Hl. injection Hl as <- <-. assumption.
    - rewrite sample_loop_step in Hl.
      destruct ((Z.of_nat (length (results st)) <? count)%Z
                && (Z.of_nat (attempts st) <? count * 10)%Z).
      + apply mbind_returns in Hl. destruct Hl as (st1 & k3 & Hatt & Hl).
        apply (IHg _ _ _ _ Hl).
        destruct (attempt_returns _ _ _ _ _ _ _ Hatt) as (v & Hfor & _ & Hres).
        destruct Hres as [(_ & -> & _) | (_ & -> & _)]; [assumption|].
        apply incl_app; [assumption|].
        intros x [<- | []].
        destruct (Hpieces segments (incl_refl _) _ _ _ _ Hfor) as (pieces & -> & Hp).
        simpl. now apply (expansion_member segments fuel').
      + unfold ret in Hl. injection Hl as <- <-. assumption. }
  rewrite generateRandomVariations_step in H.
  apply mbind_returns in H. destruct H as (st & k1 & Hl & Hret).
  unfold ret in Hret. injection Hret as <- <-.
  apply (Hloop _ _ _ _ _ Hl). intros x [].
Qed.

(** On a balanced or otherwise samplable template whose expansion does not
    contain the empty string, [spin] returns a member of the expansion. *)
Lemma spin_sound (rnd : nat -> nat) (fuel fuel' : nat) (text : str) (k k' : nat)
    (s : str) (allc : list str) :
  samplable (parseSpintax text) ->
  generateAllCombinations fuel' (parseSpintax text) = Returns allc ->
  ~ In [] allc ->
  spin rnd fuel text k = Returns (s, k') ->
  In s allc.
Proof.
  intros Hs Hall Hne H. unfold spin in H.
  apply mbind_returns in H. destruct H as (rs & k1 & Hgen & Hret).
  unfold ret in Hret. injection Hret as <- <-.
  pose proof (sampler_sound rnd _ _ Hs _ _ _ _ Hgen _ _ Hall) as Hincl.
  destruct fuel as [|fuel0]; [discriminate|].
  destruct (sampler_one _ _ _ _ _ _ Hgen) as (v & -> & _).
  assert (Hv : In v allc) by (apply Hincl; now left).
  simpl nth_error. rewrite or_else_nonempty; [assumption|].
  intros ->. contradiction.
Qed.

(** ** The sampler returns on pickable templates *)

Lemma uniform_bound {A : Type} (l : list A) (R : A -> nat -> Prop) :
  (forall x, In x l -> exists f, forall fuel, f <= fuel -> R x fuel) ->
  exists F, forall x, In x l -> forall fuel, F <= fuel -> R x fuel.
Proof.
  induction l as [|x l IH]; intros H.
  - exists 0. intros x [].
  - destruct IH as [F HF]; [intros y Hy; apply H; now right|].
    destruct (H x (or_introl eq_refl)) as [f Hf].
    exists (Nat.max f F). intros y [<- | Hy] fuel Hle.
    + apply Hf. lia.
    + apply HF; [assumption | lia].
Qed.

Lemma mfor_each_returns {A S : Type} (l : list A) (body : S -> A -> M S) :
  (forall x, In x l -> forall s k, exists s' k', body s x k = Returns (s', k')) ->
  forall s k, exists s' k', mfor_each l body s k = Returns (s', k').
Proof.
  induction l as [|x l IH]; intros H s k; simpl.
  - unfold ret. eauto.
  - destruct (H x (or_introl eq_refl) s k) as (s1 & k1 & H1).
    unfold mbind. rewrite H1. apply IH. intros y Hy. apply H. now right.
Qed.

Lemma pick_option_returns (rnd : nat -> nat)
    (nested : list (list str) -> M (list str)) (segment : list str) :
  segment <> [] ->
  (forall o, In o segment -> includes lbrace o = true ->
     forall k, exists nv k', nested (parseSpintax o) k = Returns (nv, k')) ->
  forall variation k,
    exists variation' k',
      pick_option rnd nested variation segment k = Returns (variation', k').
Proof.
  intros Hne Hnested variation k. unfold pick_option, mbind, randomIndex.
  assert (Hlen : length segment <> 0) by (destruct segment; simpl; congruence).
  destruct (length segment =? 0) eqn:E; [apply Nat.eqb_eq in E; lia|].
  pose proof (Nat.mod_upper_bound (rnd k) (length segment) Hlen) as Hlt.
  destruct (nth_error segment (rnd k mod length segment)) as [o|] eqn:Enth;
    [|apply nth_error_None in Enth; lia].
  destruct (includes lbrace o) eqn:Einc.
  - destruct (Hnested o (nth_error_In _ _ Enth) Einc (S k)) as (nv & k' & ->).
    unfold ret. eauto.
  - unfold ret. eauto.
Qed.

Lemma sample_loop_returns (rnd : nat -> nat)
    (nested : list (list str) -> M (list str)) (segments : segments_t)
    (count maxAttempts : Z) :
  (forall st k, exists st' k', attempt rnd nested segments st k = Returns (st', k')) ->
  forall gas st k,
    Z.to_nat (maxAttempts - Z.of_nat (attempts st)) <= gas ->
    exists st' k',
      sample_loop rnd gas nested segments count maxAttempts st k = Returns (st', k').
Proof.
  intros Hatt. induction gas as [|gas IH]; intros st k Hgas.
  - simpl.
    destruct ((Z.of_nat (length (results st)) <? count)%Z
              && (Z.of_nat (attempts st) <? maxAttempts)%Z) eqn:Econd.
    + apply andb_prop in Econd. destruct Econd as [_ Ea].
      apply Z.ltb_lt in Ea. lia.
    + unfold ret. eauto.
  - rewrite sample_loop_step.
    destruct ((Z.of_nat (length (results st)) <? count)%Z
              && (Z.of_nat (attempts st) <? maxAttempts)%Z); [|unfold ret; eauto].
    destruct (Hatt st k) as (st1 & k1 & H1).
    unfold mbind. rewrite H1.
    destruct (attempt_returns _ _ _ _ _ _ _ H1) as (_ & _ & Hcnt & _).
    apply IH. rewrite Hcnt. lia.
Qed.

(** On a pickable template the sampler returns, for every count and every
    random source: it neither throws nor recurses without end, and (by
    [sample_loop_budget]) it stops within its attempt budget. *)
Lemma sampler_returns (rnd : nat -> nat) (segments : segments_t) :
  pickable segments ->
  exists fuel0,
    forall fuel, fuel0 <= fuel ->
    forall count k,
      exists rs k',
        generateRandomVariations rnd fuel segments count k = Returns (rs, k').
Proof.
  induction 1 as [segments Hne _ IH].
  destruct (uniform_bound (concat segments)
              (fun o fuel => includes lbrace o = true ->
                 forall count k, exists rs k',
                   generateRandomVariations rnd fuel (parseSpintax o) count k
                   = Returns (rs, k')))
    as [F HF].
  { intros o Ho. apply in_concat in Ho. destruct Ho as (seg & Hseg & Ho).
    destruct (includes lbrace o) eqn:Einc.
    - destruct (IH seg o Hseg Ho Einc) as [f Hf]. exists f. auto.
    - exists 0. intros fuel _ Habs. discriminate. }
  exists (S F). intros fuel Hle count k.
  destruct fuel as [|fuel]; [lia|].
  rewrite generateRandomVariations_step.
  destruct (sample_loop_returns rnd
              (fun nestedSegments => generateRandomVariations rnd fuel nestedSegments 1%Z)
              segments count (count * 10)%Z) with
      (gas := Z.to_nat (count * 10))
      (st := {| results := []; seen := []; attempts := 0 |}) (k := k)
    as (st' & k' & Hloop).
  - intros st k1. unfold attempt.
    destruct (mfor_each_returns segments
                (pick_option rnd (fun nestedSegments =>
                   generateRandomVariations rnd fuel nestedSegments 1%Z)))
      with (s := @nil ascii) (k := k1) as (v & k2 & Hv).
    + intros seg Hseg. apply pick_option_returns; [now apply Hne|].
      intros o Ho Einc k3.
      apply (HF o); [apply in_concat; eauto | lia | assumption].
    + unfold mbind. rewrite Hv.
      destruct (existsb (str_eqb v) (seen st)); unfold ret; eauto.
  - simpl. lia.
  - unfold mbind. rewrite Hloop. unfold ret. eauto.
Qed.

Lemma samplable_pickable (segments : segments_t) :
  samplable segments -> pickable segments.
Proof. induction 1 as [segments Hne _ _ IH]. now constructor. Qed.

(** ** Worked examples of the sampler *)

Example pickable_ex : pickable (parseSpintax (lit "{A|B {1|2}} x")).
Proof.
  constructor.
  - intros seg Hseg. simpl in Hseg.
    destruct Hseg as [<- | [<- | []]]; discriminate.
  - intros seg o Hseg Ho Hinc. simpl in Hseg.
    destruct Hseg as [<- | [<- | []]]; simpl in Ho.
    + destruct Ho as [<- | [<- | []]]; [discriminate|].
      constructor.
      * intros seg Hseg. simpl in Hseg.
        destruct Hseg as [<- | [<- | []]]; discriminate.
      * intros seg o Hseg Ho Hinc'. simpl in Hseg.
        destruct Hseg as [<- | [<- | []]]; simpl in Ho;
          repeat (destruct Ho as [<- | Ho]; [discriminate|]); contradiction.
    + destruct Ho as [<- | []]. discriminate.
Qed.

Example samplable_ex : samplable (parseSpintax (lit "{A|B {1|2}}")).
Proof.
  constructor.
  - intros seg [<- | []]. discriminate.
  - intros seg o [<- | []] Ho Hinc fuel l Hl. simpl in Ho.
    destruct Ho as [<- | [<- | []]]; [discriminate|].
    assert (E : generateAllCombinations 3 (parseSpintax (lit "B {1|2}"))
                = Returns [lit "B 1"; lit "B 2"]) by reflexivity.
    rewrite (generateAllCombinations_deterministic _ _ _ _ _ Hl E).
    intros [H | [H | []]]; discriminate.
  - intros seg o [<- | []] Ho Hinc. simpl in Ho.
    destruct Ho as [<- | [<- | []]]; [discriminate|].
    constructor.
    + intros seg Hseg. simpl in Hseg.
      destruct Hseg as [<- | [<- | []]]; discriminate.
    + intros seg o Hseg Ho Hinc' fuel l. simpl in Hseg.
      destruct Hseg as [<- | [<- | []]]; simpl in Ho;
        repeat (destruct Ho as [<- | Ho]; [discriminate|]); contradiction.
    + intros seg o Hseg Ho Hinc'. simpl in Hseg.
      destruct Hseg as [<- | [<- | []]]; simpl in Ho;
        repeat (destruct Ho as [<- | Ho]; [discriminate|]); contradiction.
Qed.

(** The test "should handle nested spintax" of the repository, for every
    random source. *)
Example spin_nested_ex (rnd : nat -> nat) (fuel k k' : nat) (s : str) :
  spin rnd fuel (lit "{A|B {1|2}}") k = Returns (s, k') ->
  In s [lit "A"; lit "B 1"; lit "B 2"].
Proof.
  apply (spin_sound rnd fuel 4 (lit "{A|B {1|2}}") k k' s).
  - apply samplable_ex.
  - reflexivity.
  - intros [H | [H | [H | []]]]; discriminate.
Qed.

(** An optional word, written as a group with an empty first alternative:
    whenever the empty alternative is drawn, [spin] returns the template
    with its braces instead of the empty string. *)
Lemma spin_optional_word (rnd : nat -> nat) (fuel k : nat) :
  rnd k mod 2 = 0 ->
  spin rnd (S fuel) (lit "{|Hi}") k = Returns (lit "{|Hi}", S k).
Proof.
  intros Hdraw. unfold spin, mbind.
  change (parseSpintax (lit "{|Hi}")) with [[@nil ascii; lit "Hi"]].
  rewrite generateRandomVariations_step.
  change (Z.to_nat (1 * 10)) with 10.
  rewrite sample_loop_step.
  unfold mbind at 1. cbn [results attempts length Z.of_nat Z.ltb Z.compare Z.mul
                          Pos.mul Pos.compare Pos.compare_cont andb].
  unfold mbind at 1. unfold attempt at 1. unfold mbind at 1.
  cbn [mfor_each]. unfold mbind at 1. unfold pick_option at 1.
  unfold mbind at 1. cbn [length]. unfold randomIndex at 1.
  cbn [Nat.eqb]. rewrite Hdraw.
  reflexivity.
Qed.

(** * Further properties of the code *)

(** ** The scanner as a recursive function of the text *)

Lemma first_brace_unique (c : ascii) (pre1 pre2 r1 r2 : str) :
  pre1 ++ c :: r1 = pre2 ++ c :: r2 ->
  includes c pre1 = false -> includes c pre2 = false ->
  pre1 = pre2 /\ r1 = r2.
Proof.
  revert pre2. induction pre1 as [|x pre1 IH]; intros [|y pre2] H H1 H2; simpl in H.
  - injection H as ->. auto.
  - injection H as <- _. rewrite includes_cons, Ascii.eqb_refl in H2. discriminate.
  - injection H as -> _. rewrite includes_cons, Ascii.eqb_refl in H1. discriminate.
  - injection H as -> H.
    rewrite includes_cons in H1, H2.
    apply orb_false_iff in H1. apply orb_false_iff in H2.
    destruct (IH pre2 H (proj2 H1) (proj2 H2)) as [-> ->]. auto.
Qed.

Lemma app_same_length {A : Type} (a b x y : list A) :
  a ++ x = b ++ y -> length a = length b -> a = b /\ x = y.
Proof.
  revert b. induction a as [|u a IH]; intros [|v b] H Hl; simpl in *;
    try discriminate; [auto|].
  injection H as -> H. injection Hl as Hl.
  destruct (IH b H Hl) as [-> ->]. auto.
Qed.

(** The inner scan stops on the closing brace that ends balanced content. *)
Lemma scanClose_group (content post : str) :
  forall cb d, (0 < d)%Z -> validate_loop content (d - 1) = true ->
  scanClose (content ++ rbrace :: post) cb d = (cb + length content + 1, 0%Z).
Proof.
  induction content as [|ch content IH]; intros cb d Hd Hv.
  - simpl in Hv. apply Z.eqb_eq in Hv.
    simpl app. rewrite scanClose_step.
    destruct (0 <? d)%Z eqn:E; [|apply Z.ltb_ge in E; lia].
    rewrite delta_rbrace. replace (d + -1)%Z with 0%Z by lia.
    rewrite scanClose_zero. simpl. f_equal. lia.
  - rewrite validate_loop_step in Hv.
    destruct (d - 1 + delta ch <? 0)%Z eqn:Eneg; [discriminate|].
    apply Z.ltb_ge in Eneg.
    simpl app. rewrite scanClose_step.
    destruct (0 <? d)%Z eqn:E; [|apply Z.ltb_ge in E; lia].
    rewrite IH.
    + simpl. f_equal. lia.
    + lia.
    + replace (d + delta ch - 1)%Z with (d - 1 + delta ch)%Z by lia. exact Hv.
Qed.

Lemma group_unique (c1 c2 p1 p2 : str) :
  c1 ++ rbrace :: p1 = c2 ++ rbrace :: p2 ->
  validate c1 = true -> validate c2 = true ->
  c1 = c2 /\ p1 = p2.
Proof.
  intros H H1 H2.
  pose proof (scanClose_group c1 p1 0 1%Z ltac:(lia) H1) as E1.
  pose proof (scanClose_group c2 p2 0 1%Z ltac:(lia) H2) as E2.
  rewrite H, E2 in E1. injection E1 as E.
  destruct (app_same_length c1 c2 (rbrace :: p1) (rbrace :: p2) H ltac:(lia))
    as [-> Hp].
  injection Hp as ->. auto.
Qed.

(** The result of one iteration is determined by the text after the cursor
    alone. *)
Lemma iter_view_unique (text : str) (segments : segments_t) (i : nat)
    (r1 r2 : iter_result) :
  iter_view text segments i r1 -> iter_view text segments i r2 -> r1 = r2.
Proof.
  intros V1 V2.
  destruct V1 as [T1 | pre1 post1 S1 P1 O1 | pre1 c1 post1 S1 P1 C1];
    destruct V2 as [T2 | pre2 post2 S2 P2 O2 | pre2 c2 post2 S2 P2 C2];
    try reflexivity;
    try (rewrite S2, includes_app, includes_cons, Ascii.eqb_refl, orb_true_r in T1;
         discriminate);
    try (rewrite S1, includes_app, includes_cons, Ascii.eqb_refl, orb_true_r in T2;
         discriminate);
    rewrite S1 in S2; destruct (first_brace_unique _ _ _ _ _ S2 P1 P2) as [<- E].
  - subst post2. reflexivity.
  - subst post1. rewrite balanced_group_closed in O1 by assumption. discriminate.
  - subst post2. rewrite balanced_group_closed in O2 by assumption. discriminate.
  - destruct (group_unique _ _ _ _ E C1 C2) as [<- <-]. reflexivity.
Qed.

Lemma with_literal_from_nil (segments : segments_t) (pre : str) :
  with_literal segments pre = segments ++ with_literal [] pre.
Proof. destruct pre; simpl; [now rewrite app_nil_r | reflexivity]. Qed.

Lemma skipn_past {A : Type} (text a b : list A) (i : nat) :
  skipn i text = a ++ b -> skipn (i + length a) text = b.
Proof.
  intros H. rewrite Nat.add_comm, <- skipn_skipn, H, skipn_app, skipn_all, Nat.sub_diag.
  reflexivity.
Qed.

(** The loop started in any state appends to its segments the parse of the
    text after the cursor. *)
Lemma parse_loop_suffix :
  forall n text segments i fuel,
    length text - i <= n -> length text - i <= fuel ->
    parse_loop fuel text segments i = Some (segments ++ parseSpintax (skipn i text)).
Proof.
  induction n as [|n IH]; intros text segments i fuel Hn Hfuel.
  - assert (Hs : skipn i text = []) by (apply skipn_all2; lia).
    rewrite Hs. change (parseSpintax []) with (@nil (list (list ascii))).
    rewrite app_nil_r.
    destruct fuel; simpl;
      (destruct (i <? length text) eqn:E; [apply Nat.ltb_lt in E; lia | reflexivity]).
  - destruct (Nat.le_gt_cases (length text) i) as [Hge | Hlt].
    { apply (IH text segments i fuel); lia. }
    destruct fuel as [|fuel]; [lia|].
    set (s := skipn i text).
    assert (Hslen : length s = length text - i) by apply length_skipn.
    (* the first iteration on [text] and on the suffix [s] *)
    pose proof (parse_iter_view text segments i) as V.
    pose proof (parse_iter_view s [] 0) as Vs.
    assert (Hparse : parseSpintax s =
              match parse_iter s [] 0 with
              | Break out => out
              | Continue segs' j => segs' ++ parseSpintax (skipn j s)
              end).
    { unfold parseSpintax at 1.
      destruct (length s) as [|ls] eqn:El; [lia|].
      cbn [parse_loop]. rewrite El.
      change (0 <? S ls) with true. cbv iota.
      pose proof (parse_iter_progress s [] 0) as Hp.
      destruct (parse_iter s [] 0) as [segs' j|out]; [|reflexivity].
      rewrite (IH s segs' j ls); [reflexivity | lia | lia]. }
    simpl. destruct (i <? length text) eqn:E; [|apply Nat.ltb_ge in E; lia].
    pose proof (parse_iter_progress text segments i) as Hp.
    inversion Vs as [Ts Es | pre post Ss Ps Os Es | pre c post Ss Ps Cs Es];
      cbn [skipn] in *.
    + rewrite <- Es in Hparse.
      rewrite (iter_view_unique _ _ _ _ _ V (view_tail text segments i Ts)).
      rewrite Hparse. reflexivity.
    + rewrite <- Es in Hparse.
      rewrite (iter_view_unique _ _ _ _ _ V
                 (view_unmatched text segments i pre post Ss Ps Os)) in Hp |- *.
      rewrite (IH text _ _ fuel) by lia.
      rewrite Hparse. f_equal.
      rewrite (with_literal_from_nil segments pre), <- !app_assoc.
      do 3 f_equal.
      replace (i + length pre + 1) with (i + length (pre ++ [lbrace]))
        by (rewrite length_app; simpl; lia).
      replace (length pre + 1) with (0 + length (pre ++ [lbrace]))
        by (rewrite length_app; simpl; lia).
      rewrite (skipn_past text (pre ++ [lbrace]) post i)
        by (rewrite <- app_assoc; exact Ss).
      rewrite (skipn_past s (pre ++ [lbrace]) post 0)
        by (rewrite <- app_assoc; exact Ss).
      reflexivity.
    + rewrite <- Es in Hparse.
      rewrite (iter_view_unique _ _ _ _ _ V
                 (view_group text segments i pre c post Ss Ps Cs)) in Hp |- *.
      rewrite (IH text _ _ fuel) by lia.
      rewrite Hparse. f_equal.
      rewrite (with_literal_from_nil segments pre), <- !app_assoc.
      do 3 f_equal.
      replace (i + length pre + length c + 2)
        with (i + length (pre ++ lbrace :: c ++ [rbrace]))
        by (rewrite length_app; simpl; rewrite length_app; simpl; lia).
      replace (length pre + length c + 2)
        with (0 + length (pre ++ lbrace :: c ++ [rbrace]))
        by (rewrite length_app; simpl; rewrite length_app; simpl; lia).
      assert (Hs' : pre ++ lbrace :: c ++ rbrace :: post
                    = (pre ++ lbrace :: c ++ [rbrace]) ++ post)
        by (rewrite <- !app_assoc; simpl; rewrite <- app_assoc; reflexivity).
      rewrite (skipn_past text _ post i) by (rewrite <- Hs'; exact Ss).
      rewrite (skipn_past s _ post 0) by (rewrite <- Hs'; exact Ss).
      reflexivity.
Qed.

Lemma parseSpintax_unfold (text : str) (r : iter_result) :
  text <> [] ->
  iter_view text [] 0 r ->
  parseSpintax text =
  match r with
  | Break out => out
  | Continue segments j => segments ++ parseSpintax (skipn j text)
  end.
Proof.
  intros Hne V.
  pose proof (parseSpintax_loop text) as H.
  destruct (length text) as [|n] eqn:El; [destruct text; [congruence | discriminate]|].
  cbn [parse_loop] in H. rewrite El in H. change (0 <? S n) with true in H.
  cbv iota in H.
  rewrite (iter_view_unique _ _ _ _ _ (parse_iter_view text [] 0) V) in H.
  pose proof (parse_iter_progress text [] 0) as Hp.
  rewrite (iter_view_unique _ _ _ _ _ (parse_iter_view text [] 0) V) in Hp.
  destruct r as [segments j|out]; [|congruence].
  rewrite (parse_loop_suffix n text segments j n) in H by lia.
  congruence.
Qed.

(** X1. Text without an opening brace is a template with a single
    combination: it parses to itself as one literal segment (to no segment
    when it is empty), its expansion is the text alone, its count is [1],
    and [spin] returns it unchanged, whatever the random source.  A closing
    brace or a pipe in the text makes no difference. *)
Theorem X1_plain_text (rnd : nat -> nat) (text : str) (fuel k : nat) :
  includes lbrace text = false ->
  parseSpintax text = with_literal [] text /\
  generateAllCombinations (S (S fuel)) (parseSpintax text) = Returns [text] /\
  countCombinations (S fuel) (parseSpintax text) = Returns (Fin 1) /\
  extractOptions text = [] /\
  exists k', spin rnd (S fuel) text k = Returns (text, k').
Proof.
  intros Hplain.
  assert (Hparse : parseSpintax text = with_literal [] text).
  { destruct text as [|c text]; [reflexivity|].
    rewrite (parseSpintax_unfold (c :: text) (Break ([] ++ [[skipn 0 (c :: text)]])));
      [reflexivity | discriminate | now apply view_tail]. }
  split; [exact Hparse|].
  unfold extractOptions, spin. rewrite Hparse.
  destruct text as [|c text].
  - repeat split. exists k. reflexivity.
  - cbn [with_literal app].
    split.
    { cbn [generateAllCombinations for_each obind].
      unfold expand_option, processNestedSpintax_with. rewrite Hplain.
      cbn [negb obind push_products flat_map map app]. now rewrite app_nil_r. }
    split.
    { cbn [countCombinations for_each]. unfold count_segment.
      cbn [for_each]. unfold count_option. rewrite Hplain. reflexivity. }
    split; [reflexivity|].
    exists (S k). unfold mbind.
    rewrite generateRandomVariations_step.
    change (Z.to_nat (1 * 10)) with 10.
    rewrite sample_loop_step.
    unfold mbind at 1. cbn [results attempts length Z.of_nat Z.ltb Z.compare Z.mul
                            Pos.mul Pos.compare Pos.compare_cont andb].
    unfold mbind at 1. unfold attempt at 1. unfold mbind at 1.
    cbn [mfor_each]. unfold mbind at 1. unfold pick_option at 1.
    unfold mbind at 1. cbn [length].
    rewrite randomIndex_one. cbn [nth_error]. rewrite Hplain.
    reflexivity.
Qed.

Lemma X1_witness :
  includes lbrace (lit "Hello} wor|d") = false /\
  parseSpintax (lit "Hello} wor|d") = with_literal [] (lit "Hello} wor|d") /\
  generateAllCombinations 2 (parseSpintax (lit "Hello} wor|d"))
  = Returns [lit "Hello} wor|d"] /\
  countCombinations 1 (parseSpintax (lit "Hello} wor|d")) = Returns (Fin 1) /\
  extractOptions (lit "Hello} wor|d") = [] /\
  exists k', spin (fun n => n) 1 (lit "Hello} wor|d") 7
             = Returns (lit "Hello} wor|d", k').
Proof.
  split; [reflexivity|].
  apply (X1_plain_text (fun n => n) (lit "Hello} wor|d") 0 7). reflexivity.
Defined.

(** X2. The parse of a text that begins with literal text free of opening
    braces followed by a balanced group is: the literal (when not empty),
    then the alternatives of the group's content as split by
    [splitOptions], then the parse of what follows the group.  What
    precedes a group never influences how the rest is parsed. *)
Theorem X2_parse_group (pre content post : str) :
  includes lbrace pre = false ->
  validate content = true ->
  parseSpintax (pre ++ lbrace :: content ++ rbrace :: post)
  = with_literal [] pre ++ splitOptions content :: parseSpintax post.
Proof.
  intros Hpre Hval.
  set (text := pre ++ lbrace :: content ++ rbrace :: post).
  rewrite (parseSpintax_unfold text
             (Continue (with_literal [] pre ++ [splitOptions content])
                       (0 + length pre + length content + 2))).
  - rewrite <- app_assoc. cbn [app]. do 3 f_equal.
    replace (0 + length pre + length content + 2)
      with (0 + length (pre ++ lbrace :: content ++ [rbrace]))
      by (rewrite length_app; simpl; rewrite length_app; simpl; lia).
    apply skipn_past. unfold text.
    rewrite <- !app_assoc. simpl. rewrite <- app_assoc. reflexivity.
  - unfold text. destruct pre; discriminate.
  - now apply view_group with (post := post).
Qed.

Lemma X2_witness :
  includes lbrace (lit "Dear ") = false /\
  validate (lit "friend|{valued|esteemed} client") = true /\
  parseSpintax (lit "Dear " ++ lbrace :: lit "friend|{valued|esteemed} client"
                ++ rbrace :: lit ", hi")
  = with_literal [] (lit "Dear ")
    ++ splitOptions (lit "friend|{valued|esteemed} client")
    :: parseSpintax (lit ", hi").
Proof.
  split; [reflexivity|]. split; [reflexivity|].
  apply (X2_parse_group (lit "Dear ") (lit "friend|{valued|esteemed} client")
           (lit ", hi")); reflexivity.
Defined.

(** X3. The parse of a text whose first opening brace has no matching
    closing brace is: the literal text before the brace (when not empty),
    the brace as a one-character literal segment, and the parse of
    everything after the brace. *)
Theorem X3_parse_unmatched (pre post : str) :
  includes lbrace pre = false ->
  stays_open post 1%Z = true ->
  parseSpintax (pre ++ lbrace :: post)
  = with_literal [] pre ++ [[lbrace]] :: parseSpintax post.
Proof.
  intros Hpre Hopen.
  set (text := pre ++ lbrace :: post).
  rewrite (parseSpintax_unfold text
             (Continue (with_literal [] pre ++ [[[lbrace]]]) (0 + length pre + 1))).
  - rewrite <- app_assoc. cbn [app]. do 3 f_equal.
    replace (0 + length pre + 1) with (0 + length (pre ++ [lbrace]))
      by (rewrite length_app; simpl; lia).
    apply skipn_past. unfold text. rewrite <- app_assoc. reflexivity.
  - unfold text. destruct pre; discriminate.
  - now apply view_unmatched with (post := post).
Qed.

Lemma X3_witness :
  includes lbrace (lit "a}") = false /\
  stays_open (lit "b{c|d}e") 1%Z = true /\
  parseSpintax (lit "a}" ++ lbrace :: lit "b{c|d}e")
  = with_literal [] (lit "a}") ++ [[lbrace]] :: parseSpintax (lit "b{c|d}e").
Proof.
  split; [reflexivity|]. split; [reflexivity|].
  apply (X3_parse_unmatched (lit "a}") (lit "b{c|d}e")); reflexivity.
Defined.

(** ** The number of segments *)

Lemma with_literal_length (segments : segments_t) (pre : str) :
  length (with_literal segments pre) <= length segments + length pre.
Proof.
  destruct pre; simpl; [lia | rewrite length_app; simpl; lia].
Qed.

Lemma parse_run_count (text : str) :
  forall n segments i out,
    parse_run text n segments i out ->
    i <= length text ->
    length out + i <= length segments + length text.
Proof.
  induction 1 as [segments i Hge | segments i segments' Hlt Hit
                 | segments i segments' i' n out Hlt Hit _ IH]; intros Hi.
  - lia.
  - pose proof (parse_iter_view text segments i) as V. rewrite Hit in V.
    inversion V; subst. rewrite length_app. simpl. lia.
  - pose proof (parse_iter_progress text segments i) as Hp. rewrite Hit in Hp.
    specialize (IH ltac:(lia)).
    pose proof (parse_iter_view text segments i) as V. rewrite Hit in V.
    inversion V as [| pre post Hs _ _ Heq | pre content post Hs _ _ Heq]; subst;
      rewrite length_app in IH; simpl in IH;
      pose proof (with_literal_length segments pre); lia.
Qed.

(** X4. A text never parses to more segments than it has characters. *)
Theorem X4_segments_bounded (text : str) :
  length (parseSpintax text) <= length text.
Proof.
  destruct (parseSpintax_run text) as (n & _ & Hrun).
  pose proof (parse_run_count text _ _ _ _ Hrun ltac:(lia)) as H.
  simpl in H. lia.
Qed.

(** ** Splitting what was joined *)

Lemma delta_plain (ch : ascii) :
  Ascii.eqb ch lbrace = false -> Ascii.eqb ch rbrace = false -> delta ch = 0%Z.
Proof. unfold delta. now intros -> ->. Qed.

(** The loop of [splitOptions] runs through a whole alternative without
    splitting it. *)
Lemma splitOptions_loop_whole (o : str) :
  forall rest options current d,
    no_top_pipe o d = true ->
    splitOptions_loop (o ++ rest) options current d
    = splitOptions_loop rest options (current ++ o) (d + depth_of o).
Proof.
  induction o as [|ch o IH]; intros rest options current d H.
  - simpl. now rewrite app_nil_r, Z.add_0_r.
  - simpl in H.
    destruct (Ascii.eqb ch pipe && (d =? 0)%Z) eqn:Ep; [discriminate|].
    cbn [app splitOptions_loop depth_of].
    replace (current ++ ch :: o) with ((current ++ [ch]) ++ o)
      by (rewrite <- app_assoc; reflexivity).
    replace (d + (delta ch + depth_of o))%Z with (d + delta ch + depth_of o)%Z by lia.
    destruct (Ascii.eqb ch lbrace) eqn:El.
    { apply Ascii.eqb_eq in El. subst ch. rewrite delta_lbrace in *. now apply IH. }
    destruct (Ascii.eqb ch rbrace) eqn:Er.
    { apply Ascii.eqb_eq in Er. subst ch. rewrite delta_rbrace in *.
      replace (d - 1)%Z with (d + -1)%Z by lia. now apply IH. }
    rewrite Ep. rewrite (delta_plain ch El Er) in *.
    rewrite Z.add_0_r in *. now apply IH.
Qed.

Lemma splitOptions_loop_join_pipe (opts : list str) :
  forallb whole_option opts = true ->
  opts <> [] ->
  forall acc,
    splitOptions_loop (join_pipe opts) acc [] 0%Z
    = (acc ++ removelast opts, last opts []).
Proof.
  induction opts as [|o opts IH]; intros Hall Hne acc; [congruence|].
  simpl in Hall. apply andb_prop in Hall. destruct Hall as [Ho Hall].
  unfold whole_option in Ho. apply andb_prop in Ho. destruct Ho as [Hpipe Hdepth].
  apply Z.eqb_eq in Hdepth.
  destruct opts as [|o' opts].
  - cbn [join_pipe removelast last].
    rewrite <- (app_nil_r o) at 1.
    rewrite (splitOptions_loop_whole o [] acc [] 0%Z Hpipe).
    simpl. now rewrite app_nil_r.
  - change (join_pipe (o :: o' :: opts)) with (o ++ pipe :: join_pipe (o' :: opts)).
    rewrite (splitOptions_loop_whole o _ acc [] 0%Z Hpipe).
    rewrite Hdepth. cbn [app splitOptions_loop Z.add].
    change (Ascii.eqb pipe lbrace) with false.
    change (Ascii.eqb pipe rbrace) with false.
    change (Ascii.eqb pipe pipe && (0 =? 0)%Z) with true. cbv iota.
    rewrite (IH Hall ltac:(discriminate) (acc ++ [o])).
    rewrite <- app_assoc. reflexivity.
Qed.

(** X5. [splitOptions] undoes joining with pipes: when every alternative of
    a list has braces that add up to depth zero and no pipe at depth zero,
    splitting the alternatives joined by pipes returns the list, except that
    an empty last alternative is dropped.  So [{a|b|}] has the two
    alternatives of [{a|b}], while [{|a|b}] has three. *)
Theorem X5_splitOptions_of_join (opts : list str) :
  forallb whole_option opts = true ->
  splitOptions (join_pipe opts)
  = match last opts [] with
    | [] => removelast opts
    | _ :: _ => opts
    end.
Proof.
  intros Hall. destruct opts as [|o opts]; [reflexivity|].
  unfold splitOptions.
  rewrite (splitOptions_loop_join_pipe (o :: opts) Hall ltac:(discriminate) []).
  cbn [app].
  destruct (last (o :: opts) []) as [|c l] eqn:El; [reflexivity|].
  rewrite <- El. symmetry. apply app_removelast_last. discriminate.
Qed.

Lemma X5_witness :
  forallb whole_option [lit ""; lit "Hi {there|friend}"; lit "Hey"; lit ""] = true /\
  splitOptions (join_pipe [lit ""; lit "Hi {there|friend}"; lit "Hey"; lit ""])
  = match last [lit ""; lit "Hi {there|friend}"; lit "Hey"; lit ""] [] with
    | [] => removelast [lit ""; lit "Hi {there|friend}"; lit "Hey"; lit ""]
    | _ :: _ => [lit ""; lit "Hi {there|friend}"; lit "Hey"; lit ""]
    end.
Proof.
  split; [reflexivity|].
  apply (X5_splitOptions_of_join
           [lit ""; lit "Hi {there|friend}"; lit "Hey"; lit ""]).
  reflexivity.
Defined.

(** ** Templates without nesting *)

Lemma flat_pickable (segments : segments_t) :
  flat segments = true ->
  forallb (fun seg => negb (is_nil seg)) segments = true ->
  pickable segments.
Proof.
  unfold flat. rewrite !forallb_forall. intros Hflat Hne. constructor.
  - intros seg Hseg ->. specialize (Hne _ Hseg). discriminate.
  - intros seg o Hseg Ho Hinc. specialize (Hflat _ Hseg).
    rewrite forallb_forall in Hflat. specialize (Hflat _ Ho).
    rewrite Hinc in Hflat. discriminate.
Qed.

(** X6. For a template in which no alternative contains an opening brace,
    the expander returns the combinations in canonical order (the current
    segment is the outer loop and the rest of the template the inner loop,
    so the rightmost segment varies fastest), and their number is the
    product of the numbers of alternatives of the segments.  The counter
    returns that product when no segment is empty and the product is at
    most [2^53]; above that the counter's doubles round. *)
Theorem X6_flat_templates (segments : segments_t) (fuel : nat) :
  flat segments = true ->
  length segments < fuel ->
  generateAllCombinations fuel segments = Returns (canonical segments) /\
  length (canonical segments) = product_of_sizes segments /\
  (forallb (fun seg => negb (is_nil seg)) segments = true ->
   safe_integer (product_of_sizes segments) = true ->
   countCombinations fuel segments
   = Returns (Fin (N.of_nat (product_of_sizes segments)))).
Proof.
  intros Hflat Hfuel.
  pose proof (expand_flat segments Hflat fuel Hfuel) as Hg.
  pose proof (count_of_expansion _ _ _ Hg) as He.
  assert (Hlen : length (canonical segments) = product_of_sizes segments).
  { clear. induction segments as [|seg segments IH]; [reflexivity|].
    cbn [canonical product_of_sizes fold_right].
    fold (product_of_sizes segments). rewrite <- IH.
    induction seg as [|o seg IHseg]; [reflexivity|].
    cbn [flat_map length]. rewrite length_app, length_map, IHseg.
    cbn [length]. lia. }
  split; [exact Hg|]. split; [exact Hlen|].
  intros Hne Hsafe.
  destruct (count_of_exact _ _ _ He) as (v & Hv & Hexact).
  destruct (Hexact (flat_pickable segments Hflat Hne)) as [_ Hval].
  rewrite Hlen in Hval. rewrite Hv, (Hval Hsafe). reflexivity.
Qed.

Lemma X6_witness :
  flat [[lit "A"; lit "B"; lit "C"]; [lit " "]; [lit "1"; lit "2"]] = true /\
  length [[lit "A"; lit "B"; lit "C"]; [lit " "]; [lit "1"; lit "2"]] < 4 /\
  forallb (fun seg => negb (is_nil seg))
    [[lit "A"; lit "B"; lit "C"]; [lit " "]; [lit "1"; lit "2"]] = true /\
  safe_integer
    (product_of_sizes [[lit "A"; lit "B"; lit "C"]; [lit " "]; [lit "1"; lit "2"]])
  = true /\
  generateAllCombinations 4 [[lit "A"; lit "B"; lit "C"]; [lit " "]; [lit "1"; lit "2"]]
  = Returns (canonical [[lit "A"; lit "B"; lit "C"]; [lit " "]; [lit "1"; lit "2"]]) /\
  length (canonical [[lit "A"; lit "B"; lit "C"]; [lit " "]; [lit "1"; lit "2"]])
  = product_of_sizes [[lit "A"; lit "B"; lit "C"]; [lit " "]; [lit "1"; lit "2"]] /\
  countCombinations 4 [[lit "A"; lit "B"; lit "C"]; [lit " "]; [lit "1"; lit "2"]]
  = Returns (Fin 6).
Proof.
  split; [reflexivity|]. split; [simpl; lia|].
  split; [reflexivity|]. split; [reflexivity|].
  destruct (X6_flat_templates
              [[lit "A"; lit "B"; lit "C"]; [lit " "]; [lit "1"; lit "2"]] 4)
    as (Hg & Hlen & Hc); [reflexivity | simpl; lia |].
  split; [exact Hg|]. split; [exact Hlen|].
  apply Hc; reflexivity.
Defined.

(** ** Counting, expansion and statistics on well-formed text *)

(** X7. On every text whose alternative sets are all non-empty, at every
    level of nesting, the expander and [analyze] return once the fuel
    suffices, and [analyze] reports as [totalCombinations] what the counter
    returns.  The expansion is not empty, and when it has at most [2^53]
    strings that number is the count. *)
Theorem X7_count_is_expansion_length (text : str) (depth : nat) :
  pickableb depth (parseSpintax text) = true ->
  exists fuel0 allc,
    forall fuel, fuel0 <= fuel ->
      generateAllCombinations fuel (parseSpintax text) = Returns allc /\
      1 <= length allc /\
      exists st,
        analyze fuel text = Returns st /\
        countCombinations fuel (parseSpintax text)
        = Returns (totalCombinations st) /\
        (safe_integer (length allc) = true ->
         totalCombinations st = Fin (N.of_nat (length allc))).
Proof.
  intros Hp. apply pickableb_sound in Hp.
  pose proof (pickable_all_matched text Hp) as Hall.
  destruct (count_matches_expansion text Hall) as (fuel0 & allc & H).
  exists fuel0, allc. intros fuel Hle.
  destruct (H fuel Hle) as (Hg & He & v & Hv & _).
  destruct (count_of_exact _ _ _ He) as (v' & Hv' & Hexact).
  destruct (Hexact Hp) as [Hpos Hval].
  split; [exact Hg|]. split; [exact Hpos|].
  unfold analyze. rewrite Hv'. cbn [obind].
  eexists. split; [reflexivity|]. cbn [totalCombinations].
  split; [reflexivity | exact Hval].
Qed.

Lemma X7_witness :
  pickableb 3 (parseSpintax (lit "{A|B {1|2}} x}")) = true /\
  generateAllCombinations 4 (parseSpintax (lit "{A|B {1|2}} x}"))
  = Returns [lit "A x}"; lit "B 1 x}"; lit "B 2 x}"] /\
  safe_integer (length [lit "A x}"; lit "B 1 x}"; lit "B 2 x}"]) = true /\
  countCombinations 4 (parseSpintax (lit "{A|B {1|2}} x}")) = Returns (Fin 3) /\
  exists fuel0 allc,
    forall fuel, fuel0 <= fuel ->
      generateAllCombinations fuel (parseSpintax (lit "{A|B {1|2}} x}"))
      = Returns allc /\
      1 <= length allc /\
      exists st,
        analyze fuel (lit "{A|B {1|2}} x}") = Returns st /\
        countCombinations fuel (parseSpintax (lit "{A|B {1|2}} x}"))
        = Returns (totalCombinations st) /\
        (safe_integer (length allc) = true ->
         totalCombinations st = Fin (N.of_nat (length allc))).
Proof.
  split; [reflexivity|]. split; [reflexivity|].
  split; [reflexivity|]. split; [vm_compute; reflexivity|].
  apply (X7_count_is_expansion_length (lit "{A|B {1|2}} x}") 3). reflexivity.
Defined.

(** ** An unmatched opening brace is fatal *)

Lemma pick_lone_brace (rnd : nat -> nat)
    (nested : list (list str) -> M (list str)) (variation : str) (k : nat) :
  (forall k', nested [[[lbrace]]] k' = OutOfFuel) ->
  pick_option rnd nested variation [[lbrace]] k = OutOfFuel.
Proof.
  intros Hn. unfold pick_option, mbind. cbn [length].
  rewrite randomIndex_one. cbn [nth_error].
  change (includes lbrace [lbrace]) with true. cbv iota.
  now rewrite parse_lone_brace, Hn.
Qed.

Lemma mfor_each_unmatched (rnd : nat -> nat)
    (nested : list (list str) -> M (list str)) (segments : segments_t) :
  In [[lbrace]] segments ->
  (forall k', nested [[[lbrace]]] k' = OutOfFuel) ->
  forall variation k r,
    mfor_each segments (pick_option rnd nested) variation k <> Returns r.
Proof.
  intros Hin Hn. induction segments as [|seg segments IH]; [contradiction|].
  intros variation k r H. simpl in H.
  destruct r as [v' k'].
  apply mbind_returns in H. destruct H as (v1 & k1 & Hpick & Hrest).
  destruct Hin as [-> | Hin].
  - rewrite pick_lone_brace in Hpick by assumption. discriminate.
  - now apply (IH Hin v1 k1 (v', k')).
Qed.

Lemma sampler_unmatched (rnd : nat -> nat) (segments : segments_t) :
  In [[lbrace]] segments ->
  forall fuel k r, generateRandomVariations rnd fuel segments 1%Z k <> Returns r.
Proof.
  intros Hin fuel k [rs k'] H.
  destruct fuel as [|fuel]; [discriminate|].
  rewrite generateRandomVariations_step in H.
  change (Z.to_nat (1 * 10)) with 10 in H.
  rewrite sample_loop_step in H.
  apply mbind_returns in H. destruct H as (st & k1 & Hloop & _).
  cbn [results attempts length Z.of_nat Z.ltb Z.compare Z.mul
       Pos.mul Pos.compare Pos.compare_cont andb] in Hloop.
  apply mbind_returns in Hloop. destruct Hloop as (st1 & k2 & Hatt & _).
  destruct (attempt_returns _ _ _ _ _ _ _ Hatt) as (v & Hfor & _).
  revert Hfor. apply mfor_each_unmatched; [assumption|].
  intros k3. apply sampler_lone_brace.
Qed.

(** X8. An opening brace without a matching closing brace anywhere in the
    text is fatal for everything but parsing and validation: the expander,
    the counter, [analyze] and [generate] (in every mode) never return,
    whatever the fuel, and [spin] never returns a value. *)
Theorem X8_unmatched_brace_is_fatal (text : str) (p : nat) :
  unmatched_open text p = true ->
  (forall fuel,
     generateAllCombinations fuel (parseSpintax text) = OutOfFuel /\
     countCombinations fuel (parseSpintax text) = OutOfFuel /\
     analyze fuel text = OutOfFuel) /\
  (forall rnd fuel options k, generate rnd fuel text options k = OutOfFuel) /\
  (forall rnd fuel k r, spin rnd fuel text k <> Returns r).
Proof.
  intros Hun.
  pose proof (unmatched_open_segment text p Hun) as Hin.
  assert (Hcount : forall fuel, countCombinations fuel (parseSpintax text) = OutOfFuel)
    by (intros; now apply count_unmatched_diverges).
  assert (Han : forall fuel, analyze fuel text = OutOfFuel).
  { intros fuel. unfold analyze. now rewrite Hcount. }
  split; [|split].
  - intros fuel. split; [now apply expand_unmatched_diverges|]. auto.
  - intros rnd fuel options k. unfold generate, mbind, lift. now rewrite Han.
  - intros rnd fuel k [s k'] H. unfold spin in H.
    apply mbind_returns in H. destruct H as (rs & k1 & Hgen & _).
    now apply (sampler_unmatched rnd _ Hin fuel k (rs, k1)).
Qed.

Lemma X8_witness :
  unmatched_open (lit "Hi {there|friend, {how|are} you") 3 = true /\
  (forall fuel,
     generateAllCombinations fuel
       (parseSpintax (lit "Hi {there|friend, {how|are} you")) = OutOfFuel /\
     countCombinations fuel
       (parseSpintax (lit "Hi {there|friend, {how|are} you")) = OutOfFuel /\
     analyze fuel (lit "Hi {there|friend, {how|are} you") = OutOfFuel) /\
  (forall rnd fuel options k,
     generate rnd fuel (lit "Hi {there|friend, {how|are} you") options k
     = OutOfFuel) /\
  (forall rnd fuel k r,
     spin rnd fuel (lit "Hi {there|friend, {how|are} you") k <> Returns r).
Proof.
  split; [reflexivity|].
  apply (X8_unmatched_brace_is_fatal (lit "Hi {there|friend, {how|are} you") 3).
  reflexivity.
Defined.

(** ** An empty group empties the expansion *)

Lemma flat_map_no_rest (processed : list str) :
  flat_map (fun p : list ascii => map (fun restCombo => p ++ restCombo) [])
           processed = [].
Proof. induction processed as [|x processed IH]; [reflexivity | exact IH]. Qed.

Lemma expand_options_no_rest (expand : list (list str) -> outcome (list str))
    (first : list str) :
  forall results l,
    for_each first (expand_option expand []) results = Returns l -> l = results.
Proof.
  induction first as [|o first IH]; intros results l H; simpl in H.
  - now injection H.
  - apply obind_returns in H. destruct H as (results' & Hopt & Hrest).
    unfold expand_option in Hopt.
    apply obind_returns in Hopt. destruct Hopt as (processed & _ & Hpush).
    injection Hpush as <-.
    rewrite (IH _ _ Hrest). unfold push_products.
    rewrite flat_map_no_rest. apply app_nil_r.
Qed.

Lemma expand_empty_segment :
  forall segments fuel l,
    In [] segments ->
    generateAllCombinations fuel segments = Returns l -> l = [].
Proof.
  induction segments as [|first rest IH]; intros fuel l Hin H; [contradiction|].
  destruct fuel as [|fuel]; [discriminate|].
  simpl in H. apply obind_returns in H. destruct H as (restC & Hrest & Hfor).
  destruct Hin as [-> | Hin].
  - simpl in Hfor. now injection Hfor.
  - rewrite (IH fuel restC Hin Hrest) in Hfor.
    now apply expand_options_no_rest in Hfor.
Qed.

Lemma count_empty_segment (count_nested : list (list str) -> outcome number)
    (segments : segments_t) :
  forall total v,
    for_each segments (count_segment count_nested) total = Returns v ->
    (total = Fin 0 \/ total = NaN) \/ In [] segments ->
    v = Fin 0 \/ v = NaN.
Proof.
  induction segments as [|seg segments IH]; intros total v H Hz; simpl in H.
  - injection H as <-. destruct Hz as [Hz | []]. exact Hz.
  - apply obind_returns in H. destruct H as (total' & Hseg & Hrest).
    unfold count_segment in Hseg.
    apply obind_returns in Hseg. destruct Hseg as (segTotal & Hopt & Hret).
    injection Hret as <-.
    apply (IH _ _ Hrest).
    destruct Hz as [Hz | [-> | Hin]]; [left | left | right; assumption].
    + now apply nmul_zero_l.
    + simpl in Hopt. injection Hopt as <-. apply nmul_zero_r.
Qed.

Lemma lift_returns {A : Type} (o : outcome A) (k k' : nat) (a : A) :
  lift o k = Returns (a, k') -> o = Returns a /\ k' = k.
Proof. unfold lift. destruct o; intros H; try discriminate. injection H as <- <-. auto. Qed.

(** X9. One empty alternative set, such as the one the group [{}] parses
    to, empties everything: whenever they return, the expansion is empty,
    the count is [0] (or [NaN], when the product had overflowed before it
    met the empty set), and [generate] in mode [all] yields no variation. *)
Theorem X9_empty_group_empties_expansion (rnd : nat -> nat) (text : str)
    (fuel : nat) :
  In [] (parseSpintax text) ->
  (forall l, generateAllCombinations fuel (parseSpintax text) = Returns l -> l = []) /\
  (forall v, countCombinations fuel (parseSpintax text) = Returns v ->
             v = Fin 0 \/ v = NaN) /\
  (forall c k res k',
     generate rnd fuel text {| count := c; mode := Some all |} k = Returns (res, k') ->
     variations res = [] /\ generatedCount res = 0 /\
     (totalCombinations (stats res) = Fin 0 \/
      totalCombinations (stats res) = NaN)).
Proof.
  intros Hin.
  assert (Hexp : forall l, generateAllCombinations fuel (parseSpintax text) = Returns l
                           -> l = [])
    by (intros l; now apply expand_empty_segment).
  assert (Hcnt : forall v, countCombinations fuel (parseSpintax text) = Returns v
                           -> v = Fin 0 \/ v = NaN).
  { intros v H. destruct fuel as [|fuel']; [discriminate|].
    simpl in H. apply (count_empty_segment _ _ _ _ H). now right. }
  split; [exact Hexp|]. split; [exact Hcnt|].
  intros c k res k' H. unfold generate in H.
  apply mbind_returns in H. destruct H as (st & k1 & Hst & H).
  apply lift_returns in Hst. destruct Hst as [Hst ->].
  apply mbind_returns in H. destruct H as (vs & k2 & Hvs & Hret).
  unfold ret in Hret. injection Hret as <- <-.
  cbn [mode] in Hvs. apply lift_returns in Hvs. destruct Hvs as [Hvs ->].
  apply obind_returns in Hvs. destruct Hvs as (allc & Hall & Hslice).
  injection Hslice as <-.
  rewrite (Hexp allc Hall).
  destruct (analyze_returns _ _ _ Hst) as (Hc & _).
  cbn [variations generatedCount stats].
  assert (Hs0 : forall x, slice_to (@nil (list ascii)) x = [])
    by (intros x; destruct x; [apply firstn_nil | reflexivity | reflexivity]).
  rewrite Hs0. repeat split. now apply Hcnt.
Qed.

Lemma X9_witness :
  In [] (parseSpintax (lit "{A|B} {} {1|2}")) /\
  generateAllCombinations 6 (parseSpintax (lit "{A|B} {} {1|2}")) = Returns [] /\
  countCombinations 6 (parseSpintax (lit "{A|B} {} {1|2}")) = Returns (Fin 0) /\
  generate (fun n => n) 6 (lit "{A|B} {} {1|2}")
    {| count := None; mode := Some all |} 0
  = Returns ({| variations := [];
                stats := {| totalCombinations := Fin 0; spinElements := 2;
                            averageOptionsPerSpin := quotient 6 5 |};
                generatedCount := 0 |}, 0) /\
  (forall l, generateAllCombinations 6 (parseSpintax (lit "{A|B} {} {1|2}"))
             = Returns l -> l = []) /\
  (forall v, countCombinations 6 (parseSpintax (lit "{A|B} {} {1|2}"))
             = Returns v -> v = Fin 0 \/ v = NaN) /\
  (forall c k res k',
     generate (fun n => n) 6 (lit "{A|B} {} {1|2}")
       {| count := c; mode := Some all |} k = Returns (res, k') ->
     variations res = [] /\ generatedCount res = 0 /\
     (totalCombinations (stats res) = Fin 0 \/
      totalCombinations (stats res) = NaN)).
Proof.
  assert (H : In [] (parseSpintax (lit "{A|B} {} {1|2}")))
    by (vm_compute; tauto).
  split; [exact H|].
  split; [vm_compute; reflexivity|].
  split; [vm_compute; reflexivity|].
  split; [vm_compute; reflexivity|].
  apply (X9_empty_group_empties_expansion (fun n => n) (lit "{A|B} {} {1|2}") 6 H).
Defined.

(** ** The sampler: what it returns *)

(** X10. Whatever the template, the count and the random source, the
    strings that [generateRandomVariations] returns are pairwise distinct
    and at most [count] many; for a count that is not positive it returns
    the empty list without reading the random source. *)
Theorem X10_sampler_distinct_and_capped (rnd : nat -> nat) (fuel : nat)
    (segments : segments_t) (count : Z) (k k' : nat) (rs : list str) :
  generateRandomVariations rnd fuel segments count k = Returns (rs, k') ->
  NoDup rs /\
  (Z.of_nat (length rs) <= Z.max 0 count)%Z /\
  ((count <= 0)%Z -> rs = [] /\ k' = k).
Proof.
  intros H. destruct (sampler_budget _ _ _ _ _ _ _ H) as [Hlen Hnd].
  split; [exact Hnd|]. split; [exact Hlen|].
  intros Hc. destruct fuel as [|fuel]; [discriminate|].
  rewrite (sampler_nonpositive rnd fuel segments count k Hc) in H.
  injection H as <- <-. auto.
Qed.

Lemma X10_witness :
  generateRandomVariations (fun n => n) 2
    [[lit "A"; lit "B"]; [lit " "]; [lit "1"; lit "2"]] 3%Z 0
  = Returns ([lit "A 1"; lit "B 2"], 90) /\
  NoDup [lit "A 1"; lit "B 2"] /\
  (Z.of_nat (length [lit "A 1"; lit "B 2"]) <= Z.max 0 3)%Z /\
  ((3 <= 0)%Z -> [lit "A 1"; lit "B 2"] = [] /\ 90 = 0).
Proof.
  assert (H : generateRandomVariations (fun n => n) 2
                [[lit "A"; lit "B"]; [lit " "]; [lit "1"; lit "2"]] 3%Z 0
              = Returns ([lit "A 1"; lit "B 2"], 90))
    by (vm_compute; reflexivity).
  split; [exact H|].
  exact (X10_sampler_distinct_and_capped _ _ _ _ _ _ _ H).
Defined.

Lemma sampler_returns_uniform (segments : segments_t) :
  pickable segments ->
  exists fuel0,
    forall rnd fuel, fuel0 <= fuel ->
    forall count k,
      exists rs k',
        generateRandomVariations rnd fuel segments count k = Returns (rs, k').
Proof.
  induction 1 as [segments Hne _ IH].
  destruct (uniform_bound (concat segments)
              (fun o fuel => includes lbrace o = true ->
                 forall rnd count k, exists rs k',
                   generateRandomVariations rnd fuel (parseSpintax o) count k
                   = Returns (rs, k')))
    as [F HF].
  { intros o Ho. apply in_concat in Ho. destruct Ho as (seg & Hseg & Ho).
    destruct (includes lbrace o) eqn:Einc.
    - destruct (IH seg o Hseg Ho Einc) as [f Hf]. exists f.
      intros fuel Hle _ rnd count k. apply (Hf rnd fuel Hle).
    - exists 0. intros fuel _ Habs. discriminate. }
  exists (S F). intros rnd fuel Hle count k.
  destruct fuel as [|fuel]; [lia|].
  rewrite generateRandomVariations_step.
  destruct (sample_loop_returns rnd
              (fun nestedSegments =>
                 generateRandomVariations rnd fuel nestedSegments 1%Z)
              segments count (count * 10)%Z) with
      (gas := Z.to_nat (count * 10))
      (st := {| results := []; seen := []; attempts := 0 |}) (k := k)
    as (st' & k' & Hloop).
  - intros st k1. unfold attempt.
    destruct (mfor_each_returns segments
                (pick_option rnd (fun nestedSegments =>
                   generateRandomVariations rnd fuel nestedSegments 1%Z)))
      with (s := @nil ascii) (k := k1) as (v & k2 & Hv).
    + intros seg Hseg. apply pick_option_returns; [now apply Hne|].
      intros o Ho Einc k3.
      apply (HF o); [apply in_concat; eauto | lia | assumption].
    + unfold mbind. rewrite Hv.
      destruct (existsb (str_eqb v) (seen st)); unfold ret; eauto.
  - simpl. lia.
  - unfold mbind. rewrite Hloop. unfold ret. eauto.
Qed.

(** X11. On a template without an empty alternative set at any level of
    nesting ([pickableb], which also excludes unmatched opening braces),
    the sampler and [spin] return for every count, every random source and
    every amount of fuel above a bound: they neither throw nor recurse
    without end. *)
Theorem X11_sampler_returns (text : str) (depth : nat) :
  pickableb depth (parseSpintax text) = true ->
  exists fuel0,
    forall rnd fuel, fuel0 <= fuel ->
      (forall count k, exists rs k',
         generateRandomVariations rnd fuel (parseSpintax text) count k
         = Returns (rs, k')) /\
      (forall k, exists s k', spin rnd fuel text k = Returns (s, k')).
Proof.
  intros Hp. apply pickableb_sound in Hp.
  destruct (sampler_returns_uniform _ Hp) as [fuel0 Hgen].
  exists fuel0. intros rnd fuel Hle. split; [now apply Hgen|].
  intros k. unfold spin, mbind.
  destruct (Hgen rnd fuel Hle 1%Z k) as (rs & k' & ->).
  unfold ret. eauto.
Qed.

Lemma X11_witness :
  pickableb 3 (parseSpintax (lit "{Dear|Hello} {friend|{valued|esteemed} client}"))
  = true /\
  exists fuel0,
    forall rnd fuel, fuel0 <= fuel ->
      (forall count k, exists rs k',
         generateRandomVariations rnd fuel
           (parseSpintax (lit "{Dear|Hello} {friend|{valued|esteemed} client}"))
           count k
         = Returns (rs, k')) /\
      (forall k, exists s k',
         spin rnd fuel (lit "{Dear|Hello} {friend|{valued|esteemed} client}") k
         = Returns (s, k')).
Proof.
  split; [reflexivity|].
  apply (X11_sampler_returns
           (lit "{Dear|Hello} {friend|{valued|esteemed} client}") 3).
  reflexivity.
Defined.

Lemma samplableb_sound :
  forall fuel segments, samplableb fuel segments = true -> samplable segments.
Proof.
  induction fuel as [|fuel IH]; intros segments H; [discriminate|].
  simpl in H. rewrite forallb_forall in H.
  assert (Hopt : forall seg o, In seg segments -> In o seg ->
            includes lbrace o = true ->
            (exists l, generateAllCombinations fuel (parseSpintax o) = Returns l /\
                       existsb is_nil l = false) /\
            samplableb fuel (parseSpintax o) = true).
  { intros seg o Hseg Ho Hinc. specialize (H _ Hseg).
    apply andb_prop in H. destruct H as [_ H].
    rewrite forallb_forall in H. specialize (H _ Ho).
    rewrite Hinc in H. simpl in H.
    apply andb_prop in H. destruct H as [Hl Hs]. split; [|exact Hs].
    destruct (generateAllCombinations fuel (parseSpintax o)) as [l| |];
      try discriminate.
    exists l. split; [reflexivity | now apply negb_true_iff]. }
  constructor.
  - intros seg Hseg ->. specialize (H _ Hseg). discriminate.
  - intros seg o Hseg Ho Hinc fuel' l Hl Hin.
    destruct (Hopt seg o Hseg Ho Hinc) as ((l0 & Hl0 & Hnil) & _).
    rewrite (generateAllCombinations_deterministic _ _ _ _ _ Hl Hl0) in Hin.
    assert (E : existsb is_nil l0 = true)
      by (apply existsb_exists; exists []; auto).
    congruence.
  - intros seg o Hseg Ho Hinc. apply IH. now apply (Hopt seg o Hseg Ho Hinc).
Qed.

(** X12. On a template without an empty alternative set and without a
    nested alternative that can expand to the empty string, the sampler
    agrees with the expander: every string returned by
    [generateRandomVariations], and every variation of [generate] in its
    default random mode, is a member of the expansion; and [spin] returns
    a member of the expansion, or the text itself when the variation it
    drew is the empty string. *)
Theorem X12_sampler_draws_from_expansion (text : str) (depth fuel' : nat)
    (allc : list str) :
  samplableb depth (parseSpintax text) = true ->
  generateAllCombinations fuel' (parseSpintax text) = Returns allc ->
  (forall rnd fuel count k rs k',
     generateRandomVariations rnd fuel (parseSpintax text) count k = Returns (rs, k') ->
     incl rs allc) /\
  (forall rnd fuel c k res k',
     generate rnd fuel text {| count := c; mode := None |} k = Returns (res, k') ->
     incl (variations res) allc) /\
  (forall rnd fuel k s k',
     spin rnd fuel text k = Returns (s, k') ->
     In s allc \/ (s = text /\ In [] allc)).
Proof.
  intros Hs Hall. apply samplableb_sound in Hs.
  assert (Hgen : forall rnd fuel count k rs k',
            generateRandomVariations rnd fuel (parseSpintax text) count k
            = Returns (rs, k') -> incl rs allc).
  { intros rnd fuel count k rs k' H.
    exact (sampler_sound rnd _ _ Hs _ _ _ _ H _ _ Hall). }
  split; [exact Hgen|]. split.
  - intros rnd fuel c k res k' H. unfold generate in H.
    apply mbind_returns in H. destruct H as (st & k1 & _ & H).
    apply mbind_returns in H. destruct H as (vs & k2 & Hvs & Hret).
    unfold ret in Hret. injection Hret as <- <-.
    cbn [mode variations] in *. now apply (Hgen _ _ _ _ _ _ Hvs).
  - intros rnd fuel k s k' H. unfold spin in H.
    apply mbind_returns in H. destruct H as (rs & k1 & Hrs & Hret).
    unfold ret in Hret. injection Hret as <- <-.
    pose proof (Hgen _ _ _ _ _ _ Hrs) as Hincl.
    destruct fuel as [|fuel0]; [discriminate|].
    destruct (sampler_one _ _ _ _ _ _ Hrs) as (v & -> & _).
    assert (Hv : In v allc) by (apply Hincl; now left).
    cbn [nth_error]. destruct v as [|c v]; cbn [or_else]; auto.
Qed.

Lemma X12_witness :
  samplableb 4 (parseSpintax (lit "{A|B {1|2}}")) = true /\
  generateAllCombinations 4 (parseSpintax (lit "{A|B {1|2}}"))
  = Returns [lit "A"; lit "B 1"; lit "B 2"] /\
  (forall rnd fuel count k rs k',
     generateRandomVariations rnd fuel (parseSpintax (lit "{A|B {1|2}}")) count k
     = Returns (rs, k') ->
     incl rs [lit "A"; lit "B 1"; lit "B 2"]) /\
  (forall rnd fuel c k res k',
     generate rnd fuel (lit "{A|B {1|2}}") {| count := c; mode := None |} k
     = Returns (res, k') ->
     incl (variations res) [lit "A"; lit "B 1"; lit "B 2"]) /\
  (forall rnd fuel k s k',
     spin rnd fuel (lit "{A|B {1|2}}") k = Returns (s, k') ->
     In s [lit "A"; lit "B 1"; lit "B 2"] \/
     (s = lit "{A|B {1|2}}" /\ In [] [lit "A"; lit "B 1"; lit "B 2"])).
Proof.
  split; [reflexivity|]. split; [reflexivity|].
  apply (X12_sampler_draws_from_expansion (lit "{A|B {1|2}}") 4 4
           [lit "A"; lit "B 1"; lit "B 2"]); reflexivity.
Defined.

(** ** The caps of [generate] *)

Lemma slice0_length_bound {A : Type} (l : list A) (n : Z) (cap : nat) :
  (0 <= n <= Z.of_nat cap)%Z -> length (slice0 l n) <= cap.
Proof.
  intros Hn. rewrite slice0_nonneg by lia. rewrite length_firstn. lia.
Qed.

Lemma generate_generatedCount (rnd : nat -> nat) (fuel : nat) (text : str)
    (options : GenerateOptions) (k k' : nat) (res : SpintaxResult) :
  generate rnd fuel text options k = Returns (res, k') ->
  generatedCount res = length (variations res).
Proof.
  intros H. unfold generate in H.
  apply mbind_returns in H. destruct H as (st & k1 & _ & H).
  apply mbind_returns in H. destruct H as (vs & k2 & _ & Hret).
  unfold ret in Hret. injection Hret as <- <-. reflexivity.
Qed.

(** X13. Whenever [generate] returns, [generatedCount] is the number of
    variations, and the caps hold: at most 1000 variations in mode [all],
    at most 100 pairwise distinct ones in the default random mode, and at
    most 1000 in mode [sequential] for a count that is not negative (a
    negative count is cut from the end of the expansion and is not
    capped). *)
Theorem X13_generate_caps (rnd : nat -> nat) (fuel : nat) (text : str)
    (options : GenerateOptions) (k k' : nat) (res : SpintaxResult) :
  generate rnd fuel text options k = Returns (res, k') ->
  generatedCount res = length (variations res) /\
  analyze fuel text = Returns (stats res) /\
  match mode options with
  | Some all => length (variations res) <= 1000
  | Some sequential =>
      (0 <= match count options with Some c => c | None => 10 end)%Z ->
      length (variations res) <= 1000
  | Some random | None =>
      length (variations res) <= 100 /\ NoDup (variations res)
  end.
Proof.
  intros H. unfold generate in H.
  apply mbind_returns in H. destruct H as (st & k1 & Hst & H).
  apply lift_returns in Hst. destruct Hst as [Hst ->].
  apply mbind_returns in H. destruct H as (vs & k2 & Hvs & Hret).
  unfold ret in Hret. injection Hret as <- <-.
  cbn [generatedCount variations stats].
  split; [reflexivity|]. split; [exact Hst|].
  assert (Hrandom : forall c,
            generateRandomVariations rnd fuel (parseSpintax text) (Z.min c 100) k
            = Returns (vs, k2) ->
            length vs <= 100 /\ NoDup vs).
  { intros c Hr. destruct (sampler_budget _ _ _ _ _ _ _ Hr) as [Hlen Hnd].
    split; [lia | exact Hnd]. }
  destruct (mode options) as [[| |]|].
  - now apply (Hrandom _ Hvs).
  - apply lift_returns in Hvs. destruct Hvs as [Hvs _].
    apply obind_returns in Hvs. destruct Hvs as (allc & _ & Hslice).
    injection Hslice as <-. apply slice_to_bound.
  - intros Hc. apply lift_returns in Hvs. destruct Hvs as [Hvs _].
    unfold generateSequentialVariations in Hvs.
    apply obind_returns in Hvs. destruct Hvs as (allc & _ & Hslice).
    injection Hslice as <-. apply slice0_length_bound. lia.
  - now apply (Hrandom _ Hvs).
Qed.

Lemma X13_witness :
  generate (fun n => n) 4 (lit "{A|B} {1|2}")
    {| count := Some 3%Z; mode := Some sequential |} 0
  = Returns ({| variations := [lit "A 1"; lit "A 2"; lit "B 1"];
                stats := {| totalCombinations := Fin 4; spinElements := 2;
                            averageOptionsPerSpin := quotient 5 3 |};
                generatedCount := 3 |}, 0) /\
  3 = length [lit "A 1"; lit "A 2"; lit "B 1"] /\
  analyze 4 (lit "{A|B} {1|2}")
  = Returns {| totalCombinations := Fin 4; spinElements := 2;
               averageOptionsPerSpin := quotient 5 3 |} /\
  ((0 <= 3)%Z -> length [lit "A 1"; lit "A 2"; lit "B 1"] <= 1000).
Proof.
  assert (H : generate (fun n => n) 4 (lit "{A|B} {1|2}")
                {| count := Some 3%Z; mode := Some sequential |} 0
              = Returns ({| variations := [lit "A 1"; lit "A 2"; lit "B 1"];
                            stats := {| totalCombinations := Fin 4; spinElements := 2;
                                        averageOptionsPerSpin := quotient 5 3 |};
                            generatedCount := 3 |}, 0))
    by reflexivity.
  split; [exact H|].
  exact (X13_generate_caps _ _ _ _ _ _ _ H).
Defined.

(** ** Balanced texts compose *)

Lemma validate_loop_app (a b : str) :
  forall d e, (0 <= e)%Z ->
  validate_loop a d = true ->
  validate_loop (a ++ b) (d + e) = validate_loop b e.
Proof.
  induction a as [|ch a IH]; intros d e He Hv.
  - simpl in Hv. apply Z.eqb_eq in Hv. subst d. reflexivity.
  - rewrite validate_loop_step in Hv.
    destruct (d + delta ch <? 0)%Z eqn:Eneg; [discriminate|].
    apply Z.ltb_ge in Eneg.
    cbn [app]. rewrite validate_loop_step.
    destruct (d + e + delta ch <? 0)%Z eqn:E; [apply Z.ltb_lt in E; lia|].
    replace (d + e + delta ch)%Z with (d + delta ch + e)%Z by lia.
    now apply IH.
Qed.

(** X14. Balanced text composes: after a balanced prefix, [validate]
    decides the whole text by the rest alone, so the concatenation of two
    balanced texts is balanced; and a balanced text put in braces is
    balanced. *)
Theorem X14_validate_composes (a : str) :
  validate a = true ->
  (forall b, validate (a ++ b) = validate b) /\
  validate (lbrace :: a ++ [rbrace]) = true.
Proof.
  intros Hv. split.
  - intros b. unfold validate.
    exact (validate_loop_app a b 0%Z 0%Z ltac:(lia) Hv).
  - unfold validate. rewrite validate_loop_step, delta_lbrace.
    change (0 + 1 <? 0)%Z with false. cbv iota.
    rewrite (validate_loop_app a [rbrace] 0%Z 1%Z ltac:(lia) Hv).
    reflexivity.
Qed.

Lemma X14_witness :
  validate (lit "{A|B {1|2}} and") = true /\
  (forall b, validate (lit "{A|B {1|2}} and" ++ b) = validate b) /\
  validate (lbrace :: lit "{A|B {1|2}} and" ++ [rbrace]) = true.
Proof.
  split; [reflexivity|].
  apply (X14_validate_composes (lit "{A|B {1|2}} and")). reflexivity.
Defined.

(** ** Sequential mode on well-formed input *)

(** X15. On a text in which every opening brace is matched and for a count
    that is not negative, [generate] in mode [sequential] returns, without
    reading the random source, the first [min(count, 1000)] strings of the
    expansion in its order, all of it when it is shorter. *)
Theorem X15_sequential_is_prefix (text : str) (n : Z) :
  all_matched text = true -> (0 <= n)%Z ->
  exists fuel0 allc,
    forall rnd fuel k, fuel0 <= fuel ->
      generateAllCombinations fuel (parseSpintax text) = Returns allc /\
      exists res,
        generate rnd fuel text {| count := Some n; mode := Some sequential |} k
        = Returns (res, k) /\
        variations res = firstn (Z.to_nat (Z.min n 1000)) allc /\
        generatedCount res = Nat.min (Z.to_nat (Z.min n 1000)) (length allc).
Proof.
  intros Hall Hn. destruct (sequential_prefix text n Hall Hn) as (fuel0 & allc & H).
  exists fuel0, allc. intros rnd fuel k Hle.
  destruct (H rnd fuel k Hle) as (Hg & res & Hres & Hv).
  split; [exact Hg|]. exists res. split; [exact Hres|]. split; [exact Hv|].
  rewrite (generate_generatedCount _ _ _ _ _ _ _ Hres), Hv.
  apply length_firstn.
Qed.

Lemma X15_witness :
  all_matched (lit "{A|B|C} {1|2|3}") = true /\ (0 <= 5)%Z /\
  exists fuel0 allc,
    forall rnd fuel k, fuel0 <= fuel ->
      generateAllCombinations fuel (parseSpintax (lit "{A|B|C} {1|2|3}"))
      = Returns allc /\
      exists res,
        generate rnd fuel (lit "{A|B|C} {1|2|3}")
          {| count := Some 5%Z; mode := Some sequential |} k
        = Returns (res, k) /\
        variations res = firstn (Z.to_nat (Z.min 5 1000)) allc /\
        generatedCount res = Nat.min (Z.to_nat (Z.min 5 1000)) (length allc).
Proof.
  split; [reflexivity|]. split; [lia|].
  apply (X15_sequential_is_prefix (lit "{A|B|C} {1|2|3}") 5); [reflexivity | lia].
Defined.

(** ** Balanced text *)

Lemma literal_prefix_balanced (pre rest : str) :
  includes lbrace pre = false ->
  validate_loop (pre ++ rest) 0%Z = true ->
  includes rbrace pre = false /\ validate_loop rest 0%Z = true.
Proof.
  induction pre as [|ch pre IH]; intros Hl Hv; [auto|].
  rewrite includes_cons in Hl. apply orb_false_iff in Hl. destruct Hl as [Hch Hl].
  rewrite Ascii.eqb_sym in Hch.
  cbn [app] in Hv. rewrite validate_loop_step in Hv.
  destruct (Ascii.eqb ch rbrace) eqn:Er.
  - apply Ascii.eqb_eq in Er. subst ch. rewrite delta_rbrace in Hv.
    simpl in Hv. discriminate.
  - rewrite (delta_plain ch Hch Er) in Hv. simpl in Hv.
    destruct (IH Hl Hv) as [Hr Hrest].
    rewrite includes_cons, Hr, Ascii.eqb_sym, Er. auto.
Qed.

Lemma brace_free_balanced (s : str) :
  includes lbrace s = false -> includes rbrace s = false -> validate s = true.
Proof.
  unfold validate. induction s as [|ch s IH]; intros Hl Hr; [reflexivity|].
  rewrite includes_cons in Hl, Hr.
  apply orb_false_iff in Hl. apply orb_false_iff in Hr.
  destruct Hl as [Hcl Hl]. destruct Hr as [Hcr Hr].
  rewrite Ascii.eqb_sym in Hcl, Hcr.
  rewrite validate_loop_step, (delta_plain ch Hcl Hcr). simpl. now apply IH.
Qed.

(** In balanced text every alternative of every segment is balanced. *)
Lemma parse_balanced_options :
  forall n text, length text < n -> validate text = true ->
  Forall (Forall (fun o => validate o = true)) (parseSpintax text).
Proof.
  induction n as [|n IH]; intros text Hlen Hval; [lia|].
  destruct text as [|c text]; [constructor|].
  remember (c :: text) as t eqn:Et.
  assert (Hne : t <> []) by (rewrite Et; discriminate).
  clear Et c text.
  pose proof (parse_iter_view t [] 0) as V.
  rewrite (parseSpintax_unfold t _ Hne V).
  inversion V as [Htail Eq | pre post Hs Hpre Hopen Eq
                 | pre content post Hs Hpre Hc Eq]; cbn [skipn] in *.
  - repeat constructor. exact Hval.
  - exfalso. unfold validate in Hval. rewrite Hs in Hval.
    pose proof (balanced_inner_closed pre post [] Hval) as Hclosed.
    rewrite app_nil_r in Hclosed. congruence.
  - assert (Hparts : includes rbrace pre = false /\ validate post = true).
    { unfold validate in Hval. rewrite Hs in Hval.
      destruct (literal_prefix_balanced pre _ Hpre Hval) as [Hr Hrest].
      split; [exact Hr|].
      rewrite validate_loop_step, delta_lbrace in Hrest.
      change (0 + 1 <? 0)%Z with false in Hrest. cbv iota in Hrest.
      rewrite (validate_loop_app content (rbrace :: post) 0%Z 1%Z ltac:(lia) Hc)
        in Hrest.
      rewrite validate_loop_step, delta_rbrace in Hrest. exact Hrest. }
    destruct Hparts as [Hr Hpost].
    assert (Hskip : skipn (length pre + length content + 2) t = post).
    { replace (length pre + length content + 2)
        with (0 + length (pre ++ lbrace :: content ++ [rbrace]))
        by (rewrite length_app; simpl; rewrite length_app; simpl; lia).
      apply skipn_past. rewrite Hs, <- !app_assoc. simpl.
      rewrite <- app_assoc. reflexivity. }
    rewrite Hskip.
    assert (Hlpost : length post < n).
    { apply (f_equal (@length ascii)) in Hs.
      repeat (rewrite length_app in Hs; simpl in Hs).
      lia. }
    apply Forall_app. split; [apply Forall_app; split|].
    + destruct pre as [|p pre]; [constructor|].
      repeat constructor. now apply brace_free_balanced.
    + constructor; [|constructor].
      eapply Forall_impl; [|apply (splitOptions_valid content Hc)].
      intros o [Ho _]. exact Ho.
    + now apply IH.
Qed.

(** X16. In balanced text every alternative of every parsed segment is
    itself balanced, and every alternative that contains a brace (the ones
    that are parsed again as nested templates) is strictly shorter than the
    text; no opening brace is left unmatched, so no segment is the lone
    brace. *)
Theorem X16_balanced_text_parses_to_balanced_options (text : str) :
  validate text = true ->
  all_matched text = true /\
  ~ In [[lbrace]] (parseSpintax text) /\
  Forall (Forall (fun o => validate o = true /\
                           (includes lbrace o = true -> length o < length text)))
         (parseSpintax text).
Proof.
  intros Hval.
  pose proof (validate_all_matched text Hval) as Hall.
  pose proof (parse_balanced_options (S (length text)) text ltac:(lia) Hval) as Hb.
  pose proof (parseSpintax_good text Hall) as Hg.
  split; [exact Hall|]. split.
  - intros Hin. rewrite Forall_forall in Hb. specialize (Hb _ Hin).
    inversion Hb as [|? ? Hbad _]. discriminate.
  - unfold good_segments in Hg. rewrite Forall_forall in Hb, Hg |- *.
    intros seg Hseg. specialize (Hb seg Hseg). specialize (Hg seg Hseg).
    rewrite Forall_forall in Hb, Hg |- *.
    intros o Ho. split; [now apply Hb|].
    intros Hinc. now apply (Hg o Ho Hinc).
Qed.

Lemma X16_witness :
  validate (lit "{Dear|Hello} {friend|{valued|esteemed} client}") = true /\
  all_matched (lit "{Dear|Hello} {friend|{valued|esteemed} client}") = true /\
  ~ In [[lbrace]]
       (parseSpintax (lit "{Dear|Hello} {friend|{valued|esteemed} client}")) /\
  Forall (Forall (fun o =>
            validate o = true /\
            (includes lbrace o = true ->
             length o < length (lit "{Dear|Hello} {friend|{valued|esteemed} client}"))))
         (parseSpintax (lit "{Dear|Hello} {friend|{valued|esteemed} client}")).
Proof.
  split; [reflexivity|].
  apply (X16_balanced_text_parses_to_balanced_options
           (lit "{Dear|Hello} {friend|{valued|esteemed} client}")).
  reflexivity.
Defined.

(** ** The expansion of balanced text is free of markup *)

Lemma expand_options_pieces (fuel : nat) (restC : list str) (first : list str) :
  forall results l,
    for_each first (expand_option (generateAllCombinations fuel) restC) results
    = Returns l ->
    forall s, In s l ->
      In s results \/
      exists o processed piece r,
        In o first /\ processNestedSpintax fuel o = Returns processed /\
        In piece processed /\ In r restC /\ s = piece ++ r.
Proof.
  induction first as [|o first IH]; intros results l H s Hs; simpl in H.
  - injection H as <-. now left.
  - apply obind_returns in H. destruct H as (results' & Hopt & Hrest).
    unfold expand_option in Hopt.
    apply obind_returns in Hopt. destruct Hopt as (processed & Hp & Hpush).
    injection Hpush as <-.
    destruct (IH _ _ Hrest s Hs) as [Hin | (o' & pr & piece & r & Ho' & Hrec)].
    + unfold push_products in Hin. apply in_app_or in Hin.
      destruct Hin as [Hin | Hin]; [now left|]. right.
      apply in_flat_map in Hin. destruct Hin as (piece & Hpiece & Hin).
      apply in_map_iff in Hin. destruct Hin as (r & <- & Hr).
      exists o, processed, piece, r. repeat split; auto. now left.
    + right. exists o', pr, piece, r. split; [now right | exact Hrec].
Qed.

(** Every string of the expansion is made of one expanded alternative per
    segment, in the order of the segments. *)
Lemma expansion_pieces :
  forall segments fuel l,
    generateAllCombinations fuel segments = Returns l ->
    forall s, In s l ->
    exists pieces, s = concat pieces /\ Forall2 piece_ok segments pieces.
Proof.
  induction segments as [|first rest IH]; intros fuel l H s Hs;
    (destruct fuel as [|fuel]; [discriminate|]).
  - injection H as <-. destruct Hs as [<- | []]. exists []. split; constructor.
  - simpl in H. apply obind_returns in H. destruct H as (restC & Hr & Hfor).
    destruct (expand_options_pieces _ _ _ _ _ Hfor s Hs)
      as [[] | (o & processed & piece & r & Ho & Hp & Hpiece & Hrin & ->)].
    destruct (IH fuel restC Hr r Hrin) as (pieces & -> & Hall).
    exists (piece :: pieces). split; [reflexivity|].
    constructor; [|exact Hall]. exists fuel, o, processed. auto.
Qed.

Lemma includes_concat (c : ascii) (pieces : list str) :
  Forall (fun p => includes c p = false) pieces ->
  includes c (concat pieces) = false.
Proof.
  induction 1 as [|p pieces Hp _ IH]; [reflexivity|].
  simpl. now rewrite includes_app, Hp, IH.
Qed.

Lemma expansion_brace_free :
  forall n text, length text < n -> validate text = true ->
  forall fuel l,
    generateAllCombinations fuel (parseSpintax text) = Returns l ->
    Forall (fun s => includes lbrace s = false /\ includes rbrace s = false) l.
Proof.
  induction n as [|n IH]; intros text Hlen Hval fuel l Hl; [lia|].
  pose proof (parse_balanced_options (S (length text)) text ltac:(lia) Hval) as Hb.
  pose proof (parseSpintax_good text (validate_all_matched text Hval)) as Hg.
  unfold good_segments in Hg.
  apply Forall_forall. intros s Hs.
  destruct (expansion_pieces _ _ _ Hl s Hs) as (pieces & -> & Hpieces).
  assert (Hfree : Forall (fun p => includes lbrace p = false /\
                                   includes rbrace p = false) pieces).
  { clear Hs Hl. revert Hb Hg Hpieces. generalize (parseSpintax text) as segments.
    intros segments Hb Hg Hpieces.
    induction Hpieces as [|seg piece segments pieces Hok _ IHp]; [constructor|].
    inversion Hb as [|? ? Hbseg Hbrest]; subst.
    inversion Hg as [|? ? Hgseg Hgrest]; subst.
    constructor; [|apply IHp; assumption].
    destruct Hok as (f0 & o & processed & Ho & Hproc & Hpiece).
    rewrite Forall_forall in Hbseg, Hgseg.
    specialize (Hbseg o Ho). specialize (Hgseg o Ho).
    unfold processNestedSpintax, processNestedSpintax_with in Hproc.
    destruct (includes lbrace o) eqn:Einc; simpl in Hproc.
    - destruct (Hgseg Einc) as [Hvo Hlo].
      pose proof (IH o ltac:(lia) Hvo _ _ Hproc) as Hall.
      rewrite Forall_forall in Hall. now apply Hall.
    - injection Hproc as <-. destruct Hpiece as [<- | []].
      split; [exact Einc|].
      unfold validate in Hbseg. rewrite <- (app_nil_r o) in Hbseg.
      now destruct (literal_prefix_balanced o [] Einc Hbseg). }
  split; apply includes_concat; eapply Forall_impl; try exact Hfree;
    intros p [H1 H2]; assumption.
Qed.

(** X17. The expansion of balanced text is fully resolved: once the fuel
    suffices the expander returns, and none of the strings it returns
    contains a brace. *)
Theorem X17_balanced_expansion_has_no_braces (text : str) :
  validate text = true ->
  exists fuel0 allc,
    (forall fuel, fuel0 <= fuel ->
       generateAllCombinations fuel (parseSpintax text) = Returns allc) /\
    Forall (fun s => includes lbrace s = false /\ includes rbrace s = false) allc.
Proof.
  intros Hval.
  destruct (expand_all_matched text (validate_all_matched text Hval))
    as (fuel0 & allc & Hall).
  exists fuel0, allc. split.
  - intros fuel Hle. now apply (generateAllCombinations_mono _ _ _ Hall).
  - now apply (expansion_brace_free (S (length text)) text ltac:(lia) Hval fuel0).
Qed.

Lemma X17_witness :
  validate (lit "{Dear|Hello} {friend|{valued|esteemed} client}") = true /\
  exists fuel0 allc,
    (forall fuel, fuel0 <= fuel ->
       generateAllCombinations fuel
         (parseSpintax (lit "{Dear|Hello} {friend|{valued|esteemed} client}"))
       = Returns allc) /\
    Forall (fun s => includes lbrace s = false /\ includes rbrace s = false) allc.
Proof.
  split; [reflexivity|].
  apply (X17_balanced_expansion_has_no_braces
           (lit "{Dear|Hello} {friend|{valued|esteemed} client}")).
  reflexivity.
Defined.

(** ** [spin] and [generate] *)

(** X18. [spin] is [generate] with a count of one in the default random
    mode, followed by the fallback: whenever that call of [generate]
    returns, [spin], started with the same random source, returns its
    first variation, or the text itself when there is none or when it is
    the empty string, and has then read the random source as often. *)
Theorem X18_spin_is_generate_one (rnd : nat -> nat) (fuel : nat) (text : str)
    (k k' : nat) (res : SpintaxResult) :
  generate rnd fuel text {| count := Some 1%Z; mode := None |} k = Returns (res, k') ->
  spin rnd fuel text k
  = Returns (or_else (nth_error (variations res) 0) text, k').
Proof.
  intros H. unfold generate in H.
  apply mbind_returns in H. destruct H as (st & k1 & Hst & H).
  apply lift_returns in Hst. destruct Hst as [_ ->].
  apply mbind_returns in H. destruct H as (vs & k2 & Hvs & Hret).
  unfold ret in Hret. injection Hret as <- <-.
  cbn [mode count variations] in *.
  change (Z.min 1 100) with 1%Z in Hvs.
  unfold spin, mbind. rewrite Hvs. reflexivity.
Qed.

Lemma X18_witness :
  generate (fun n => n) 3 (lit "{A|B {1|2}}")
    {| count := Some 1%Z; mode := None |} 1
  = Returns ({| variations := [lit "B 2"];
                stats := {| totalCombinations := Fin 3; spinElements := 1;
                            averageOptionsPerSpin := quotient 2 1 |};
                generatedCount := 1 |}, 4) /\
  spin (fun n => n) 3 (lit "{A|B {1|2}}") 1
  = Returns (or_else (nth_error [lit "B 2"] 0) (lit "{A|B {1|2}}"), 4).
Proof.
  assert (H : generate (fun n => n) 3 (lit "{A|B {1|2}}")
                {| count := Some 1%Z; mode := None |} 1
              = Returns ({| variations := [lit "B 2"];
                            stats := {| totalCombinations := Fin 3; spinElements := 1;
                                        averageOptionsPerSpin := quotient 2 1 |};
                            generatedCount := 1 |}, 4))
    by (vm_compute; reflexivity).
  split; [exact H|].
  exact (X18_spin_is_generate_one _ _ _ _ _ _ H).
Defined.
